(** * Adaptive-bitrate packaging pipeline of the video streaming service

    A shallow embedding of [VideoService] (services/video-service.ts), of the
    bitrate ladder of [CONSTANTS] (config/env.ts), of the job and metadata
    records (types/index.ts) and of the metadata step of
    [VideoController.uploadVideo] (controllers/video-controller.ts), followed
    by the properties of the master playlist, of job progress and failure,
    of job eviction and of metadata probing.

    Conventions of the embedding.
    - JavaScript strings are sequences of ASCII characters.
    - JavaScript numbers are IEEE-754 doubles.  A finite double is the
      rational number it denotes: a [Q], or a [Z] where the code only has
      integers.  Every arithmetic operation yields the exact result rounded
      to the nearest double ([Double.RN]), a result beyond the largest double
      is an infinity where the code can produce one ([parseInt], [+], [-]).
      The sign of zero is not modelled: minus zero is zero.
    - Timestamps are epoch milliseconds; the ISO-8601 strings the service
      stores ([toISOString]) and reads back ([new Date(..).getTime()]) carry
      exactly that value.
    - Logging and metrics calls have no effect on the modelled state and are
      left out. *)

From Stdlib Require Import ZArith QArith Qround Qpower Qabs Ascii String DecimalString Permutation Lia Lqa.
From stdpp Require Import base option list strings gmap fin_maps.

Local Open Scope Z_scope.

(** ** IEEE-754 binary64 arithmetic *)

Module Double.
Local Open Scope Q_scope.

(** [floor (log2 q)] for a positive [q]. *)
Definition exponent (q : Q) : Z :=
  let e0 := (Z.log2 (Qnum q) - Z.log2 (Zpos (Qden q)))%Z in
  if Qle_bool (2 ^ e0) q then e0 else (e0 - 1)%Z.

(** The integer nearest to [y], a tie going to the even one. *)
Definition round_half_even (y : Q) : Z :=
  let k := Qfloor y in
  match Qcompare (y - inject_Z k) (1 # 2) with
  | Lt => k
  | Gt => (k + 1)%Z
  | Eq => if Z.even k then k else (k + 1)%Z
  end.

(** The distance between the doubles around [q]: 53 bits of precision, and
    2^-1074 among the subnormal numbers. *)
Definition ulp (q : Q) : Q := 2 ^ Z.max (exponent (Qabs q) - 52) (-1074).

(** Rounding to the nearest double, a tie going to the even significand. *)
Definition RN (q : Q) : Q :=
  if Qeq_bool q 0 then 0
  else Qred (inject_Z (round_half_even (q / ulp q)) * ulp q).

(** The four operations on finite doubles.  The exponent has no upper
    bound here: a result of magnitude 2^1024 or more stands for an overflow,
    and the quotient by zero is not defined by [div]. *)
Definition add (a b : Q) : Q := RN (a + b).
Definition sub (a b : Q) : Q := RN (a - b).
Definition mul (a b : Q) : Q := RN (a * b).
Definition div (a b : Q) : Q := RN (a / b).

(** The doubles: an integer significand below 2^53 in magnitude, at an
    exponent of at least -1074. *)
Definition representable (q : Q) : Prop :=
  exists M F : Z, (Z.abs M < 2 ^ 53)%Z /\ (-1074 <= F)%Z /\ q == inject_Z M * 2 ^ F.

(** [2^-53], the largest relative error of one rounding. *)
Definition epsilon : Q := 1 # 9007199254740992.

End Double.

(** ** JavaScript primitives used by the service *)

Module Js.

(** Numbers that [parseInt], [+], [/] followed by [Math.round] can yield:
    not-a-number, the infinities, and the doubles that are integers. *)
Inductive number : Type :=
| NaN
| PosInf
| NegInf
| Int (z : Z).

(** The number of a mathematical integer: the nearest double, an infinity
    from 2^1024 on. *)
Definition number_of (v : Z) : number :=
  let r := Double.RN (inject_Z v) in
  if Qle_bool (2 ^ 1024) (Qabs r)
  then (if 0 <? v then PosInf else NegInf)
  else Int (Qfloor r).

Definition LF : string := String (ascii_of_nat 10) EmptyString.
Definition DQUOTE : string := String (ascii_of_nat 34) EmptyString.

(** [s.startsWith(p)], returning the rest of [s]. *)
Fixpoint strip_prefix (p s : string) : option string :=
  match p, s with
  | EmptyString, _ => Some s
  | String a p', String b s' =>
      if Ascii.eqb a b then strip_prefix p' s' else None
  | String _ _, EmptyString => None
  end.

(** [String.prototype.replace] with a string pattern: only the first
    occurrence is replaced.  The replacement is taken literally, which is
    what JavaScript does for a replacement without a dollar sign. *)
Fixpoint replace (pat rep s : string) : string :=
  match strip_prefix pat s with
  | Some rest => rep +:+ rest
  | None =>
      match s with
      | EmptyString => EmptyString
      | String c s' => String c (replace pat rep s')
      end
  end.

(** [String.prototype.split] with a one-character separator. *)
Fixpoint split (sep : ascii) (s : string) : list string :=
  match s with
  | EmptyString => [EmptyString]
  | String c s' =>
      if Ascii.eqb c sep then EmptyString :: split sep s'
      else match split sep s' with
           | [] => [String c EmptyString]
           | w :: ws => String c w :: ws
           end
  end.

(** [Array.prototype.join]. *)
Fixpoint join (sep : string) (l : list string) : string :=
  match l with
  | [] => EmptyString
  | [x] => x
  | x :: rest => x +:+ sep +:+ join sep rest
  end.

Definition is_whitespace (c : ascii) : bool :=
  let n := nat_of_ascii c in
  (Nat.leb 9 n && Nat.leb n 13) || Nat.eqb n 32.

Fixpoint trim_start (s : string) : string :=
  match s with
  | String c s' => if is_whitespace c then trim_start s' else s
  | EmptyString => s
  end.

(** Value of a character as a digit: 0-9, then a-z and A-Z for 10-35. *)
Definition digit_value (c : ascii) : option Z :=
  let n := Z.of_nat (nat_of_ascii c) in
  if (48 <=? n) && (n <=? 57) then Some (n - 48)
  else if (97 <=? n) && (n <=? 122) then Some (n - 87)
  else if (65 <=? n) && (n <=? 90) then Some (n - 55)
  else None.

(** The longest prefix of digits of the radix, accumulated left to right;
    [None] while no digit has been read. *)
Fixpoint parse_digits (radix : Z) (s : string) (acc : option Z) : option Z :=
  match s with
  | EmptyString => acc
  | String c s' =>
      match digit_value c with
      | Some d =>
          if d <? radix
          then parse_digits radix s' (Some (radix * default 0 acc + d))
          else acc
      | None => acc
      end
  end.

(** [parseInt(s)] without a radix argument: leading white space, a sign,
    an optional [0x] prefix selecting radix 16, then digits.  The result is
    the number of the integer the digits write. *)
Definition parseInt (s : string) : number :=
  let s1 := trim_start s in
  let '(neg, s2) :=
    match s1 with
    | String "-" r => (true, r)
    | String "+" r => (false, r)
    | _ => (false, s1)
    end in
  let '(radix, s3) :=
    match s2 with
    | String "0" (String "x" r) => (16, r)
    | String "0" (String "X" r) => (16, r)
    | _ => (10, s2)
    end in
  match parse_digits radix s3 None with
  | None => NaN
  | Some v => number_of (if neg : bool then - v else v)
  end.

(** The [+] of two numbers. *)
Definition add (a b : number) : number :=
  match a, b with
  | NaN, _ | _, NaN => NaN
  | PosInf, NegInf | NegInf, PosInf => NaN
  | PosInf, _ | _, PosInf => PosInf
  | NegInf, _ | _, NegInf => NegInf
  | Int x, Int y => number_of (x + y)
  end.

(** [Math.round] of a finite double: the nearest integer, a tie going
    towards positive infinity.  The result is a double again. *)
Definition Math_round (q : Q) : Z := Qfloor (q + (1 # 2)).

(** [Math.round(a / b)] for two numbers as [parseInt] yields them.  The
    quotient of two finite numbers is the double nearest to the exact
    quotient. *)
Definition round_div (a b : number) : number :=
  match a, b with
  | NaN, _ | _, NaN => NaN
  | Int x, Int y =>
      if y =? 0 then
        (if x =? 0 then NaN else if 0 <? x then PosInf else NegInf)
      else Int (Math_round (Double.div (inject_Z x) (inject_Z y)))
  | Int _, (PosInf | NegInf) => Int 0
  | PosInf, Int y => if y <? 0 then NegInf else PosInf
  | NegInf, Int y => if y <? 0 then PosInf else NegInf
  | (PosInf | NegInf), (PosInf | NegInf) => NaN
  end.

(** Decimal text of an integer, as a template literal prints it (for an
    integer below 10^21 in magnitude). *)
Definition Z_to_string (z : Z) : string := NilZero.string_of_int (Z.to_int z).

Definition to_string (n : number) : string :=
  match n with
  | NaN => "NaN"
  | PosInf => "Infinity"
  | NegInf => "-Infinity"
  | Int z => Z_to_string z
  end.

(** [x || d] on an optional string: undefined and the empty string are
    falsy. *)
Definition str_or (x : option string) (d : string) : string :=
  match x with
  | Some EmptyString | None => d
  | Some s => s
  end.

(** [x || 0] on an optional integer. *)
Definition int_or_zero (x : option Z) : Z := default 0 x.

(** [x || 0] on an optional finite double. *)
Definition frac_or_zero (x : option Q) : Q :=
  match x with
  | Some q => if Qeq_bool q 0 then 0%Q else q
  | None => 0%Q
  end.

End Js.

(** ** config/env.ts: the bitrate ladder *)

Record Variant : Type := mkVariant {
  resolution : string;
  videoBitrate : string;
  audioBitrate : string;
  name : string
}.

Definition BITRATE_LADDER : list Variant :=
  [ mkVariant "426x240" "400k" "64k" "240p";
    mkVariant "640x360" "800k" "96k" "360p";
    mkVariant "854x480" "1200k" "128k" "480p";
    mkVariant "1280x720" "2500k" "128k" "720p";
    mkVariant "1920x1080" "5000k" "192k" "1080p" ].

(** ** The master playlist of [generateMasterPlaylist] *)

(** The [bandwidth] constant of the loop body. *)
Definition bandwidth (v : Variant) : Js.number :=
  Js.add (Js.parseInt (Js.replace "k" "000" (videoBitrate v)))
         (Js.parseInt (Js.replace "k" "000" (audioBitrate v))).

Definition stream_inf_line (v : Variant) : string :=
  "#EXT-X-STREAM-INF:BANDWIDTH=" +:+ Js.to_string (bandwidth v) +:+
  ",RESOLUTION=" +:+ resolution v +:+
  ",CODECS=" +:+ Js.DQUOTE +:+ "avc1.42e00a,mp4a.40.2" +:+ Js.DQUOTE.

Definition playlist_line (v : Variant) : string := name v +:+ "/playlist.m3u8".

(** The array [masterContent] after the loop: three header elements, then
    three pushed elements per ladder entry. *)
Definition masterContent (ladder : list Variant) : list string :=
  fold_left
    (fun content v => content ++ [stream_inf_line v; playlist_line v; EmptyString])
    ladder
    ["#EXTM3U"; "#EXT-X-VERSION:3"; EmptyString].

(** The text handed to [fs.writeFile]. *)
Definition master_playlist_text (ladder : list Variant) : string :=
  Js.join Js.LF (masterContent ladder).

(** ** types/index.ts: processing jobs *)

(** The [status] union of [VideoProcessingJob]. *)
Inductive JobStatus : Type := queued | processing | completed | failed.

(** The string each member of the union is at run time. *)
Definition status_text (s : JobStatus) : string :=
  match s with
  | queued => "queued"
  | processing => "processing"
  | completed => "completed"
  | failed => "failed"
  end.

Module Job.
Record t : Type := mk {
  id : string;
  videoId : string;
  status : JobStatus;
  progress : Z;
  startedAt : option Z;
  completedAt : option Z;
  error : option string;
  outputPaths : list string
}.

(** [job.progress = p] *)
Definition set_progress (p : Z) (j : t) : t :=
  mk (id j) (videoId j) (status j) p (startedAt j) (completedAt j) (error j)
     (outputPaths j).

(** The assignments of the [catch] branch of [convertToHLS]. *)
Definition fail (message : string) (now : Z) (j : t) : t :=
  mk (id j) (videoId j) failed (progress j) (startedAt j) (Some now)
     (Some message) (outputPaths j).

(** The assignments at the end of the [try] branch of [convertToHLS]. *)
Definition complete (paths : list string) (now : Z) (j : t) : t :=
  mk (id j) (videoId j) completed 100 (startedAt j) (Some now) (error j) paths.
End Job.

(** A value that is thrown or that rejects a promise. *)
Inductive thrown : Type :=
| ErrorObject (message : string)
| OtherValue.

(** [error instanceof Error ? error.message : 'Unknown error'] *)
Definition error_message (e : thrown) : string :=
  match e with
  | ErrorObject m => m
  | OtherValue => "Unknown error"
  end.

(** What the service imports from Node and from its configuration:
    [path.join], [path.extname] and [CONSTANTS.BITRATE_LADDER]. *)
Class Deps : Type := {
  path_join : string -> string -> string;
  path_extname : string -> string;
  ladder : list Variant
}.

(** ** services/video-service.ts: the job registry *)

(** The service object and what it acts on.  Job objects live in [heap] and
    are referred to by their index: the map [processingJobs] and the running
    call of [convertToHLS] hold the same reference, so an assignment to a
    field of [job] is seen by every later lookup.  [files] holds what
    [fs.writeFile] wrote, [dirs] what [fs.mkdir] created, [now] is the
    clock. *)
Record Service : Type := mkService {
  heap : list Job.t;
  processingJobs : gmap string nat;
  files : gmap string string;
  dirs : gset string;
  now : Z
}.

Definition deref (w : Service) (r : nat) : option Job.t := heap w !! r.

(** [getProcessingJob(jobId)] *)
Definition getProcessingJob (w : Service) (jobId : string) : option Job.t :=
  match processingJobs w !! jobId with
  | Some r => deref w r
  | None => None
  end.

(** [getAllProcessingJobs()].  The order of the values of a JavaScript map
    is its insertion order; here it is the order of [map_to_list]. *)
Definition getAllProcessingJobs (w : Service) : list Job.t :=
  omap (fun kr => deref w kr.2) (map_to_list (processingJobs w)).

(** [Date.now() - maxAgeHours * 60 * 60 * 1000] *)
Definition cutoff (w : Service) (maxAgeHours : Z) : Z :=
  now w - maxAgeHours * 60 * 60 * 1000.

(** The two nested conditions of the loop body of [cleanupOldJobs]. *)
Definition is_old (cut : Z) (j : Job.t) : bool :=
  match Job.completedAt j with
  | Some completedTime => completedTime <? cut
  | None => false
  end.

Definition ref_is_old (w : Service) (cut : Z) (r : nat) : bool :=
  match deref w r with
  | Some j => is_old cut j
  | None => false
  end.

(** [cleanupOldJobs(maxAgeHours)]: the loop visits every entry of the map
    and deletes the entry it is visiting when the job is old. *)
Definition cleanupOldJobs (maxAgeHours : Z) (w : Service) : Service :=
  let cut := cutoff w maxAgeHours in
  mkService (heap w)
    (fold_left
       (fun (m : gmap string nat) (entry : string * nat) =>
          if ref_is_old w cut entry.2 then delete entry.1 m else m)
       (map_to_list (processingJobs w))
       (processingJobs w))
    (files w) (dirs w) (now w).

(** The default argument of [cleanupOldJobs]. *)
Definition default_maxAgeHours : Z := 24.

(** ** services/video-service.ts: [convertToHLS] *)

(** The promise of one ladder entry: waiting for [fs.mkdir], waiting for
    ffmpeg, resolved by the [end] event, or rejected. *)
Inductive Promise : Type :=
| MakingDir
| Encoding
| Resolved
| Rejected (e : thrown).

(** Where the body of [convertToHLS] is suspended, or how it finished. *)
Inductive Phase : Type :=
| AwaitingVariants
| WritingMaster
| MakingThumbnail
| Returned (paths : list string)
| Threw (e : thrown).

(** The locals of one call of [convertToHLS].  [job] is the reference to the
    job object, [outputPaths] the local array of that name. *)
Record Call : Type := mkCall {
  job : nat;
  inputPath : string;
  outputDir : string;
  outputPaths : list string;
  promises : list Promise;
  phase : Phase
}.

Record State : Type := mkState {
  service : Service;
  call : Call
}.

(** What happens to a call: the outcomes of the awaited operations and the
    events of the ffmpeg processes, plus the clock and an operator running
    the cleanup. *)
Inductive Event : Type :=
| MkdirDone (index : nat)
| MkdirFailed (index : nat) (e : thrown)
| FfmpegProgress (index : nat) (percent : option Q)
| FfmpegEnd (index : nat)
| FfmpegError (index : nat) (e : thrown)
| WriteFileDone
| WriteFileFailed (e : thrown)
| ThumbnailEnd
| ThumbnailError (e : thrown)
| Tick (ms : Z)
| CleanupOldJobs (maxAgeHours : Z).

Definition is_resolved (p : Promise) : bool :=
  match p with Resolved => true | _ => false end.

(** The value [overallProgress] of the [progress] handler:
    [Math.round(((index + (progress.percent || 0) / 100) / N) * 100)], each
    operation rounding to a double.  [percent] is the finite double the
    encoder reports, if any; [index] and [N] are an array index and an array
    length, which are doubles as they are. *)
Definition overallProgress (index : nat) (percent : option Q) (N : nat) : Z :=
  Js.Math_round
    (Double.mul
       (Double.div
          (Double.add (inject_Z (Z.of_nat index))
                      (Double.div (Js.frac_or_zero percent) 100))
          (inject_Z (Z.of_nat N)))
       100).

Section ConvertToHLS.
Context `{Deps}.

Definition variantDir (dir : string) (v : Variant) : string :=
  path_join dir (name v).
Definition playlistPath (dir : string) (v : Variant) : string :=
  path_join (variantDir dir v) "playlist.m3u8".
Definition masterPlaylistPath (dir : string) : string :=
  path_join dir "master.m3u8".
Definition thumbnailPath (dir : string) : string :=
  path_join dir "thumbnail.jpg".

(** An assignment through the reference [job]. *)
Definition update_job (f : Job.t -> Job.t) (s : State) : State :=
  let w := service s in
  mkState
    (mkService (alter f (job (call s)) (heap w)) (processingJobs w)
               (files w) (dirs w) (now w))
    (call s).

Definition set_promise (i : nat) (p : Promise) (s : State) : State :=
  let c := call s in
  mkState (service s)
    (mkCall (job c) (inputPath c) (outputDir c) (outputPaths c)
            (<[i := p]> (promises c)) (phase c)).

Definition set_phase (ph : Phase) (s : State) : State :=
  let c := call s in
  mkState (service s)
    (mkCall (job c) (inputPath c) (outputDir c) (outputPaths c)
            (promises c) ph).

(** [outputPaths.push(p)] *)
Definition push_path (p : string) (s : State) : State :=
  let c := call s in
  mkState (service s)
    (mkCall (job c) (inputPath c) (outputDir c) (outputPaths c ++ [p])
            (promises c) (phase c)).

Definition add_dir (d : string) (s : State) : State :=
  let w := service s in
  mkState
    (mkService (heap w) (processingJobs w) (files w) ({[ d ]} ∪ dirs w) (now w))
    (call s).

Definition write_file (p text : string) (s : State) : State :=
  let w := service s in
  mkState
    (mkService (heap w) (processingJobs w) (<[p := text]> (files w)) (dirs w)
               (now w))
    (call s).

(** The [catch] branch. *)
Definition catch_block (e : thrown) (s : State) : State :=
  set_phase (Threw e)
    (update_job (Job.fail (error_message e) (now (service s))) s).

(** The end of the [try] branch, from "Update job status" on.  The array
    assigned to [job.outputPaths] is the local one; nothing is pushed to it
    afterwards, since every encode and the thumbnail have ended. *)
Definition finish (s : State) : State :=
  let paths := outputPaths (call s) in
  set_phase (Returned paths)
    (update_job (Job.complete paths (now (service s))) s).

(** [Promise.all] rejects with the first rejection... *)
Definition on_reject (e : thrown) (s : State) : State :=
  match phase (call s) with
  | AwaitingVariants => catch_block e s
  | _ => s
  end.

(** ...and resolves once every promise has resolved; the body then calls
    [generateMasterPlaylist], which awaits [fs.writeFile]. *)
Definition on_resolve (s : State) : State :=
  match phase (call s) with
  | AwaitingVariants =>
      if forallb is_resolved (promises (call s))
      then set_phase WritingMaster s else s
  | _ => s
  end.

(** The call up to its first suspension: the job object is created and
    registered, one promise per ladder entry is started. *)
Definition convertToHLS (w : Service) (input dir video jobId : string) : State :=
  let j := Job.mk jobId video processing 0 (Some (now w)) None None [] in
  let r := length (heap w) in
  on_resolve
    (mkState
       (mkService (heap w ++ [j]) (<[jobId := r]> (processingJobs w))
                  (files w) (dirs w) (now w))
       (mkCall r input dir [] (map (fun _ => MakingDir) ladder)
               AwaitingVariants)).

(** One event.  An event that cannot occur where the call stands (progress
    of a process that has exited, say) leaves the state as it is. *)
Definition step (s : State) (ev : Event) : State :=
  let c := call s in
  match ev with
  | MkdirDone i =>
      match promises c !! i, ladder !! i with
      | Some MakingDir, Some v =>
          set_promise i Encoding (add_dir (variantDir (outputDir c) v) s)
      | _, _ => s
      end
  | MkdirFailed i e =>
      match promises c !! i with
      | Some MakingDir => on_reject e (set_promise i (Rejected e) s)
      | _ => s
      end
  | FfmpegProgress i percent =>
      match promises c !! i with
      | Some Encoding =>
          update_job
            (Job.set_progress (overallProgress i percent (length ladder))) s
      | _ => s
      end
  | FfmpegEnd i =>
      match promises c !! i, ladder !! i with
      | Some Encoding, Some v =>
          on_resolve
            (set_promise i Resolved (push_path (playlistPath (outputDir c) v) s))
      | _, _ => s
      end
  | FfmpegError i e =>
      match promises c !! i with
      | Some Encoding => on_reject e (set_promise i (Rejected e) s)
      | _ => s
      end
  | WriteFileDone =>
      match phase c with
      | WritingMaster =>
          set_phase MakingThumbnail
            (push_path (masterPlaylistPath (outputDir c))
               (write_file (masterPlaylistPath (outputDir c))
                  (master_playlist_text ladder) s))
      | _ => s
      end
  | WriteFileFailed e =>
      match phase c with
      | WritingMaster => catch_block e s
      | _ => s
      end
  | ThumbnailEnd =>
      match phase c with
      | MakingThumbnail => finish (push_path (thumbnailPath (outputDir c)) s)
      | _ => s
      end
  | ThumbnailError e =>
      match phase c with
      | MakingThumbnail => finish s
      | _ => s
      end
  | Tick ms =>
      let w := service s in
      mkState
        (mkService (heap w) (processingJobs w) (files w) (dirs w) (now w + ms))
        c
  | CleanupOldJobs maxAgeHours =>
      mkState (cleanupOldJobs maxAgeHours (service s)) c
  end.

Definition run (s : State) (evs : list Event) : State := fold_left step evs s.

(** The job object of the call, as every holder of the reference sees it. *)
Definition the_job (s : State) : option Job.t :=
  deref (service s) (job (call s)).

End ConvertToHLS.

(** ** types/index.ts: video metadata *)

(** The [processingStatus] union of [VideoMetadata]. *)
Inductive ProcessingStatus : Type :=
| st_pending | st_processing | st_completed | st_failed.

Module VideoMetadata.
Record t : Type := mk {
  id : string;
  filename : string;
  originalName : string;
  format : string;
  duration : Q;
  size : Js.number;
  width : Z;
  height : Z;
  bitrate : Js.number;
  codec : string;
  audioCodec : option string;
  frameRate : Js.number;
  createdAt : Z;
  updatedAt : Z;
  hlsPath : option string;
  thumbnailPath : option string;
  isProcessed : bool;
  processingStatus : ProcessingStatus
}.
End VideoMetadata.

(** [Partial<VideoMetadata>], restricted to the properties the prober can
    set: a property is present or absent. *)
Module PartialMetadata.
Record t : Type := mk {
  duration : option Q;
  size : option Js.number;
  width : option Z;
  height : option Z;
  bitrate : option Js.number;
  codec : option string;
  audioCodec : option string;
  frameRate : option Js.number
}.
End PartialMetadata.

(** [Object.assign(target, source)]: every property present in the source
    overwrites the one of the target. *)
Definition Object_assign (target : VideoMetadata.t) (source : PartialMetadata.t)
  : VideoMetadata.t :=
  VideoMetadata.mk
    (VideoMetadata.id target)
    (VideoMetadata.filename target)
    (VideoMetadata.originalName target)
    (VideoMetadata.format target)
    (default (VideoMetadata.duration target) (PartialMetadata.duration source))
    (default (VideoMetadata.size target) (PartialMetadata.size source))
    (default (VideoMetadata.width target) (PartialMetadata.width source))
    (default (VideoMetadata.height target) (PartialMetadata.height source))
    (default (VideoMetadata.bitrate target) (PartialMetadata.bitrate source))
    (default (VideoMetadata.codec target) (PartialMetadata.codec source))
    (match PartialMetadata.audioCodec source with
     | Some a => Some a
     | None => VideoMetadata.audioCodec target
     end)
    (default (VideoMetadata.frameRate target) (PartialMetadata.frameRate source))
    (VideoMetadata.createdAt target)
    (VideoMetadata.updatedAt target)
    (VideoMetadata.hlsPath target)
    (VideoMetadata.thumbnailPath target)
    (VideoMetadata.isProcessed target)
    (VideoMetadata.processingStatus target).

(** ** services/video-service.ts: [getVideoMetadata] *)

(** What ffprobe reports, as far as the service reads it.  Every property
    may be absent; [size] and [bit_rate] are numbers, or the text ffprobe
    printed when it is not a number. *)
Inductive FormatValue : Type :=
| FNumber (z : Z)
| FText (s : string).

Record FfprobeStream : Type := mkStream {
  codec_type : option string;
  codec_name : option string;
  stream_width : option Z;
  stream_height : option Z;
  r_frame_rate : option string
}.

Record FfprobeFormat : Type := mkFormat {
  format_duration : option Q;
  format_size : option FormatValue;
  format_bit_rate : option FormatValue
}.

Record FfprobeData : Type := mkData {
  streams : list FfprobeStream;
  format : FfprobeFormat
}.

(** The two arguments of the callback of [ffmpeg.ffprobe]. *)
Inductive FfprobeOutcome : Type :=
| ProbeError (err : thrown)
| ProbeData (metadata : FfprobeData).

(** How a promise settles. *)
Inductive Settled (A : Type) : Type :=
| Fulfilled (value : A)
| RejectedWith (reason : thrown).
Arguments Fulfilled {A} value.
Arguments RejectedWith {A} reason.

(** [x?.toString() || d] *)
Definition toString_or (x : option FormatValue) (d : string) : string :=
  Js.str_or
    (match x with
     | Some (FNumber z) => Some (Js.Z_to_string z)
     | Some (FText s) => Some s
     | None => None
     end) d.

(** [parseFrameRate]: "30/1" gives 30. *)
Definition parseFrameRate (frameRateStr : option string) : Js.number :=
  match frameRateStr with
  | None | Some EmptyString => Js.Int 0
  | Some s =>
      let parts := Js.split "/" s in
      let num := parts !! 0%nat in
      let den := default "1" (parts !! 1%nat) in
      Js.round_div (Js.parseInt (Js.str_or num "0"))
                   (Js.parseInt (Js.str_or (Some den) "1"))
  end.

Definition has_codec_type (ty : string) (s : FfprobeStream) : bool :=
  match codec_type s with
  | Some t => String.eqb t ty
  | None => false
  end.

Definition getVideoMetadata (outcome : FfprobeOutcome) : Settled PartialMetadata.t :=
  match outcome with
  | ProbeError err => RejectedWith err
  | ProbeData metadata =>
      let videoStream := List.find (has_codec_type "video") (streams metadata) in
      let audioStream := List.find (has_codec_type "audio") (streams metadata) in
      match videoStream with
      | None => RejectedWith (ErrorObject "No video stream found")
      | Some vs =>
          Fulfilled
            (PartialMetadata.mk
               (Some (Js.frac_or_zero (format_duration (format metadata))))
               (Some (Js.parseInt (toString_or (format_size (format metadata)) "0")))
               (Some (Js.int_or_zero (stream_width vs)))
               (Some (Js.int_or_zero (stream_height vs)))
               (Some (Js.parseInt (toString_or (format_bit_rate (format metadata)) "0")))
               (Some (Js.str_or (codec_name vs) "unknown"))
               (Some (Js.str_or
                        (match audioStream with
                         | Some a => codec_name a
                         | None => None
                         end) "unknown"))
               (Some (parseFrameRate (r_frame_rate vs))))
      end
  end.

(** ** controllers/video-controller.ts: [uploadVideo] *)

(** The uploaded file of the request ([req.file]). *)
Record UploadedFile : Type := mkFile {
  originalname : string;
  path : string;
  file_size : Z
}.

(** [path.extname(name).slice(1)] *)
Definition slice1 (s : string) : string :=
  match s with
  | EmptyString => EmptyString
  | String _ rest => rest
  end.

(** [video.processingStatus = st] *)
Definition with_status (st : ProcessingStatus) (v : VideoMetadata.t)
  : VideoMetadata.t :=
  VideoMetadata.mk
    (VideoMetadata.id v) (VideoMetadata.filename v) (VideoMetadata.originalName v)
    (VideoMetadata.format v) (VideoMetadata.duration v) (VideoMetadata.size v)
    (VideoMetadata.width v) (VideoMetadata.height v) (VideoMetadata.bitrate v)
    (VideoMetadata.codec v) (VideoMetadata.audioCodec v)
    (VideoMetadata.frameRate v) (VideoMetadata.createdAt v)
    (VideoMetadata.updatedAt v) (VideoMetadata.hlsPath v)
    (VideoMetadata.thumbnailPath v) (VideoMetadata.isProcessed v) st.

(** [processVideoAsync] up to its first [await]: the record of the video,
    if there is one, is marked as processing.  The record is the object the
    map holds, so every holder of it sees the assignment. *)
Definition processVideoAsync_start (videoId : string)
    (store : gmap string VideoMetadata.t) : gmap string VideoMetadata.t :=
  match store !! videoId with
  | Some video => <[videoId := with_status st_processing video]> store
  | None => store
  end.

(** How [uploadVideo] ends: with the 201 response, the metadata map at that
    moment and the arguments [processVideoAsync] was started with (input
    path, output directory, video id), or with an [AppError]. *)
Inductive UploadResult : Type :=
| Created (store : gmap string VideoMetadata.t) (data : VideoMetadata.t)
          (started : string * string * string)
| AppError (message : string) (statusCode : Z) (code : string).

Section UploadVideo.
Context `{Deps}.

(** The record built under "Create video metadata". *)
Definition initial_metadata (file : UploadedFile) (id : string) (t1 t2 : Z)
  : VideoMetadata.t :=
  let ext := slice1 (path_extname (originalname file)) in
  VideoMetadata.mk id (id +:+ "." +:+ ext) (originalname file) ext
    0%Q (Js.Int (file_size file)) 0 0 (Js.Int 0) "unknown" None (Js.Int 0)
    t1 t2 None None false st_pending.

(** [uploadVideo], with the request's file, the fresh video id, the two
    clock readings and the outcome of ffprobe on the file.  The call of
    [processVideoAsync] is not awaited, but it runs up to its own first
    [await] before [uploadVideo] goes on: the response is built from the
    record after that, and [data] is the object the map holds. *)
Definition uploadVideo (HLS_OUTPUT_PATH : string)
    (store : gmap string VideoMetadata.t) (file : option UploadedFile)
    (id : string) (t1 t2 : Z) (probe : FfprobeOutcome) : UploadResult :=
  match file with
  | None => AppError "No video file provided" 400 "MISSING_VIDEO_FILE"
  | Some f =>
      let dir := path_join HLS_OUTPUT_PATH id in
      let videoMetadata := initial_metadata f id t1 t2 in
      let videoMetadata' :=
        match getVideoMetadata probe with
        | Fulfilled metadata => Object_assign videoMetadata metadata
        | RejectedWith _ => videoMetadata
        end in
      let stored := <[id := videoMetadata']> store in
      let started := processVideoAsync_start id stored in
      Created started (default videoMetadata' (started !! id)) (path f, dir, id)
  end.

End UploadVideo.

(** An instance of the imports: the ladder of config/env.ts, and for the
    path functions their behaviour on plain relative names. *)
Fixpoint last_dot_suffix (s : string) : option string :=
  match s with
  | EmptyString => None
  | String c rest =>
      match last_dot_suffix rest with
      | Some ext => Some ext
      | None => if Ascii.eqb c "." then Some s else None
      end
  end.

Definition configured : Deps :=
  {| path_join := fun a b => a +:+ "/" +:+ b;
     path_extname := fun s => default EmptyString (last_dot_suffix s);
     ladder := BITRATE_LADDER |}.

(** The ladder of the scenario of the specification. *)
Definition scenario : Deps :=
  {| path_join := fun a b => a +:+ "/" +:+ b;
     path_extname := fun s => default EmptyString (last_dot_suffix s);
     ladder := take 2 BITRATE_LADDER |}.

(** A service that has not run anything yet. *)
Definition fresh_service (t : Z) : Service := mkService [] ∅ ∅ ∅ t.

(** ** Notions the properties are stated with *)

(** The lines of the master playlist as the specification lays them out:
    two header lines, per ladder entry a blank line, the stream line and the
    playlist line, and a last, empty line. *)
Definition template_block (v : Variant) : list string :=
  [ EmptyString;
    "#EXT-X-STREAM-INF:BANDWIDTH=" +:+ Js.to_string (bandwidth v)
      +:+ ",RESOLUTION=" +:+ resolution v
      +:+ ",CODECS=" +:+ Js.DQUOTE +:+ "avc1.42e00a,mp4a.40.2" +:+ Js.DQUOTE;
    name v +:+ "/playlist.m3u8" ].

Definition template_lines (entries : list Variant) : list string :=
  ["#EXTM3U"; "#EXT-X-VERSION:3"]
  ++ flat_map template_block entries
  ++ [EmptyString].

(** The bytes of [master.m3u8] in the scenario of the specification. *)
Definition scenario_master_bytes : string :=
  "#EXTM3U" +:+ Js.LF +:+
  "#EXT-X-VERSION:3" +:+ Js.LF +:+
  Js.LF +:+
  "#EXT-X-STREAM-INF:BANDWIDTH=464000,RESOLUTION=426x240,CODECS=" +:+
    Js.DQUOTE +:+ "avc1.42e00a,mp4a.40.2" +:+ Js.DQUOTE +:+ Js.LF +:+
  "240p/playlist.m3u8" +:+ Js.LF +:+
  Js.LF +:+
  "#EXT-X-STREAM-INF:BANDWIDTH=896000,RESOLUTION=640x360,CODECS=" +:+
    Js.DQUOTE +:+ "avc1.42e00a,mp4a.40.2" +:+ Js.DQUOTE +:+ Js.LF +:+
  "360p/playlist.m3u8" +:+ Js.LF.

(** A decimal numeral and the number it writes, by positional notation. *)
Definition is_decimal_digit (c : ascii) : bool :=
  let n := Z.of_nat (nat_of_ascii c) in (48 <=? n) && (n <=? 57).

Fixpoint all_decimal (ds : string) : bool :=
  match ds with
  | EmptyString => true
  | String c rest => is_decimal_digit c && all_decimal rest
  end.

Definition is_numeral (ds : string) : bool :=
  match ds with
  | EmptyString => false
  | String _ _ => all_decimal ds
  end.

Fixpoint numeral_value (ds : string) : Z :=
  match ds with
  | EmptyString => 0
  | String c rest =>
      (Z.of_nat (nat_of_ascii c) - 48) * 10 ^ Z.of_nat (String.length rest)
      + numeral_value rest
  end.

(** Bits per second of a bitrate written [<n>k]. *)
Definition kilo_bps (ds : string) : Z := numeral_value ds * 1000.

(** [r] is the integer nearest to [x], a tie going up. *)
Definition nearest_integer (r : Z) (x : Q) : Prop :=
  (inject_Z r - (1 # 2) <= x)%Q /\ (x < inject_Z r + (1 # 2))%Q.

(** What four roundings to a double can add to a value of at most 100:
    2^-43. *)
Definition rounding_slack : Q := 1 # 8796093022208.

(** [r] is the integer nearest to [x], or one of the two nearest integers
    when [x] is within [rounding_slack] of the middle between them. *)
Definition nearest_integer_up_to_rounding (r : Z) (x : Q) : Prop :=
  (inject_Z r - (1 # 2) - rounding_slack <= x)%Q
  /\ (x < inject_Z r + (1 # 2) + rounding_slack)%Q.

(** [x] is farther than [rounding_slack] from the middle between two
    integers. *)
Definition clear_of_tie (x : Q) : Prop :=
  (x < inject_Z (Qfloor x) + (1 # 2) - rounding_slack)%Q
  \/ (inject_Z (Qfloor x) + (1 # 2) + rounding_slack <= x)%Q.

(** The share of the work done when entry [i] of [N] is at [percent]. *)
Definition share_done (i : nat) (percent : Q) (N : nat) : Q :=
  (100 * (inject_Z (Z.of_nat i) + percent / 100) / inject_Z (Z.of_nat N))%Q.

(** The playlist paths of the ladder entries whose promise has resolved. *)
Fixpoint resolved_paths `{Deps} (dir : string) (ps : list Promise) (vs : list Variant)
  : list string :=
  match ps, vs with
  | p :: ps', v :: vs' =>
      (if is_resolved p then [playlistPath dir v] else [])
      ++ resolved_paths dir ps' vs'
  | _, _ => []
  end.

(** What holds of a call of [convertToHLS] at every moment.  [files0] is the
    file system the call started with, [dir] its output directory and
    [jobId] the key under which the job was registered. *)
Definition phase_invariant `{Deps} (files0 : gmap string string) (dir : string)
    (s : State) (j : Job.t) : Prop :=
  let c := call s in
  let text := master_playlist_text ladder in
  match phase c with
  | AwaitingVariants =>
      Job.status j = processing /\ Job.outputPaths j = []
      /\ (forall k e, promises c !! k <> Some (Rejected e))
      /\ files (service s) = files0
      /\ outputPaths c ≡ₚ resolved_paths dir (promises c) ladder
  | WritingMaster =>
      Job.status j = processing /\ Job.outputPaths j = []
      /\ forallb is_resolved (promises c) = true
      /\ files (service s) = files0
      /\ outputPaths c ≡ₚ resolved_paths dir (promises c) ladder
  | MakingThumbnail =>
      Job.status j = processing /\ Job.outputPaths j = []
      /\ forallb is_resolved (promises c) = true
      /\ files (service s) = <[masterPlaylistPath dir := text]> files0
      /\ exists ps, outputPaths c = ps ++ [masterPlaylistPath dir]
                    /\ ps ≡ₚ resolved_paths dir (promises c) ladder
  | Returned paths =>
      Job.status j = completed /\ Job.progress j = 100
      /\ Job.outputPaths j = paths
      /\ forallb is_resolved (promises c) = true
      /\ files (service s) = <[masterPlaylistPath dir := text]> files0
      /\ exists ps t, paths = ps ++ [masterPlaylistPath dir] ++ t
                      /\ ps ≡ₚ resolved_paths dir (promises c) ladder
                      /\ (t = [] \/ t = [thumbnailPath dir])
  | Threw e =>
      Job.status j = failed /\ Job.outputPaths j = []
      /\ Job.error j = Some (error_message e)
      /\ files (service s) = files0
      /\ ((exists k, promises c !! k = Some (Rejected e))
          \/ forallb is_resolved (promises c) = true)
  end.

Definition invariant `{Deps} (files0 : gmap string string) (dir jobId : string)
    (s : State) : Prop :=
  exists j,
    the_job s = Some j
    /\ outputDir (call s) = dir
    /\ length (promises (call s)) = length ladder
    /\ (forall r, processingJobs (service s) !! jobId = Some r -> r = job (call s))
    /\ phase_invariant files0 dir s j.

(** Everything but the recorded paths: the state with the local array, the
    array of every job and the returned array emptied. *)
Definition forget_job_paths (j : Job.t) : Job.t :=
  Job.mk (Job.id j) (Job.videoId j) (Job.status j) (Job.progress j)
         (Job.startedAt j) (Job.completedAt j) (Job.error j) [].

Definition forget_phase_paths (ph : Phase) : Phase :=
  match ph with
  | Returned _ => Returned []
  | other => other
  end.

Definition forget_paths (s : State) : State :=
  let w := service s in
  let c := call s in
  mkState
    (mkService (forget_job_paths <$> heap w) (processingJobs w) (files w)
               (dirs w) (now w))
    (mkCall (job c) (inputPath c) (outputDir c) [] (promises c)
            (forget_phase_paths (phase c))).

(** Status, progress and completion time of the job of a call. *)
Definition outcome (s : State) : option (JobStatus * Z * option Z) :=
  match the_job s with
  | Some j => Some (Job.status j, Job.progress j, Job.completedAt j)
  | None => None
  end.

(** ** Sample data for the worked examples *)

Definition hour : Z := 60 * 60 * 1000.

(** A registry with a job completed 25 hours ago, one completed 23 hours ago
    and one still running, at time [100 * hour]. *)
Definition three_jobs : Service :=
  mkService
    [ Job.mk "a" "va" completed 100 (Some 0) (Some (75 * hour)) None ["hls/va/master.m3u8"];
      Job.mk "b" "vb" failed 40 (Some 0) (Some (77 * hour)) (Some "boom") [];
      Job.mk "c" "vc" processing 10 (Some 0) None None [] ]
    (<["a" := 0%nat]> (<["b" := 1%nat]> (<["c" := 2%nat]> ∅)))
    ∅ ∅ (100 * hour).

Definition demo_start : State :=
  @convertToHLS configured (fresh_service 1000) "in.mp4" "hls/v1" "v1" "job-1".

Definition scenario_start : State :=
  @convertToHLS scenario (fresh_service 1000) "in.mp4" "hls/v1" "v1" "job-1".

(** A run of the scenario in which both encodes and the thumbnail succeed. *)
Definition scenario_trace : list Event :=
  [MkdirDone 0; MkdirDone 1; FfmpegProgress 1 (Some (40 # 1)%Q); FfmpegEnd 1;
   FfmpegProgress 0 (Some (100 # 1)%Q); FfmpegEnd 0; WriteFileDone; Tick 7;
   ThumbnailEnd].

(** A run of the scenario in which the second encode fails after the first
    one has finished. *)
Definition failing_trace : list Event :=
  [MkdirDone 0; MkdirDone 1; FfmpegEnd 0; FfmpegProgress 1 (Some (50 # 1)%Q);
   Tick 5; FfmpegError 1 (ErrorObject "ffmpeg exited with code 1")].

(** The scenario up to the thumbnail step. *)
Definition before_thumbnail : State :=
  @run scenario scenario_start
    [MkdirDone 0; MkdirDone 1; FfmpegEnd 1; FfmpegEnd 0; WriteFileDone; Tick 7].

(** The double written 7.499999999999999, the largest one below 7.5. *)
Definition below_seven_and_a_half : Q := 8444249301319679 # 1125899906842624.

(** An ffprobe report with a video stream of which only the width is known. *)
Definition sparse_report : FfprobeData :=
  mkData [mkStream (Some "video") None (Some 640) None None]
         (mkFormat None None None).


Definition sample_file : UploadedFile := mkFile "clip.mp4" "uploads/tmp-1" 2048.

(** ** Notions for the life of a job *)

(** The encoder reports a percentage between 0 and 100. *)
Definition percent_in_range (ev : Event) : Prop :=
  match ev with
  | FfmpegProgress _ (Some q) => (0 <= q)%Q /\ (q <= 100)%Q
  | _ => True
  end.

(** The clock does not go back. *)
Definition clock_forward (ev : Event) : Prop :=
  match ev with
  | Tick ms => 0 <= ms
  | _ => True
  end.

(** The body of [convertToHLS] has returned or thrown. *)
Definition settled (ph : Phase) : bool :=
  match ph with
  | Returned _ | Threw _ => true
  | _ => false
  end.

(** What a call keeps of the job it created and of the rest of the service:
    [w] is the service the call started from. *)
Definition lifecycle_invariant (w : Service) (video jobId : string) (s : State)
  : Prop :=
  exists j,
    the_job s = Some j
    /\ Job.id j = jobId /\ Job.videoId j = video
    /\ Job.startedAt j = Some (now w)
    /\ (Job.status j = processing ->
        Job.completedAt j = None /\ Job.error j = None
        /\ processingJobs (service s) !! jobId = Some (job (call s)))
    /\ (Job.status j <> processing -> is_Some (Job.completedAt j))
    /\ job (call s) = length (heap w)
    /\ (forall r, (r < length (heap w))%nat -> heap (service s) !! r = heap w !! r)
    /\ (forall k r, k <> jobId ->
          processingJobs (service s) !! k = Some r ->
          processingJobs w !! k = Some r).

(** The clock and the times of the job, when the clock does not go back. *)
Definition timeline_invariant (w : Service) (s : State) : Prop :=
  now w <= now (service s)
  /\ forall j t, the_job s = Some j -> Job.completedAt j = Some t ->
                 now w <= t <= now (service s).

(** The progress of the job is a percentage. *)
Definition progress_invariant (s : State) : Prop :=
  forall j, the_job s = Some j -> 0 <= Job.progress j <= 100.

(** A configuration without ladder entries. *)
Definition no_ladder : Deps :=
  {| path_join := fun a b => a +:+ "/" +:+ b;
     path_extname := fun s => default EmptyString (last_dot_suffix s);
     ladder := [] |}.

(** The two lines every master playlist starts with. *)
Definition master_header : string :=
  "#EXTM3U" +:+ Js.LF +:+ "#EXT-X-VERSION:3" +:+ Js.LF.

(** Events after the scenario has completed: a late clock tick and two
    cleanups. *)
Definition late_events : list Event :=
  [Tick 3; CleanupOldJobs 24; FfmpegProgress 0 (Some (10 # 1)%Q);
   ThumbnailError OtherValue; CleanupOldJobs 0].

(** Events after the scenario has failed: the first encode, still running,
    reports progress and ends. *)
Definition events_after_failure : list Event :=
  [FfmpegProgress 0 (Some (90 # 1)%Q); FfmpegEnd 0; WriteFileDone; Tick 2].

(** The failing scenario with the first encode still running. *)
Definition early_failure_trace : list Event :=
  [MkdirDone 0; MkdirDone 1; FfmpegProgress 0 (Some (20 # 1)%Q);
   FfmpegError 1 (ErrorObject "ffmpeg exited with code 1")].

(** ** Notions for numerals and units *)

(** A character that can follow a numeral without changing what [parseInt]
    reads: not a digit, and not the [x] of a hexadecimal prefix. *)
Definition ends_numeral (rest : string) : Prop :=
  match rest with
  | EmptyString => True
  | String c _ => is_decimal_digit c = false /\ c <> "x"%char /\ c <> "X"%char
  end.

Fixpoint contains_char (c : ascii) (s : string) : bool :=
  match s with
  | EmptyString => false
  | String c' rest => Ascii.eqb c' c || contains_char c rest
  end.

(** ** controllers/video-controller.ts: lookups and processing *)

(** How [getVideoById] ends: with the record, or with an [AppError]. *)
Inductive VideoReply : Type :=
| VideoFound (data : VideoMetadata.t)
| VideoError (message : string) (statusCode : Z) (code : string).

Definition getVideoById (store : gmap string VideoMetadata.t) (id : string)
  : VideoReply :=
  match store !! id with
  | Some video => VideoFound video
  | None => VideoError "Video not found" 404 "VIDEO_NOT_FOUND"
  end.

(** The four assignments of [processVideoAsync] after [convertToHLS] has
    returned. *)
Definition mark_processed (videoId : string) (t : Z) (v : VideoMetadata.t)
  : VideoMetadata.t :=
  VideoMetadata.mk
    (VideoMetadata.id v) (VideoMetadata.filename v) (VideoMetadata.originalName v)
    (VideoMetadata.format v) (VideoMetadata.duration v) (VideoMetadata.size v)
    (VideoMetadata.width v) (VideoMetadata.height v) (VideoMetadata.bitrate v)
    (VideoMetadata.codec v) (VideoMetadata.audioCodec v)
    (VideoMetadata.frameRate v) (VideoMetadata.createdAt v)
    t (Some ("/video/" +:+ videoId +:+ "/master.m3u8"))
    (VideoMetadata.thumbnailPath v) true st_completed.

(** The [catch] branch of [processVideoAsync]. *)
Definition mark_failed (videoId : string) (store : gmap string VideoMetadata.t)
  : gmap string VideoMetadata.t :=
  match store !! videoId with
  | Some video => <[videoId := with_status st_failed video]> store
  | None => store
  end.

(** [processVideoAsync], given how [convertToHLS] settles, how the removal
    of the uploaded file ends ([None]: it succeeds) and the clock reading at
    the update.  The function never throws; its effect is on the map.  The
    record is the one object the map holds under [videoId]; the controller
    has no handler that removes or replaces a record while the conversion
    runs. *)
Definition processVideoAsync (store : gmap string VideoMetadata.t)
    (videoId : string) (conversion : Settled (list string))
    (unlink : option thrown) (t : Z) : gmap string VideoMetadata.t :=
  match store !! videoId with
  | None => store
  | Some video =>
      let processing := <[videoId := with_status st_processing video]> store in
      match conversion with
      | RejectedWith _ => mark_failed videoId processing
      | Fulfilled _ =>
          let done :=
            <[videoId := mark_processed videoId t
                           (with_status st_processing video)]> processing in
          match unlink with
          | None => done
          | Some _ => mark_failed videoId done
          end
      end
  end.

(** How the promise of [convertToHLS] has settled, if it has. *)
Definition settlement (ph : Phase) : option (Settled (list string)) :=
  match ph with
  | Returned paths => Some (Fulfilled paths)
  | Threw e => Some (RejectedWith e)
  | _ => None
  end.

(** ** controllers/video-controller.ts: [getVideos] *)

(** [Array.prototype.slice(start, end)] with integer arguments: a negative
    index counts from the end, and both are clamped to the array. *)
Definition Array_slice {A : Type} (start finish : Z) (l : list A) : list A :=
  let len := Z.of_nat (length l) in
  let k := if start <? 0 then Z.max (len + start) 0 else Z.min start len in
  let final := if finish <? 0 then Z.max (len + finish) 0 else Z.min finish len in
  take (Z.to_nat (final - k)) (drop (Z.to_nat k) l).

(** [Math.ceil(total / limit)] for a length and an integer. *)
Definition ceil_div (total limit : Z) : Js.number :=
  if limit =? 0 then (if total =? 0 then Js.NaN else Js.PosInf)
  else Js.Int (Qceiling (inject_Z total / inject_Z limit)).

Record Pagination : Type := mkPagination {
  pg_page : Z;
  pg_limit : Z;
  pg_total : Z;
  pg_totalPages : Js.number
}.

(** [getVideos]: the page of the listing and the pagination block of the
    response.  The query values are the integers [Number] makes of them;
    an absent one takes its default. *)
Definition getVideos (videos : list VideoMetadata.t) (page limit : option Z)
  : list VideoMetadata.t * Pagination :=
  let page := default 1 page in
  let limit := default 20 limit in
  let startIndex := (page - 1) * limit in
  let endIndex := startIndex + limit in
  (Array_slice startIndex endIndex videos,
   mkPagination page limit (Z.of_nat (length videos))
     (ceil_div (Z.of_nat (length videos)) limit)).

(** ** controllers/video-controller.ts: the range of [streamVideo] *)

(** [parseInt(s, 10)]: as [parseInt], without the hexadecimal prefix. *)
Definition parseInt10 (s : string) : Js.number :=
  let s1 := Js.trim_start s in
  let '(neg, s2) :=
    match s1 with
    | String "-" r => (true, r)
    | String "+" r => (false, r)
    | _ => (false, s1)
    end in
  match Js.parse_digits 10 s2 None with
  | None => Js.NaN
  | Some v => Js.number_of (if neg : bool then - v else v)
  end.

(** The [-] of two numbers. *)
Definition number_sub (a b : Js.number) : Js.number :=
  match a, b with
  | Js.NaN, _ | _, Js.NaN => Js.NaN
  | Js.PosInf, Js.PosInf | Js.NegInf, Js.NegInf => Js.NaN
  | Js.PosInf, _ | _, Js.NegInf => Js.PosInf
  | Js.NegInf, _ | _, Js.PosInf => Js.NegInf
  | Js.Int x, Js.Int y => Js.number_of (x - y)
  end.

(** Status and headers [streamVideo] computes for an existing file of size
    [fileSize]: with a [range] header, the bounds of the read stream and the
    partial-content head. *)
Record StreamHead : Type := mkHead {
  head_status : Z;
  head_start : option Js.number;
  head_end : option Js.number;
  content_range : option string;
  content_length : Js.number
}.

Definition stream_head (range : option string) (fileSize : Z) : StreamHead :=
  match range with
  | None | Some EmptyString =>
      mkHead 200 None None None (Js.Int fileSize)
  | Some r =>
      let parts := Js.split "-" (Js.replace "bytes=" EmptyString r) in
      let start := parseInt10 (Js.str_or (parts !! 0%nat) "0") in
      let finish :=
        match parts !! 1%nat with
        | None | Some EmptyString => number_sub (Js.Int fileSize) (Js.Int 1)
        | Some p => parseInt10 p
        end in
      let chunkSize := Js.add (number_sub finish start) (Js.Int 1) in
      mkHead 206 (Some start) (Some finish)
        (Some ("bytes " +:+ Js.to_string start +:+ "-" +:+ Js.to_string finish
               +:+ "/" +:+ Js.Z_to_string fileSize))
        chunkSize
  end.

(** How [streamVideo] answers for an existing file: with the head it has
    written, or with the [AppError] of its [catch]. *)
Inductive StreamReply : Type :=
| HeadWritten (h : StreamHead)
| StreamError (message : string) (statusCode : Z) (code : string).

(** [streamVideo] for an existing file.  With a range the read stream is
    created before the head is written: [createReadStream start finish]
    tells whether [fs.createReadStream] returns for these bounds ([true]) or
    throws, which ends the request in the [catch] with no head written.
    Without a range the head is written first. *)
Definition streamVideo (createReadStream : Js.number -> Js.number -> bool)
    (range : option string) (fileSize : Z) : StreamReply :=
  let h := stream_head range fileSize in
  match head_start h, head_end h with
  | Some start, Some finish =>
      if createReadStream start finish then HeadWritten h
      else StreamError "Failed to stream video" 500 "VIDEO_STREAM_ERROR"
  | _, _ => HeadWritten h
  end.

(** A file system that takes the bounds of a read stream when they are
    integers from 0 to 2^53 - 1, in order. *)
Definition ordered_bounds (start finish : Js.number) : bool :=
  match start, finish with
  | Js.Int x, Js.Int y => (0 <=? x) && (x <=? y) && (y <=? 2 ^ 53 - 1)
  | _, _ => false
  end.

(** ** controllers/video-controller.ts: [isValidUUID] *)

Definition is_hex (c : ascii) : bool :=
  let n := nat_of_ascii c in
  (Nat.leb 48 n && Nat.leb n 57) || (Nat.leb 97 n && Nat.leb n 102)
  || (Nat.leb 65 n && Nat.leb n 70).

(** One character of a class. *)
Definition expect (p : ascii -> bool) (s : string) : option string :=
  match s with
  | String c rest => if p c then Some rest else None
  | EmptyString => None
  end.

(** [n] characters of a class. *)
Fixpoint expect_n (p : ascii -> bool) (n : nat) (s : string) : option string :=
  match n with
  | O => Some s
  | S n' =>
      match expect p s with
      | Some rest => expect_n p n' rest
      | None => None
      end
  end.

Definition is_dash (c : ascii) : bool := Ascii.eqb c "-".
Definition is_version (c : ascii) : bool :=
  let n := nat_of_ascii c in Nat.leb 49 n && Nat.leb n 53.
Definition is_variant (c : ascii) : bool :=
  existsb (Ascii.eqb c) ["8"; "9"; "a"; "b"; "A"; "B"]%char.

(** The groups of the expression of [isValidUUID], in turn; case is
    ignored. *)
Definition uuid_groups : list (string -> option string) :=
  [ expect_n is_hex 8; expect is_dash; expect_n is_hex 4; expect is_dash;
    expect is_version; expect_n is_hex 3; expect is_dash;
    expect is_variant; expect_n is_hex 3; expect is_dash; expect_n is_hex 12 ].

(** Matching the groups one after the other, from the start of the string. *)
Definition match_groups (groups : list (string -> option string)) (s : string)
  : option string :=
  fold_left
    (fun (rest : option string) (group : string -> option string) =>
       match rest with
       | Some r => group r
       | None => None
       end)
    groups (Some s).

(** [uuidRegex.test(str)]: the groups match and nothing is left. *)
Definition isValidUUID (str : string) : bool :=
  match match_groups uuid_groups str with
  | Some EmptyString => true
  | _ => false
  end.

(** A metadata map with one uploaded video. *)
Definition one_video : gmap string VideoMetadata.t :=
  <["v1" := @initial_metadata configured sample_file "v1" 10 11]> ∅.

(** A listing of [n] records, told apart by their width. *)
Definition numbered_videos (n : nat) : list VideoMetadata.t :=
  map (fun k =>
         VideoMetadata.mk "v" "v.mp4" "v.mp4" "mp4" 0%Q (Js.Int 0) (Z.of_nat k) 0
           (Js.Int 0) "unknown" None (Js.Int 0) 0 0 None None false st_pending)
      (seq 0 n).


(** * Properties *)

(** ** Rounding to a double *)

Module DoubleFacts.
Import Double.
Local Open Scope Q_scope.

Lemma two_power_pos (e : Z) : 0 < 2 ^ e.
Proof. apply Qpower_0_lt. reflexivity. Qed.

Lemma two_power_succ (e : Z) : 2 ^ (e + 1) == 2 * 2 ^ e.
Proof. rewrite Qpower_plus by discriminate. rewrite Qpower_1_r. ring. Qed.

Lemma two_power_inject (n : Z) : (0 <= n)%Z -> inject_Z (2 ^ n) == 2 ^ n.
Proof. intros Hn. now rewrite Zpower_Qpower. Qed.

Lemma exponent_spec (q : Q) :
  0 < q -> 2 ^ exponent q <= q /\ q < 2 ^ (exponent q + 1).
Proof.
  intros Hq. destruct q as [a b].
  assert (Ha : (0 < a)%Z).
  { unfold Qlt in Hq. simpl in Hq. lia. }
  pose proof (Z.log2_spec a Ha) as [Ha1 Ha2].
  pose proof (Z.log2_spec (Zpos b) eq_refl) as [Hb1 Hb2].
  pose proof (Z.log2_nonneg a) as Hla. pose proof (Z.log2_nonneg (Zpos b)) as Hlb.
  set (la := Z.log2 a) in *. set (lb := Z.log2 (Zpos b)) in *.
  assert (Hqa : (a # b) * inject_Z (Zpos b) == inject_Z a).
  { unfold Qeq, Qmult, inject_Z. simpl. lia. }
  assert (HA1 : 2 ^ la <= inject_Z a).
  { rewrite <- two_power_inject by lia. rewrite <- Zle_Qle. exact Ha1. }
  assert (HA2 : inject_Z a < 2 * 2 ^ la).
  { rewrite <- two_power_succ. rewrite <- two_power_inject by lia.
    rewrite <- Zlt_Qlt. exact Ha2. }
  assert (HB1 : 2 ^ lb <= inject_Z (Zpos b)).
  { rewrite <- two_power_inject by lia. rewrite <- Zle_Qle. exact Hb1. }
  assert (HB2 : inject_Z (Zpos b) < 2 * 2 ^ lb).
  { rewrite <- two_power_succ. rewrite <- two_power_inject by lia.
    rewrite <- Zlt_Qlt. exact Hb2. }
  assert (Hsplit : 2 ^ (la - lb) * 2 ^ lb == 2 ^ la).
  { rewrite <- Qpower_plus by discriminate. now replace (la - lb + lb)%Z with la by lia. }
  pose proof (two_power_pos la) as Pla. pose proof (two_power_pos lb) as Plb.
  pose proof (two_power_pos (la - lb)) as Pd.
  unfold exponent. cbn [Qnum Qden]. fold la lb.
  destruct (Qle_bool (2 ^ (la - lb)) (a # b)) eqn:Hcmp.
  - apply Qle_bool_iff in Hcmp. split; [exact Hcmp|].
    rewrite two_power_succ.
    set (q := a # b) in *. set (B := inject_Z (Zpos b)) in *.
    set (A := inject_Z a) in *. set (X := 2 ^ lb) in *. set (Y := 2 ^ la) in *.
    set (D := 2 ^ (la - lb)) in *. nra.
  - assert (Hlt : (a # b) < 2 ^ (la - lb)).
    { apply Qnot_le_lt. intros Hle. apply Qle_bool_iff in Hle. congruence. }
    replace (la - lb - 1 + 1)%Z with (la - lb)%Z by lia. split; [|exact Hlt].
    assert (Hhalf : 2 * 2 ^ (la - lb - 1) == 2 ^ (la - lb)).
    { rewrite <- two_power_succ. now replace (la - lb - 1 + 1)%Z with (la - lb)%Z by lia. }
    pose proof (two_power_pos (la - lb - 1)) as Ph.
    set (q := a # b) in *. set (B := inject_Z (Zpos b)) in *.
    set (A := inject_Z a) in *. set (X := 2 ^ lb) in *. set (Y := 2 ^ la) in *.
    set (D := 2 ^ (la - lb)) in *. set (Hf := 2 ^ (la - lb - 1)) in *. nra.
Qed.

Lemma round_half_even_close (y : Q) :
  inject_Z (round_half_even y) - y <= 1 # 2
  /\ y - inject_Z (round_half_even y) <= 1 # 2.
Proof.
  unfold round_half_even.
  pose proof (Qfloor_le y) as Hlo. pose proof (Qlt_floor y) as Hhi.
  rewrite inject_Z_plus in Hhi. change (inject_Z 1) with 1 in Hhi.
  set (k := Qfloor y) in *.
  destruct (Qcompare_spec (y - inject_Z k) (1 # 2)) as [Heq | Hlt | Hgt].
  - destruct (Z.even k); [|rewrite inject_Z_plus; change (inject_Z 1) with 1];
      split; lra.
  - split; lra.
  - rewrite inject_Z_plus. change (inject_Z 1) with 1. split; lra.
Qed.

Lemma round_half_even_integer (y : Q) (k : Z) :
  y == inject_Z k -> round_half_even y = k.
Proof.
  intros Hy. unfold round_half_even.
  assert (Hk : Qfloor y = k) by (rewrite Hy; apply Qfloor_Z).
  rewrite Hk.
  destruct (Qcompare_spec (y - inject_Z k) (1 # 2)) as [Heq | Hlt | Hgt].
  - lra.
  - reflexivity.
  - lra.
Qed.

Lemma round_half_even_nonneg (y : Q) : 0 <= y -> (0 <= round_half_even y)%Z.
Proof.
  intros Hy. unfold round_half_even.
  assert (Hk : (0 <= Qfloor y)%Z).
  { change 0%Z with (Qfloor 0). now apply Qfloor_resp_le. }
  destruct (Qcompare (y - inject_Z (Qfloor y)) (1 # 2)); [destruct (Z.even _)| |]; lia.
Qed.

Lemma ulp_pos (q : Q) : 0 < ulp q.
Proof. apply two_power_pos. Qed.

Lemma RN_value (q : Q) :
  ~ q == 0 -> RN q == inject_Z (round_half_even (q / ulp q)) * ulp q.
Proof.
  intros Hq. unfold RN.
  destruct (Qeq_bool q 0) eqn:E.
  - apply Qeq_bool_iff in E. contradiction.
  - apply Qred_correct.
Qed.

Lemma RN_zero (q : Q) : q == 0 -> RN q == 0.
Proof.
  intros Hq. unfold RN. apply Qeq_bool_iff in Hq. now rewrite Hq.
Qed.

(** The result of a rounding is within half a unit in the last place. *)
Lemma RN_close (q : Q) :
  ~ q == 0 -> RN q - q <= ulp q / 2 /\ q - RN q <= ulp q / 2.
Proof.
  intros Hq. rewrite (RN_value q Hq).
  pose proof (ulp_pos q) as Hu.
  pose proof (round_half_even_close (q / ulp q)) as [H1 H2].
  set (k := inject_Z (round_half_even (q / ulp q))) in *.
  assert (Hy : q / ulp q * ulp q == q) by (field; lra).
  set (y := q / ulp q) in *. set (u := ulp q) in *.
  assert (Hu2 : u / 2 == u * (1 # 2)) by (field).
  rewrite Hu2. split; nra.
Qed.

Lemma RN_nonneg (q : Q) : 0 <= q -> 0 <= RN q.
Proof.
  intros Hq. destruct (Qeq_dec q 0) as [Hz | Hnz].
  - rewrite (RN_zero q Hz). lra.
  - rewrite (RN_value q Hnz). pose proof (ulp_pos q) as Hu.
    apply Qmult_le_0_compat; [|lra].
    change 0 with (inject_Z 0). rewrite <- Zle_Qle.
    apply round_half_even_nonneg. apply Qle_shift_div_l; lra.
Qed.

Lemma Qabs_of_pos (q : Q) : 0 < q -> Qabs q == q.
Proof. intros Hq. apply Qabs_pos. lra. Qed.

Lemma exponent_abs_spec (q : Q) :
  ~ q == 0 ->
  2 ^ exponent (Qabs q) <= Qabs q /\ Qabs q < 2 ^ (exponent (Qabs q) + 1).
Proof.
  intros Hq. apply exponent_spec.
  destruct (Qlt_le_dec 0 (Qabs q)) as [Hpos | Hneg]; [exact Hpos|].
  exfalso. apply Hq. pose proof (Qabs_nonneg q) as Hnn.
  assert (Hz : Qabs q == 0) by lra.
  pose proof (Qle_Qabs q) as H1. pose proof (Qle_Qabs (- q)) as H2.
  rewrite Qabs_opp in H2. lra.
Qed.

Lemma epsilon_power : 2 ^ (-53) == epsilon.
Proof. reflexivity. Qed.

(** Half a unit in the last place is at most [q * 2^-53] among the normal
    numbers. *)
Lemma half_ulp_normal (q : Q) :
  2 ^ (-1022) <= q -> ulp q / 2 <= q * epsilon.
Proof.
  intros Hq. pose proof (two_power_pos (-1022)) as Hp.
  assert (Hq0 : 0 < q) by lra.
  pose proof (exponent_spec q Hq0) as [Hlo Hhi].
  unfold ulp.
  assert (Habs : exponent (Qabs q) = exponent q).
  { destruct q as [[|a|a] b]; try reflexivity; discriminate. }
  rewrite Habs. set (e := exponent q) in *.
  assert (He : (-1022 <= e)%Z).
  { assert (H : 2 ^ (-1022) < 2 ^ (e + 1)) by lra.
    apply Qpower_lt_compat_l_inv in H; [lia | reflexivity]. }
  rewrite Z.max_l by lia.
  assert (Hs : 2 ^ (e - 52) / 2 == 2 ^ e * epsilon).
  { rewrite <- epsilon_power.
    replace (e - 52)%Z with (e + -53 + 1)%Z by lia.
    rewrite two_power_succ. rewrite Qpower_plus by discriminate. field. }
  rewrite Hs. unfold epsilon. nra.
Qed.

Lemma half_ulp_bound (q : Q) :
  0 < q -> ulp q / 2 <= (q + 1) * epsilon.
Proof.
  intros Hq0. destruct (Qlt_le_dec q (2 ^ (-1022))) as [Hsmall | Hbig].
  - pose proof (exponent_spec q Hq0) as [Hlo Hhi].
    unfold ulp.
    assert (Habs : exponent (Qabs q) = exponent q).
    { destruct q as [[|a|a] b]; try reflexivity; discriminate. }
    rewrite Habs. set (e := exponent q) in *.
    assert (He : (e < -1022)%Z).
    { assert (H : 2 ^ e < 2 ^ (-1022)) by lra.
      apply Qpower_lt_compat_l_inv in H; [lia | reflexivity]. }
    rewrite Z.max_r by lia.
    assert (H : 2 ^ (-1074) / 2 <= epsilon) by (vm_compute; discriminate).
    unfold epsilon in *. nra.
  - pose proof (half_ulp_normal q Hbig). unfold epsilon in *. nra.
Qed.

(** The error of one rounding. *)
Lemma RN_error (q : Q) :
  0 <= q -> RN q - q <= (q + 1) * epsilon /\ q - RN q <= (q + 1) * epsilon.
Proof.
  intros Hq. destruct (Qeq_dec q 0) as [Hz | Hnz].
  - rewrite (RN_zero q Hz). unfold epsilon. split; lra.
  - pose proof (RN_close q Hnz) as [H1 H2].
    assert (Hq0 : 0 < q) by lra.
    pose proof (half_ulp_bound q Hq0). split; lra.
Qed.

Lemma RN_relative (q : Q) :
  2 ^ (-1022) <= q -> RN q - q <= q * epsilon /\ q - RN q <= q * epsilon.
Proof.
  intros Hq. pose proof (two_power_pos (-1022)) as Hp.
  assert (Hnz : ~ q == 0) by lra.
  pose proof (RN_close q Hnz) as [H1 H2].
  pose proof (half_ulp_normal q Hq). split; lra.
Qed.

(** A double is not changed by rounding. *)
Lemma RN_exact (q : Q) : representable q -> RN q == q.
Proof.
  intros (M & F & HM & HF & Hq).
  destruct (Qeq_dec q 0) as [Hz | Hnz].
  - rewrite (RN_zero q Hz). now symmetry.
  - rewrite (RN_value q Hnz).
    pose proof (exponent_abs_spec q Hnz) as [Hlo Hhi].
    unfold ulp. set (e := exponent (Qabs q)) in *.
    pose proof (two_power_pos F) as PF. pose proof (two_power_pos e) as Pe.
    assert (Habs : Qabs q == inject_Z (Z.abs M) * 2 ^ F).
    { rewrite Hq, Qabs_Qmult. rewrite (Qabs_pos (2 ^ F)) by lra.
      apply Qmult_comp; [|reflexivity]. unfold Qabs, inject_Z. simpl. reflexivity. }
    assert (HMq : inject_Z (Z.abs M) + 1 <= 2 ^ 53).
    { change 1 with (inject_Z 1). rewrite <- inject_Z_plus.
      rewrite <- two_power_inject by lia. rewrite <- Zle_Qle. lia. }
    set (E := Z.max (e - 52) (-1074)).
    assert (HE : (E <= F)%Z).
    { subst E. apply Z.max_lub; [|lia].
      destruct (Z_le_gt_dec (e - 52) F) as [Hle | Hgt]; [exact Hle | exfalso].
      assert (Hpow : 2 ^ 53 * 2 ^ F <= 2 ^ e).
      { rewrite <- Qpower_plus by discriminate.
        apply Qpower_le_compat_l; [lia | discriminate]. }
      set (m := inject_Z (Z.abs M)) in *. set (X := 2 ^ F) in *.
      set (Y := 2 ^ e) in *. set (A := Qabs q) in *. set (P := 2 ^ 53) in *. nra. }
    pose proof (two_power_pos E) as PE.
    assert (Hy : q / 2 ^ E == inject_Z (M * 2 ^ (F - E))).
    { rewrite inject_Z_mult, two_power_inject by lia.
      rewrite Hq. replace F with (F - E + E)%Z at 1 by lia.
      rewrite Qpower_plus by discriminate. field. lra. }
    rewrite (round_half_even_integer _ _ Hy). rewrite <- Hy. field. lra.
Qed.

Lemma representable_integer (v : Z) :
  (Z.abs v <= 2 ^ 53)%Z -> representable (inject_Z v).
Proof.
  intros Hv. destruct (Z.eq_dec (Z.abs v) (2 ^ 53)%Z) as [Heq | Hne].
  - assert (Hhalf : (v = 2 * (v / 2))%Z).
    { change (2 ^ 53)%Z with 9007199254740992%Z in Heq.
      apply Z_div_exact_2; [lia|]. destruct (Z.abs_eq_or_opp v) as [Hv' | Hv'].
      - rewrite <- Hv', Heq. reflexivity.
      - replace v with (- Z.abs v)%Z by lia. rewrite Heq. reflexivity. }
    exists (v / 2)%Z, 1%Z. split; [|split; [lia|]].
    + change (2 ^ 53)%Z with 9007199254740992%Z in *. lia.
    + rewrite Qpower_1_r. change 2 with (inject_Z 2). rewrite <- inject_Z_mult.
      rewrite inject_Z_injective. lia.
  - exists v, 0%Z. split; [lia | split; [lia|]]. rewrite Qpower_0_r. ring.
Qed.

Lemma RN_integer (v : Z) :
  (Z.abs v <= 2 ^ 53)%Z -> RN (inject_Z v) == inject_Z v.
Proof. intros Hv. apply RN_exact. now apply representable_integer. Qed.

End DoubleFacts.

(** The number of an integer up to 2^53 in magnitude is that integer. *)
Lemma number_of_exact (v : Z) : Z.abs v <= 2 ^ 53 -> Js.number_of v = Js.Int v.
Proof.
  intros Hv. unfold Js.number_of.
  pose proof (DoubleFacts.RN_integer v Hv) as Hr.
  destruct (Qle_bool (2 ^ 1024) (Qabs (Double.RN (inject_Z v)))) eqn:Hbig.
  - exfalso. apply Qle_bool_iff in Hbig. rewrite Hr in Hbig.
    assert (Habs : (Qabs (inject_Z v) <= inject_Z (2 ^ 53)%Z)%Q).
    { unfold Qabs, inject_Z, Qle. simpl. lia. }
    assert (Hlt : (inject_Z (2 ^ 53)%Z < 2 ^ 1024)%Q) by reflexivity.
    lra.
  - f_equal. rewrite Hr. apply Qfloor_Z.
Qed.

(** ** The master playlist and the bandwidth arithmetic *)

Lemma fold_push_blocks (f : Variant -> list string) (l : list Variant) (acc : list string) :
  fold_left (fun content v => content ++ f v) l acc = acc ++ flat_map f l.
Proof.
  revert acc. induction l as [|v l IH]; intros acc; simpl.
  - now rewrite app_nil_r.
  - rewrite IH. now rewrite <- app_assoc.
Qed.

Lemma blank_line_shift (l : list Variant) :
  EmptyString :: flat_map (fun v => [stream_inf_line v; playlist_line v; EmptyString]) l
  = flat_map template_block l ++ [EmptyString].
Proof.
  induction l as [|v l IH]; simpl; [reflexivity|].
  do 3 f_equal. exact IH.
Qed.

Lemma masterContent_template (l : list Variant) : masterContent l = template_lines l.
Proof.
  unfold masterContent, template_lines.
  rewrite (fold_push_blocks (fun v => [stream_inf_line v; playlist_line v; EmptyString])).
  simpl. do 2 f_equal. apply blank_line_shift.
Qed.

Lemma decimal_digit_view (c : ascii) :
  is_decimal_digit c = true ->
  In c ["0"; "1"; "2"; "3"; "4"; "5"; "6"; "7"; "8"; "9"]%char.
Proof.
  destruct c as [[] [] [] [] [] [] [] []]; vm_compute; intros Hc;
    try discriminate Hc; tauto.
Qed.

Lemma digit_value_decimal (c : ascii) :
  is_decimal_digit c = true ->
  Js.digit_value c = Some (Z.of_nat (nat_of_ascii c) - 48)
  /\ 0 <= Z.of_nat (nat_of_ascii c) - 48 < 10.
Proof.
  intros Hc. apply decimal_digit_view in Hc. simpl in Hc.
  repeat (destruct Hc as [<- | Hc]; [vm_compute; intuition congruence |]).
  contradiction.
Qed.

Lemma parse_decimal_prefix (ds rest : string) (acc : option Z) :
  all_decimal ds = true ->
  Js.parse_digits 10 (ds +:+ rest) acc
  = Js.parse_digits 10 rest
      (match ds with
       | EmptyString => acc
       | String _ _ =>
           Some (default 0 acc * 10 ^ Z.of_nat (String.length ds) + numeral_value ds)
       end).
Proof.
  revert acc. induction ds as [|c ds IH]; intros acc Hds; [reflexivity|].
  simpl in Hds. apply andb_prop in Hds as [Hc Hds].
  destruct (digit_value_decimal c Hc) as [Hv Hrange].
  change (String c ds +:+ rest) with (String c (ds +:+ rest)).
  cbn [Js.parse_digits]. rewrite Hv.
  replace (Z.of_nat (nat_of_ascii c) - 48 <? 10) with true
    by (symmetry; apply Z.ltb_lt; lia).
  rewrite (IH _ Hds). f_equal.
  destruct ds as [|c' ds'].
  - cbn [default String.length numeral_value]. f_equal. 
    change (Z.of_nat 1) with 1. change (Z.of_nat 0) with 0. lia.
  - f_equal. cbn [default].
    change (numeral_value (String c (String c' ds')))
      with ((Z.of_nat (nat_of_ascii c) - 48)
              * 10 ^ Z.of_nat (String.length (String c' ds'))
            + numeral_value (String c' ds')).
    change (String.length (String c (String c' ds')))
      with (S (String.length (String c' ds'))).
    generalize (numeral_value (String c' ds')) (String.length (String c' ds')).
    intros v n. unfold id.
    rewrite Nat2Z.inj_succ, Z.pow_succ_r by lia. ring.
Qed.

Lemma replace_k_after_digits (ds : string) :
  all_decimal ds = true -> Js.replace "k" "000" (ds +:+ "k") = ds +:+ "000".
Proof.
  induction ds as [|c ds IH]; intros Hds; [reflexivity|].
  simpl in Hds. apply andb_prop in Hds as [Hc Hds].
  change (String c ds +:+ "k") with (String c (ds +:+ "k")).
  change (String c ds +:+ "000") with (String c (ds +:+ "000")).
  rewrite <- (IH Hds).
  apply decimal_digit_view in Hc. simpl in Hc.
  repeat (destruct Hc as [<- | Hc]; [reflexivity |]).
  contradiction.
Qed.

Lemma parse_three_zeros (a : Z) :
  Js.parse_digits 10 "000" (Some a) = Some (a * 1000).
Proof.
  cbn [Js.parse_digits].
  change (Js.digit_value "0") with (Some 0). cbn [default].
  change (0 <? 10) with true. unfold id. cbv iota. f_equal. lia.
Qed.

Lemma parseInt_decimal (c : ascii) (s : string) :
  is_decimal_digit c = true ->
  match s with
  | String c2 _ => is_decimal_digit c2 = true
  | EmptyString => True
  end ->
  Js.parseInt (String c s)
  = match Js.parse_digits 10 (String c s) None with
    | None => Js.NaN
    | Some v => Js.number_of v
    end.
Proof.
  intros Hc Hs. apply decimal_digit_view in Hc. simpl in Hc.
  destruct Hc as [<- | Hc].
  - destruct s as [|c2 s2]; [reflexivity|].
    apply decimal_digit_view in Hs. simpl in Hs.
    repeat (destruct Hs as [<- | Hs]; [reflexivity |]).
    contradiction.
  - repeat (destruct Hc as [<- | Hc]; [reflexivity |]).
    contradiction.
Qed.

Lemma parseInt_thousands (ds : string) :
  is_numeral ds = true -> Js.parseInt (ds +:+ "000") = Js.number_of (kilo_bps ds).
Proof.
  destruct ds as [|c ds]; [discriminate|]. intros Hds.
  assert (Hparse : Js.parse_digits 10 (String c ds +:+ "000") None
                   = Some (kilo_bps (String c ds))).
  { rewrite (parse_decimal_prefix _ _ _ Hds), parse_three_zeros.
    unfold kilo_bps; cbn [default]; unfold id; f_equal; lia. }
  change (String c ds +:+ "000") with (String c (ds +:+ "000")) in *.
  simpl in Hds. apply andb_prop in Hds as [Hc Hds].
  rewrite parseInt_decimal, Hparse; [reflexivity | exact Hc |].
  destruct ds as [|c2 ds2]; [reflexivity|].
  simpl in Hds. apply andb_prop in Hds as [Hc2 _]. exact Hc2.
Qed.

Lemma numeral_value_nonneg (ds : string) :
  all_decimal ds = true -> 0 <= numeral_value ds.
Proof.
  induction ds as [|c ds IH]; intros Hds; [reflexivity|].
  simpl in Hds. apply andb_prop in Hds as [Hc Hds].
  destruct (digit_value_decimal c Hc) as [_ Hrange].
  cbn [numeral_value]. specialize (IH Hds).
  assert (0 <= 10 ^ Z.of_nat (String.length ds)) by (apply Z.pow_nonneg; lia).
  nia.
Qed.

Lemma bandwidth_of_kilo (v : Variant) (video audio : string) :
  is_numeral video = true -> is_numeral audio = true ->
  videoBitrate v = video +:+ "k" -> audioBitrate v = audio +:+ "k" ->
  kilo_bps video + kilo_bps audio <= 2 ^ 53 ->
  bandwidth v = Js.Int (kilo_bps video + kilo_bps audio).
Proof.
  intros Hv Ha Ev Ea Hsum. unfold bandwidth. rewrite Ev, Ea.
  assert (Dv : all_decimal video = true) by (destruct video; [discriminate | exact Hv]).
  assert (Da : all_decimal audio = true) by (destruct audio; [discriminate | exact Ha]).
  rewrite !replace_k_after_digits, !parseInt_thousands by assumption.
  pose proof (numeral_value_nonneg video Dv) as Pv.
  pose proof (numeral_value_nonneg audio Da) as Pa.
  unfold kilo_bps in *.
  rewrite !number_of_exact by lia. cbn [Js.add].
  now rewrite number_of_exact by lia.
Qed.


(** ** The registry and its cleanup *)

Lemma fold_delete_lookup (P : nat -> bool) (l : list (string * nat))
    (m : gmap string nat) (k : string) (r : nat) :
  fold_left (fun (m : gmap string nat) (entry : string * nat) =>
               if P entry.2 then delete entry.1 m else m) l m !! k = Some r
  <-> m !! k = Some r /\ forall r', (k, r') ∈ l -> P r' = false.
Proof.
  revert m. induction l as [|[k' r'] l IH]; intros m; simpl.
  - split; [intros Hm; split; [exact Hm | intros r' Hin; inversion Hin] | tauto].
  - rewrite IH. destruct (P r') eqn:HP.
    + destruct (decide (k' = k)) as [-> | Hne].
      * rewrite lookup_delete_eq. split; [intros [Hm _]; discriminate|].
        intros [_ Hall]. specialize (Hall r' ltac:(left)). congruence.
      * rewrite lookup_delete_ne by exact Hne. split.
        -- intros [Hm Hall]. split; [exact Hm|]. intros r0 Hin.
           apply elem_of_cons in Hin as [Heq | Hin]; [congruence | auto].
        -- intros [Hm Hall]. split; [exact Hm|]. intros r0 Hin.
           apply Hall. now right.
    + split.
      * intros [Hm Hall]. split; [exact Hm|]. intros r0 Hin.
        apply elem_of_cons in Hin as [Heq | Hin]; [congruence | auto].
      * intros [Hm Hall]. split; [exact Hm|]. intros r0 Hin.
        apply Hall. now right.
Qed.

Lemma cleanup_registry_lookup (h : Z) (w : Service) (k : string) (r : nat) :
  processingJobs (cleanupOldJobs h w) !! k = Some r
  <-> processingJobs w !! k = Some r /\ ref_is_old w (cutoff w h) r = false.
Proof.
  unfold cleanupOldJobs. cbn [processingJobs].
  rewrite (fold_delete_lookup (ref_is_old w (cutoff w h))). split.
  - intros [Hm Hall]. split; [exact Hm|]. apply Hall.
    now apply elem_of_map_to_list.
  - intros [Hm Hold]. split; [exact Hm|]. intros r' Hin.
    apply elem_of_map_to_list in Hin. congruence.
Qed.

Lemma cleanup_lookup (h : Z) (w : Service) (jobId : string) (j : Job.t) :
  getProcessingJob (cleanupOldJobs h w) jobId = Some j
  <-> getProcessingJob w jobId = Some j /\ is_old (cutoff w h) j = false.
Proof.
  unfold getProcessingJob. split.
  - destruct (processingJobs (cleanupOldJobs h w) !! jobId) as [r|] eqn:Hr;
      [|discriminate].
    apply cleanup_registry_lookup in Hr as [Hr Hold]. rewrite Hr.
    unfold deref, ref_is_old in *. cbn [heap cleanupOldJobs].
    intros Hj. unfold deref in Hold. rewrite Hj in Hold. tauto.
  - destruct (processingJobs w !! jobId) as [r|] eqn:Hr; [|intros [? _]; discriminate].
    intros [Hj Hold].
    assert (Hr' : processingJobs (cleanupOldJobs h w) !! jobId = Some r).
    { apply cleanup_registry_lookup. split; [exact Hr|].
      unfold ref_is_old. now rewrite Hj. }
    rewrite Hr'. exact Hj.
Qed.

Lemma listing_elem (w : Service) (j : Job.t) :
  j ∈ getAllProcessingJobs w
  <-> exists jobId, getProcessingJob w jobId = Some j.
Proof.
  unfold getAllProcessingJobs, getProcessingJob. rewrite list_elem_of_omap. split.
  - intros [[k r] [Hin Hj]]. apply elem_of_map_to_list in Hin.
    exists k. rewrite Hin. exact Hj.
  - intros [k Hk]. destruct (processingJobs w !! k) as [r|] eqn:Hr; [|discriminate].
    exists (k, r). split; [now apply elem_of_map_to_list | exact Hk].
Qed.


(** ** Promises, paths and the start of a call *)

Section CallFacts.
Context `{Deps}.

Lemma all_resolved_lookup (ps : list Promise) (i : nat) (p : Promise) :
  forallb is_resolved ps = true -> ps !! i = Some p -> p = Resolved.
Proof.
  revert i. induction ps as [|q ps IH]; intros i Hall Hi; [discriminate|].
  simpl in Hall. apply andb_prop in Hall as [Hq Hall].
  destruct i as [|i]; simpl in Hi.
  - injection Hi as <-. now destruct q.
  - eauto.
Qed.

Lemma resolved_paths_keep (dir : string) (ps : list Promise) (vs : list Variant)
    (i : nat) (p q : Promise) :
  ps !! i = Some p -> is_resolved p = is_resolved q ->
  resolved_paths dir (<[i := q]> ps) vs = resolved_paths dir ps vs.
Proof.
  revert vs i. induction ps as [|p0 ps IH]; intros vs i Hi Hpq; [discriminate|].
  destruct vs as [|v vs]; [now destruct i|].
  destruct i as [|i]; simpl in *.
  - injection Hi as ->. now rewrite Hpq.
  - f_equal. eauto.
Qed.

Lemma resolved_paths_resolve (dir : string) (ps : list Promise) (vs : list Variant)
    (i : nat) (p : Promise) (v : Variant) :
  ps !! i = Some p -> is_resolved p = false -> vs !! i = Some v ->
  resolved_paths dir (<[i := Resolved]> ps) vs
  ≡ₚ resolved_paths dir ps vs ++ [playlistPath dir v].
Proof.
  revert vs i. induction ps as [|p0 ps IH]; intros vs i Hi Hp Hv; [discriminate|].
  destruct vs as [|v0 vs]; [discriminate|].
  destruct i as [|i]; simpl in *.
  - injection Hi as ->. injection Hv as ->. rewrite Hp. simpl.
    apply Permutation_cons_append.
  - rewrite <- app_assoc. apply Permutation_app_head. eauto.
Qed.

Lemma resolved_paths_all (dir : string) (ps : list Promise) (vs : list Variant) :
  forallb is_resolved ps = true -> length ps = length vs ->
  resolved_paths dir ps vs = map (playlistPath dir) vs.
Proof.
  revert vs. induction ps as [|p ps IH]; intros [|v vs] Hall Hlen;
    try discriminate; [reflexivity|].
  simpl in *. apply andb_prop in Hall as [-> Hall]. simpl. f_equal.
  apply IH; [exact Hall | lia].
Qed.

Lemma resolved_paths_none (dir : string) (vs : list Variant) :
  resolved_paths dir (map (fun _ => MakingDir) vs) vs = [].
Proof. induction vs as [|v vs IH]; simpl; [reflexivity | exact IH]. Qed.

Lemma started_promises_lookup (vs : list Variant) (k : nat) (p : Promise) :
  map (fun _ : Variant => MakingDir) vs !! k = Some p -> p = MakingDir.
Proof.
  intros Hk. apply list_elem_of_lookup_2, list_elem_of_In, in_map_iff in Hk.
  now destruct Hk as (_ & <- & _).
Qed.

Lemma the_job_update (f : Job.t -> Job.t) (s : State) :
  the_job (update_job f s) = f <$> the_job s.
Proof. unfold the_job, update_job, deref. simpl. apply list_lookup_alter_eq. Qed.

Lemma start_invariant (w : Service) (input dir video jobId : string) :
  invariant (files w) dir jobId (convertToHLS w input dir video jobId).
Proof.
  exists (Job.mk jobId video processing 0 (Some (now w)) None None []).
  unfold convertToHLS, on_resolve. cbn [call phase promises].
  assert (Hjob : (heap w ++ [Job.mk jobId video processing 0 (Some (now w)) None None []])
                   !! length (heap w)
                 = Some (Job.mk jobId video processing 0 (Some (now w)) None None [])).
  { now apply list_lookup_middle. }
  destruct (forallb is_resolved (map (fun _ => MakingDir) ladder)) eqn:Hall;
    unfold invariant, phase_invariant, the_job, deref;
    cbn [call service set_phase phase promises outputPaths outputDir job heap
         processingJobs files];
    (split; [exact Hjob|]); (split; [reflexivity|]);
    (split; [apply length_map|]);
    (split; [intros r; rewrite lookup_insert_eq; congruence|]);
    rewrite resolved_paths_none; repeat split; auto.
  intros k e Hk. apply started_promises_lookup in Hk. discriminate.
Qed.

End CallFacts.


(** Tactics for the case analyses over events and phases. *)
Ltac open_state s :=
  destruct s as [[hp reg fl ds nw] [jr ip od lp ps ph]].

Ltac unfold_ops :=
  unfold invariant, phase_invariant, forget_paths, the_job, deref, on_reject,
    on_resolve, catch_block, finish, set_phase, set_promise, push_path,
    add_dir, write_file, update_job in *;
  cbn [service call heap processingJobs files dirs now job inputPath
       outputDir outputPaths promises phase forget_phase_paths] in *.

Ltac easy_conj :=
  repeat match goal with
         | |- _ /\ _ => split; [first [assumption | reflexivity]|]
         end.

Ltac not_all_resolved :=
  match goal with
  | Hall : forallb is_resolved ?ps = true, Hi : ?ps !! _ = Some ?p |- _ =>
      let E := fresh in
      pose proof (all_resolved_lookup ps _ p Hall Hi) as E; discriminate E
  end.


(** ** The invariant of a call is kept by every event *)

Section Invariant.
Context `{Deps}.

Lemma insert_keeps_no_rejected (ps : list Promise) (i : nat) (q : Promise) :
  (forall e, q <> Rejected e) ->
  (forall k e, ps !! k <> Some (Rejected e)) ->
  forall k e, <[i := q]> ps !! k <> Some (Rejected e).
Proof.
  intros Hq Hps k e Hk. destruct (decide (i = k)) as [-> | Hne].
  - destruct (decide (k < length ps)%nat) as [Hlt | Hge].
    + rewrite list_lookup_insert_eq in Hk by exact Hlt. injection Hk as ->.
      now apply (Hq e).
    + rewrite list_insert_ge in Hk by lia. now apply (Hps k e).
  - rewrite list_lookup_insert_ne in Hk by exact Hne. now apply (Hps k e).
Qed.

Lemma insert_keeps_rejected (ps : list Promise) (i : nat) (p q : Promise) (e : thrown) :
  ps !! i = Some p -> (forall e', p <> Rejected e') ->
  (exists k, ps !! k = Some (Rejected e)) ->
  exists k, <[i := q]> ps !! k = Some (Rejected e).
Proof.
  intros Hi Hp [k Hk]. exists k. rewrite list_lookup_insert_ne; [exact Hk|].
  intros ->. rewrite Hi in Hk. injection Hk as ->. now apply (Hp e).
Qed.

Lemma step_invariant (files0 : gmap string string) (dir jobId : string)
    (s : State) (ev : Event) :
  invariant files0 dir jobId s -> invariant files0 dir jobId (step s ev).
Proof.
  open_state s. intros (j & Hj & Hdir & Hlen & Hreg & Hph).
  unfold_ops. subst od.
  destruct ev as [i | i e | i pct | i | i e | | e | | e | ms | h];
    cbn [step call promises phase outputDir service].
  - (* MkdirDone *)
    destruct (ps !! i) as [[| | |]|] eqn:Hi; try (exists j; tauto).
    destruct (ladder !! i) as [v|] eqn:Hv; try (exists j; tauto).
    unfold_ops. exists j. rewrite length_insert.
    easy_conj.
    rewrite (resolved_paths_keep dir ps ladder i MakingDir Encoding Hi eq_refl).
    destruct ph; try (destruct Hph as (? & ? & ? & ? & ?); not_all_resolved).
    + destruct Hph as (? & ? & Hno & ? & ?). easy_conj.
      split; [|tauto]. apply insert_keeps_no_rejected; [discriminate | exact Hno].
    + destruct Hph as (? & ? & ? & ? & [Hk | Hall]); [|not_all_resolved].
      easy_conj. left.
      eapply insert_keeps_rejected; [exact Hi | discriminate | exact Hk].
  - (* MkdirFailed *)
    destruct (ps !! i) as [[| | |]|] eqn:Hi; try (exists j; tauto).
    pose proof (lookup_lt_Some _ _ _ Hi) as Hlt.
    destruct ph; unfold_ops;
      try (destruct Hph as (? & ? & ? & ? & ?); not_all_resolved).
    + destruct Hph as (? & ? & Hno & ? & ?).
      exists (Job.fail (error_message e) nw j).
      rewrite list_lookup_alter_eq, Hj, length_insert. easy_conj.
      left. exists i. now apply list_lookup_insert_eq.
    + destruct Hph as (? & ? & ? & ? & [Hk | Hall]); [|not_all_resolved].
      exists j. rewrite length_insert. easy_conj. left.
      eapply insert_keeps_rejected; [exact Hi | discriminate | exact Hk].
  - (* FfmpegProgress *)
    destruct (ps !! i) as [[| | |]|] eqn:Hi; try (exists j; tauto).
    unfold_ops. exists (Job.set_progress (overallProgress i pct (length ladder)) j).
    rewrite list_lookup_alter_eq, Hj. easy_conj.
    destruct ph; try (destruct Hph as (? & ? & ? & ? & ?); not_all_resolved);
      exact Hph.
  - (* FfmpegEnd *)
    destruct (ps !! i) as [[| | |]|] eqn:Hi; try (exists j; tauto).
    destruct (ladder !! i) as [v|] eqn:Hv; try (exists j; tauto).
    pose proof (resolved_paths_resolve dir ps ladder i Encoding v Hi eq_refl Hv)
      as Hperm.
    destruct ph; unfold_ops;
      try (destruct Hph as (? & ? & ? & ? & ?); not_all_resolved).
    + destruct Hph as (? & ? & Hno & ? & Hlp).
      assert (Hlp' : lp ++ [playlistPath dir v]
                     ≡ₚ resolved_paths dir (<[i := Resolved]> ps) ladder).
      { rewrite Hperm. now apply Permutation_app_tail. }
      destruct (forallb is_resolved (<[i := Resolved]> ps)) eqn:Hall;
        unfold_ops; exists j; rewrite length_insert; easy_conj;
        [exact Hlp'|].
      split; [|tauto]. apply insert_keeps_no_rejected; [discriminate | exact Hno].
    + destruct Hph as (? & ? & ? & ? & [Hk | Hall]); [|not_all_resolved].
      exists j. rewrite length_insert. easy_conj. left.
      eapply insert_keeps_rejected; [exact Hi | discriminate | exact Hk].
  - (* FfmpegError *)
    destruct (ps !! i) as [[| | |]|] eqn:Hi; try (exists j; tauto).
    pose proof (lookup_lt_Some _ _ _ Hi) as Hlt.
    destruct ph; unfold_ops;
      try (destruct Hph as (? & ? & ? & ? & ?); not_all_resolved).
    + destruct Hph as (? & ? & Hno & ? & ?).
      exists (Job.fail (error_message e) nw j).
      rewrite list_lookup_alter_eq, Hj, length_insert. easy_conj.
      left. exists i. now apply list_lookup_insert_eq.
    + destruct Hph as (? & ? & ? & ? & [Hk | Hall]); [|not_all_resolved].
      exists j. rewrite length_insert. easy_conj. left.
      eapply insert_keeps_rejected; [exact Hi | discriminate | exact Hk].
  - (* WriteFileDone *)
    destruct ph; unfold_ops; try (exists j; tauto).
    destruct Hph as (? & ? & ? & -> & ?).
    exists j. easy_conj. exists lp. now split.
  - (* WriteFileFailed *)
    destruct ph; unfold_ops; try (exists j; tauto).
    destruct Hph as (? & ? & ? & ? & ?).
    exists (Job.fail (error_message e) nw j).
    rewrite list_lookup_alter_eq, Hj. easy_conj. now right.
  - (* ThumbnailEnd *)
    destruct ph; unfold_ops; try (exists j; tauto).
    destruct Hph as (? & ? & ? & ? & ps0 & -> & ?).
    exists (Job.complete ((ps0 ++ [masterPlaylistPath dir]) ++ [thumbnailPath dir]) nw j).
    rewrite list_lookup_alter_eq, Hj. easy_conj.
    exists ps0, [thumbnailPath dir]. rewrite <- app_assoc. auto.
  - (* ThumbnailError *)
    destruct ph; unfold_ops; try (exists j; tauto).
    destruct Hph as (? & ? & ? & ? & ps0 & -> & ?).
    exists (Job.complete (ps0 ++ [masterPlaylistPath dir]) nw j).
    rewrite list_lookup_alter_eq, Hj. easy_conj.
    exists ps0, []. auto.
  - (* Tick *)
    exists j. tauto.
  - (* CleanupOldJobs *)
    exists j. easy_conj. split; [|exact Hph].
    intros r Hr. apply cleanup_registry_lookup in Hr as [Hr _]. auto.
Qed.

Lemma run_invariant (files0 : gmap string string) (dir jobId : string)
    (evs : list Event) (s : State) :
  invariant files0 dir jobId s -> invariant files0 dir jobId (run s evs).
Proof.
  revert s. induction evs as [|ev evs IH]; intros s Hs; [exact Hs|].
  apply IH, step_invariant, Hs.
Qed.

Lemma reachable_invariant (w : Service) (input dir video jobId : string)
    (evs : list Event) :
  invariant (files w) dir jobId (run (convertToHLS w input dir video jobId) evs).
Proof. apply run_invariant, start_invariant. Qed.

End Invariant.


(** ** Events do not depend on the recorded paths *)

Section Forget.
Context `{Deps}.

Lemma forget_twice (hp : list Job.t) :
  forget_job_paths <$> hp = forget_job_paths <$> (forget_job_paths <$> hp).
Proof.
  induction hp as [|j hp IH]; [reflexivity|].
  rewrite !fmap_cons. f_equal. exact IH.
Qed.

Lemma forget_alter (f g : Job.t -> Job.t) (i : nat) (hp : list Job.t) :
  (forall j, forget_job_paths (f j) = forget_job_paths (g (forget_job_paths j))) ->
  forget_job_paths <$> alter f i hp
  = forget_job_paths <$> alter g i (forget_job_paths <$> hp).
Proof.
  intros Hfg. revert i. induction hp as [|j hp IH]; intros [|i];
    try reflexivity.
  - change (forget_job_paths (f j) :: (forget_job_paths <$> hp)
            = forget_job_paths (g (forget_job_paths j))
                :: (forget_job_paths <$> (forget_job_paths <$> hp))).
    f_equal; [apply Hfg | apply forget_twice].
  - change (forget_job_paths j :: (forget_job_paths <$> alter f i hp)
            = forget_job_paths (forget_job_paths j)
                :: (forget_job_paths <$> alter g i (forget_job_paths <$> hp))).
    f_equal. apply IH.
Qed.

Lemma forget_alter_agree (f g : Job.t -> Job.t) (i : nat) (hp : list Job.t) :
  (forall j, forget_job_paths (f j) = forget_job_paths (g j)) ->
  forget_job_paths <$> alter f i hp = forget_job_paths <$> alter g i hp.
Proof.
  intros Hfg. revert i. induction hp as [|j hp IH]; intros [|i];
    try reflexivity.
  - change (forget_job_paths (f j) :: (forget_job_paths <$> hp)
            = forget_job_paths (g j) :: (forget_job_paths <$> hp)).
    now rewrite Hfg.
  - change (forget_job_paths j :: (forget_job_paths <$> alter f i hp)
            = forget_job_paths j :: (forget_job_paths <$> alter g i hp)).
    f_equal. apply IH.
Qed.

Lemma fold_left_agree {A B : Type} (f g : A -> B -> A) (l : list B) (a : A) :
  (forall x y, f x y = g x y) -> fold_left f l a = fold_left g l a.
Proof.
  intros Hfg. revert a. induction l as [|b l IH]; intros a; simpl;
    [reflexivity | now rewrite Hfg, IH].
Qed.

Lemma cleanup_forget (h : Z) (hp : list Job.t) (reg : gmap string nat)
    (fl : gmap string string) (ds : gset string) (nw : Z) :
  processingJobs (cleanupOldJobs h (mkService (forget_job_paths <$> hp) reg fl ds nw))
  = processingJobs (cleanupOldJobs h (mkService hp reg fl ds nw)).
Proof.
  unfold cleanupOldJobs. cbn [processingJobs heap files dirs now].
  apply fold_left_agree. intros m [k r]. unfold ref_is_old, deref, cutoff.
  cbn [heap now snd fst]. rewrite list_lookup_fmap.
  now destruct (hp !! r).
Qed.

Ltac heap_eq :=
  first [ reflexivity
        | apply forget_twice
        | apply forget_alter; intros ?; reflexivity
        | match goal with
          | |- forget_phase_paths ?ph = _ => destruct ph; reflexivity
          end ].

Lemma step_forget (s : State) (ev : Event) :
  forget_paths (step s ev) = forget_paths (step (forget_paths s) ev).
Proof.
  open_state s. unfold forget_paths.
  cbn [service call heap processingJobs files dirs now job inputPath
       outputDir outputPaths promises phase].
  destruct ev as [i | i e | i pct | i | i e | | e | | e | ms | h];
    cbn [step service call heap processingJobs files dirs now job inputPath
         outputDir outputPaths promises phase].
  - destruct (ps !! i) as [[| | |]|]; try destruct (ladder !! i);
      unfold_ops; f_equal; f_equal; heap_eq.
  - destruct (ps !! i) as [[| | |]|]; destruct ph;
      unfold_ops; f_equal; f_equal; heap_eq.
  - destruct (ps !! i) as [[| | |]|]; unfold_ops; f_equal; f_equal; heap_eq.
  - destruct (ps !! i) as [[| | |]|]; try destruct (ladder !! i); destruct ph;
      unfold_ops;
      try destruct (forallb is_resolved (<[i:=Resolved]> ps));
      unfold_ops; f_equal; f_equal; heap_eq.
  - destruct (ps !! i) as [[| | |]|]; destruct ph;
      unfold_ops; f_equal; f_equal; heap_eq.
  - destruct ph; unfold_ops; f_equal; f_equal; heap_eq.
  - destruct ph; unfold_ops; f_equal; f_equal; heap_eq.
  - destruct ph; unfold_ops; f_equal; f_equal; heap_eq.
  - destruct ph; unfold_ops; f_equal; f_equal; heap_eq.
  - unfold_ops; f_equal; f_equal; heap_eq.
  - unfold_ops; f_equal; f_equal; try heap_eq.
    symmetry. apply cleanup_forget.
Qed.

Lemma run_forget (evs : list Event) (s1 s2 : State) :
  forget_paths s1 = forget_paths s2 ->
  forget_paths (run s1 evs) = forget_paths (run s2 evs).
Proof.
  revert s1 s2. induction evs as [|ev evs IH]; intros s1 s2 Heq; [exact Heq|].
  simpl. apply IH. rewrite (step_forget s1), (step_forget s2). now rewrite Heq.
Qed.

Lemma outcome_forget (s : State) : outcome (forget_paths s) = outcome s.
Proof.
  unfold outcome, the_job, deref, forget_paths.
  cbn [service call heap job]. rewrite list_lookup_fmap.
  now destruct (heap (service s) !! job (call s)).
Qed.

Lemma thumbnail_outcomes_forget (s : State) (e : thrown) :
  forget_paths (step s (ThumbnailError e)) = forget_paths (step s ThumbnailEnd).
Proof.
  open_state s. cbn [step call phase]. destruct ph; try reflexivity.
  unfold_ops. f_equal. f_equal. apply forget_alter_agree. intros j. reflexivity.
Qed.

End Forget.


(** ** Rounding *)

Lemma Math_round_nearest (x y : Q) :
  (x == y)%Q -> nearest_integer (Js.Math_round x) y.
Proof.
  intros Hxy. unfold nearest_integer, Js.Math_round.
  pose proof (Qfloor_le (x + (1 # 2))) as Hlo.
  pose proof (Qlt_floor (x + (1 # 2))) as Hhi.
  rewrite inject_Z_plus in Hhi. change (inject_Z 1) with 1%Q in Hhi.
  rewrite <- Hxy. revert Hlo Hhi.
  generalize (inject_Z (Qfloor (x + (1 # 2)))). intros f Hlo Hhi. split; lra.
Qed.

Lemma frac_or_zero_eq (q : Q) : (Js.frac_or_zero (Some q) == q)%Q.
Proof.
  unfold Js.frac_or_zero. destruct (Qeq_bool q 0) eqn:Hq; [|reflexivity].
  apply Qeq_bool_iff in Hq. now rewrite Hq.
Qed.

Lemma Math_round_bounds (x : Q) :
  (inject_Z (Js.Math_round x) - (1 # 2) <= x)%Q
  /\ (x < inject_Z (Js.Math_round x) + (1 # 2))%Q.
Proof. apply (Math_round_nearest x x). reflexivity. Qed.

Lemma quotient_error (a b c d : Q) :
  (0 < c)%Q -> (a - b <= d * c)%Q -> (a / c - b / c <= d)%Q.
Proof.
  intros Hc Hab.
  assert (E : (a / c - b / c == (a - b) / c)%Q) by (field; lra).
  rewrite E. apply Qle_shift_div_r; [exact Hc | lra].
Qed.

(** The four roundings of the progress handler move the value by at most
    [rounding_slack]. *)
Lemma progress_rounding_error (i N : nat) (p : Q) :
  (i < N)%nat -> (0 <= p)%Q -> (p <= 100)%Q ->
  let x := (100 * (inject_Z (Z.of_nat i) + p / 100) / inject_Z (Z.of_nat N))%Q in
  let d := Double.mul
             (Double.div (Double.add (inject_Z (Z.of_nat i)) (Double.div p 100))
                         (inject_Z (Z.of_nat N)))
             100 in
  (d - x <= rounding_slack)%Q /\ (x - d <= rounding_slack)%Q /\ (0 <= d)%Q.
Proof.
  intros HiN Hp0 Hp100. cbv zeta.
  unfold Double.mul, Double.div, Double.add.
  assert (HI : (0 <= inject_Z (Z.of_nat i))%Q).
  { change 0%Q with (inject_Z 0). rewrite <- Zle_Qle. lia. }
  assert (HIN : (inject_Z (Z.of_nat i) + 1 <= inject_Z (Z.of_nat N))%Q).
  { change 1%Q with (inject_Z 1). rewrite <- inject_Z_plus, <- Zle_Qle. lia. }
  set (I := inject_Z (Z.of_nat i)) in *. set (Nq := inject_Z (Z.of_nat N)) in *.
  assert (HN : (0 < Nq)%Q) by lra.
  (* first rounding *)
  set (q1 := (p / 100)%Q).
  assert (Hq1 : (0 <= q1)%Q /\ (q1 <= 1)%Q).
  { unfold q1. split; [apply Qle_shift_div_l | apply Qle_shift_div_r]; lra. }
  pose proof (DoubleFacts.RN_error q1 (proj1 Hq1)) as [E1a E1b].
  pose proof (DoubleFacts.RN_nonneg q1 (proj1 Hq1)) as P1.
  unfold Double.epsilon in E1a, E1b.
  set (a1 := Double.RN q1) in *.
  (* second rounding *)
  assert (Hq2 : (0 <= I + a1)%Q) by lra.
  pose proof (DoubleFacts.RN_error _ Hq2) as [E2a E2b].
  pose proof (DoubleFacts.RN_nonneg _ Hq2) as P2.
  unfold Double.epsilon in E2a, E2b.
  set (a2 := Double.RN (I + a1)) in *.
  (* the quotient *)
  set (y := ((I + q1) / Nq)%Q).
  assert (Hy : (0 <= y)%Q /\ (y <= 1)%Q).
  { unfold y. split; [apply Qle_shift_div_l | apply Qle_shift_div_r]; lra. }
  assert (Q3a : (a2 / Nq - y <= 5 # 9007199254740992)%Q).
  { unfold y. apply quotient_error; lra. }
  assert (Q3b : (y - a2 / Nq <= 5 # 9007199254740992)%Q).
  { unfold y. apply quotient_error; lra. }
  assert (Hq3 : (0 <= a2 / Nq)%Q) by (apply Qle_shift_div_l; lra).
  pose proof (DoubleFacts.RN_error _ Hq3) as [E3a E3b].
  pose proof (DoubleFacts.RN_nonneg _ Hq3) as P3.
  unfold Double.epsilon in E3a, E3b.
  set (q3 := (a2 / Nq)%Q) in *. set (a3 := Double.RN q3) in *.
  (* the product *)
  assert (Hq4 : (0 <= a3 * 100)%Q) by lra.
  pose proof (DoubleFacts.RN_error _ Hq4) as [E4a E4b].
  pose proof (DoubleFacts.RN_nonneg _ Hq4) as P4.
  unfold Double.epsilon in E4a, E4b.
  set (a4 := Double.RN (a3 * 100)) in *.
  assert (Hx : (100 * (I + q1) / Nq == 100 * y)%Q).
  { unfold y. field. lra. }
  rewrite Hx. unfold rounding_slack. repeat split; lra.
Qed.

Lemma overallProgress_share (i N : nat) (pct : Q) :
  (i < N)%nat -> (0 <= pct)%Q -> (pct <= 100)%Q ->
  nearest_integer_up_to_rounding (overallProgress i (Some pct) N) (share_done i pct N).
Proof.
  intros HiN H0 H100. unfold overallProgress, share_done.
  pose proof (frac_or_zero_eq pct) as Hp.
  set (p := Js.frac_or_zero (Some pct)) in *.
  assert (Hp0 : (0 <= p)%Q) by lra. assert (Hp100 : (p <= 100)%Q) by lra.
  pose proof (progress_rounding_error i N p HiN Hp0 Hp100) as (E1 & E2 & _).
  cbv zeta in E1, E2.
  match goal with
  | |- nearest_integer_up_to_rounding (Js.Math_round ?d) _ =>
      pose proof (Math_round_bounds d) as [R1 R2]; set (dd := d) in *
  end.
  assert (Hx : (100 * (inject_Z (Z.of_nat i) + pct / 100) / inject_Z (Z.of_nat N)
                == 100 * (inject_Z (Z.of_nat i) + p / 100) / inject_Z (Z.of_nat N))%Q).
  { now rewrite Hp. }
  unfold nearest_integer_up_to_rounding. rewrite Hx.
  set (x := (100 * (inject_Z (Z.of_nat i) + p / 100) / inject_Z (Z.of_nat N))%Q) in *.
  set (r := inject_Z (Js.Math_round dd)) in *. split; lra.
Qed.

Lemma clear_of_tie_nearest (r : Z) (x : Q) :
  nearest_integer_up_to_rounding r x -> clear_of_tie x -> nearest_integer r x.
Proof.
  unfold nearest_integer_up_to_rounding, clear_of_tie, nearest_integer, rounding_slack.
  intros [H1 H2] Hclear.
  pose proof (Qfloor_le x) as Hlo. pose proof (Qlt_floor x) as Hhi.
  rewrite inject_Z_plus in Hhi. change (inject_Z 1) with 1%Q in Hhi.
  set (m := Qfloor x) in *.
  assert (Hr : r = m \/ r = m + 1).
  { assert (Hlt : (inject_Z r < inject_Z (m + 2))%Q).
    { rewrite inject_Z_plus. change (inject_Z 2) with 2%Q. lra. }
    assert (Hgt : (inject_Z (m - 1) < inject_Z r)%Q).
    { replace (m - 1) with (m + -1) by lia.
      rewrite inject_Z_plus. change (inject_Z (-1)) with (-1 # 1)%Q. lra. }
    rewrite <- Zlt_Qlt in Hlt, Hgt. lia. }
  destruct Hr as [-> | ->].
  - destruct Hclear as [Hc | Hc]; [split; lra | exfalso; lra].
  - rewrite inject_Z_plus in *. change (inject_Z 1) with 1%Q in *.
    destruct Hclear as [Hc | Hc]; [exfalso; lra | split; lra].
Qed.


(** ** Worked values *)

Example ladder_bandwidths :
  map bandwidth BITRATE_LADDER
  = [Js.Int 464000; Js.Int 896000; Js.Int 1328000; Js.Int 2628000; Js.Int 5192000].
Proof. reflexivity. Qed.

Example scenario_text :
  master_playlist_text (take 2 BITRATE_LADDER) = scenario_master_bytes.
Proof. reflexivity. Qed.

(** Values at which the rounding to a double shows. *)
Example rounded_values :
  Js.parseInt "9007199254740993" = Js.Int 9007199254740992
  /\ parseFrameRate (Some "9007199254740993/1") = Js.Int 9007199254740992
  /\ parseFrameRate (Some "6755399441055745/4503599627370497") = Js.Int 2
  /\ overallProgress 0 (Some (35 # 2)%Q) 5 = 3
  /\ overallProgress 0 (Some below_seven_and_a_half) 5 = 2
  /\ overallProgress 1 (Some (50 # 1)%Q) 5 = 30
  /\ streamVideo ordered_bounds (Some "bytes=0-9007199254740993") 5000
     = StreamError "Failed to stream video" 500 "VIDEO_STREAM_ERROR".
Proof. repeat split; vm_compute; reflexivity. Qed.

Example frame_rates :
  parseFrameRate (Some "30000/1001") = Js.Int 30
  /\ parseFrameRate (Some "25") = Js.Int 25
  /\ parseFrameRate (Some "0/0") = Js.NaN
  /\ parseFrameRate None = Js.Int 0.
Proof. repeat split; reflexivity. Qed.

(** ** The master playlist *)

(** C1.  When a job is completed, the file at the master playlist path holds
    the lines of the template joined by line feeds: the two header lines,
    then per ladder entry, in ladder order, an empty line, the stream line
    and the playlist line, and a final empty element, so that the text ends
    with one line feed.  For the ladder of the scenario, 240p then 360p,
    these are exactly the bytes [scenario_master_bytes]. *)
Theorem master_playlist_of_completed_job `{Deps}
    (w : Service) (input dir video jobId : string) (evs : list Event) (j : Job.t) :
  let s := run (convertToHLS w input dir video jobId) evs in
  the_job s = Some j -> Job.status j = completed ->
  exists text,
    files (service s) !! masterPlaylistPath dir = Some text
    /\ text = Js.join Js.LF (template_lines ladder)
    /\ (ladder = [mkVariant "426x240" "400k" "64k" "240p";
                  mkVariant "640x360" "800k" "96k" "360p"] ->
        text = scenario_master_bytes).
Proof.
  intros s Hj Hdone.
  destruct (reachable_invariant w input dir video jobId evs)
    as (j' & Hj' & _ & _ & _ & Hph).
  fold s in Hj', Hph. rewrite Hj in Hj'. injection Hj' as <-.
  unfold phase_invariant in Hph.
  destruct (phase (call s));
    try (destruct Hph as (Hst & _); rewrite Hst in Hdone; discriminate Hdone).
  destruct Hph as (_ & _ & _ & _ & Hfiles & _).
  exists (master_playlist_text ladder). rewrite Hfiles, lookup_insert_eq.
  split; [reflexivity|]. split.
  - unfold master_playlist_text. now rewrite masterContent_template.
  - intros ->. reflexivity.
Qed.

(** C1 at the scenario: both encodes and the thumbnail succeed. *)
Lemma master_playlist_of_completed_job_witness :
  let s := @run scenario scenario_start scenario_trace in
  exists text,
    files (service s) !! "hls/v1/master.m3u8" = Some text
    /\ text = Js.join Js.LF (template_lines (take 2 BITRATE_LADDER))
    /\ (take 2 BITRATE_LADDER
        = [mkVariant "426x240" "400k" "64k" "240p";
           mkVariant "640x360" "800k" "96k" "360p"] ->
        text = scenario_master_bytes).
Proof.
  intros s.
  apply (@master_playlist_of_completed_job scenario (fresh_service 1000)
           "in.mp4" "hls/v1" "v1" "job-1" scenario_trace
           (Job.mk "job-1" "v1" completed 100 (Some 1000) (Some 1007) None
              ["hls/v1/360p/playlist.m3u8"; "hls/v1/240p/playlist.m3u8";
               "hls/v1/master.m3u8"; "hls/v1/thumbnail.jpg"])).
  - vm_compute. reflexivity.
  - reflexivity.
Defined.

(** C2.  For a ladder entry whose video and audio bitrates are written as a
    decimal numeral followed by [k], the bandwidth is the sum of the two
    numerals taken times 1000, and that sum is what the stream line prints
    after [BANDWIDTH=].  The bound keeps the sum among the integers a
    JavaScript number holds exactly. *)
Theorem bandwidth_is_sum_of_bitrates (v : Variant) (video audio : string) :
  is_numeral video = true -> is_numeral audio = true ->
  videoBitrate v = video +:+ "k" -> audioBitrate v = audio +:+ "k" ->
  kilo_bps video + kilo_bps audio <= 2 ^ 53 ->
  bandwidth v = Js.Int (kilo_bps video + kilo_bps audio)
  /\ stream_inf_line v
     = "#EXT-X-STREAM-INF:BANDWIDTH="
       +:+ Js.Z_to_string (numeral_value video * 1000 + numeral_value audio * 1000)
       +:+ ",RESOLUTION=" +:+ resolution v
       +:+ ",CODECS=" +:+ Js.DQUOTE +:+ "avc1.42e00a,mp4a.40.2" +:+ Js.DQUOTE.
Proof.
  intros Hv Ha Ev Ea Hsum.
  pose proof (bandwidth_of_kilo v video audio Hv Ha Ev Ea Hsum) as Hb.
  split; [exact Hb|]. unfold stream_inf_line. now rewrite Hb.
Qed.

(** C2 at the first ladder entry: 400k and 64k give 464000. *)
Lemma bandwidth_is_sum_of_bitrates_witness :
  bandwidth (mkVariant "426x240" "400k" "64k" "240p") = Js.Int 464000
  /\ stream_inf_line (mkVariant "426x240" "400k" "64k" "240p")
     = "#EXT-X-STREAM-INF:BANDWIDTH=464000,RESOLUTION=426x240,CODECS="
       +:+ Js.DQUOTE +:+ "avc1.42e00a,mp4a.40.2" +:+ Js.DQUOTE.
Proof.
  apply (bandwidth_is_sum_of_bitrates (mkVariant "426x240" "400k" "64k" "240p")
           "400" "64");
    [reflexivity | reflexivity | reflexivity | reflexivity | vm_compute; discriminate].
Defined.

(** ** Progress *)

(** C3, as stated, fails.  With the configured ladder, the fifth encode
    reports first and the stored progress is 80; the first encode then
    reports 50 percent and the stored progress drops to 10.  And a job whose
    fifth encode reported 100 percent before the first one failed ends
    failed with progress 100. *)
Lemma progress_can_decrease :
  let s1 := @run configured demo_start
              [MkdirDone 0; MkdirDone 4; FfmpegProgress 4 (Some 0%Q)] in
  let s2 := @step configured s1 (FfmpegProgress 0 (Some (50 # 1)%Q)) in
  let s3 := @run configured demo_start
              [MkdirDone 0; MkdirDone 4; FfmpegProgress 4 (Some (100 # 1)%Q);
               FfmpegError 0 (ErrorObject "ffmpeg exited with code 1")] in
  outcome s1 = Some (processing, 80, None)
  /\ outcome s2 = Some (processing, 10, None)
  /\ 10 < 80
  /\ outcome s3 = Some (failed, 100, Some 1000).
Proof. vm_compute. repeat split; reflexivity. Qed.

(** C3, amended.  A progress event of a running encode overwrites the stored
    progress with the value computed for that event, whatever was stored
    before; and a job whose status is completed has progress exactly 100. *)
Theorem progress_is_last_written `{Deps}
    (w : Service) (input dir video jobId : string) (evs : list Event) :
  let s := run (convertToHLS w input dir video jobId) evs in
  (forall i percent,
      promises (call s) !! i = Some Encoding ->
      Job.progress <$> the_job (step s (FfmpegProgress i percent))
      = Some (overallProgress i percent (length ladder)))
  /\ (forall j, the_job s = Some j -> Job.status j = completed -> Job.progress j = 100).
Proof.
  intros s.
  destruct (reachable_invariant w input dir video jobId evs)
    as (j & Hj & _ & _ & _ & Hph).
  fold s in Hj, Hph. split.
  - intros i percent Hi. cbn [step]. rewrite Hi, the_job_update, Hj. reflexivity.
  - intros j' Hj' Hdone. rewrite Hj in Hj'. injection Hj' as <-.
    unfold phase_invariant in Hph.
    destruct (phase (call s));
      try (destruct Hph as (Hst & _); rewrite Hst in Hdone; discriminate Hdone).
    tauto.
Qed.

(** C3, amended, at the run that lowers the progress and at the completed
    scenario. *)
Lemma progress_is_last_written_witness :
  Job.progress <$>
    the_job (@step configured
               (@run configured demo_start
                  [MkdirDone 0; MkdirDone 4; FfmpegProgress 4 (Some 0%Q)])
               (FfmpegProgress 0 (Some (50 # 1)%Q)))
  = Some 10
  /\ Job.progress (Job.mk "job-1" "v1" completed 100 (Some 1000) (Some 1007) None
                     ["hls/v1/360p/playlist.m3u8"; "hls/v1/240p/playlist.m3u8";
                      "hls/v1/master.m3u8"; "hls/v1/thumbnail.jpg"]) = 100.
Proof.
  split.
  - apply (proj1 (@progress_is_last_written configured (fresh_service 1000)
                    "in.mp4" "hls/v1" "v1" "job-1"
                    [MkdirDone 0; MkdirDone 4; FfmpegProgress 4 (Some 0%Q)])
             0%nat (Some (50 # 1)%Q)).
    reflexivity.
  - apply (proj2 (@progress_is_last_written scenario (fresh_service 1000)
                    "in.mp4" "hls/v1" "v1" "job-1" scenario_trace)).
    + vm_compute. reflexivity.
    + reflexivity.
Defined.

(** ** Failure of a rendition *)



(** ** Creation of the job *)

(** C5, as stated, fails: the first state a lookup returns has the status
    whose text is "processing", which is not "pending". *)
Lemma first_visible_status_is_not_pending :
  status_text <$> (Job.status <$>
                     getProcessingJob (service demo_start) "job-1")
  = Some "processing"
  /\ "processing" <> "pending".
Proof. split; [reflexivity | discriminate]. Qed.

(** C5, amended.  Right after the call has registered its job, a lookup of
    the job id returns the job with status processing and progress 0, no
    completion time, no error and no output paths; and no status of a job
    reads "pending". *)
Theorem job_is_created_processing `{Deps}
    (w : Service) (input dir video jobId : string) :
  getProcessingJob (service (convertToHLS w input dir video jobId)) jobId
  = Some (Job.mk jobId video processing 0 (Some (now w)) None None [])
  /\ (forall st : JobStatus, status_text st <> "pending").
Proof.
  split.
  - unfold convertToHLS, on_resolve, getProcessingJob, deref.
    cbn [call phase promises].
    destruct (forallb is_resolved (map (fun _ => MakingDir) ladder));
      cbn [set_phase service processingJobs heap];
      rewrite lookup_insert_eq; now apply list_lookup_middle.
  - intros []; discriminate.
Qed.

(** C5, amended, at the configured ladder. *)
Lemma job_is_created_processing_witness :
  getProcessingJob (service demo_start) "job-1"
  = Some (Job.mk "job-1" "v1" processing 0 (Some 1000) None None []).
Proof.
  apply (proj1 (@job_is_created_processing configured (fresh_service 1000)
                  "in.mp4" "hls/v1" "v1" "job-1")).
Defined.

(** ** Cleanup *)

(** C6.  After [cleanupOldJobs], a lookup finds a job exactly when it found
    it before and the job does not have a completion time earlier than the
    current time minus [maxAgeHours] hours; the same holds of the listing;
    and a job without completion time is always kept. *)
Theorem cleanup_removes_exactly_old_completed (w : Service) (maxAgeHours : Z) :
  (forall jobId j,
      getProcessingJob (cleanupOldJobs maxAgeHours w) jobId = Some j
      <-> getProcessingJob w jobId = Some j
          /\ ~ (exists t, Job.completedAt j = Some t
                          /\ t < now w - maxAgeHours * 60 * 60 * 1000))
  /\ (forall j,
         j ∈ getAllProcessingJobs (cleanupOldJobs maxAgeHours w)
         <-> j ∈ getAllProcessingJobs w
             /\ ~ (exists t, Job.completedAt j = Some t
                             /\ t < now w - maxAgeHours * 60 * 60 * 1000))
  /\ (forall jobId j,
         getProcessingJob w jobId = Some j -> Job.completedAt j = None ->
         getProcessingJob (cleanupOldJobs maxAgeHours w) jobId = Some j).
Proof.
  assert (Hold : forall j,
             is_old (cutoff w maxAgeHours) j = false
             <-> ~ (exists t, Job.completedAt j = Some t
                              /\ t < now w - maxAgeHours * 60 * 60 * 1000)).
  { intros j. unfold is_old, cutoff. destruct (Job.completedAt j) as [t|].
    - rewrite Z.ltb_ge. split.
      + intros Hge (t' & [= <-] & Hlt). lia.
      + intros Hno. destruct (Z_lt_ge_dec t (now w - maxAgeHours * 60 * 60 * 1000));
          [exfalso; eauto | lia].
    - split; [intros _ (t & Ht & _); discriminate | reflexivity]. }
  assert (Hlookup : forall jobId j,
             getProcessingJob (cleanupOldJobs maxAgeHours w) jobId = Some j
             <-> getProcessingJob w jobId = Some j
                 /\ ~ (exists t, Job.completedAt j = Some t
                                 /\ t < now w - maxAgeHours * 60 * 60 * 1000)).
  { intros jobId j. now rewrite cleanup_lookup, Hold. }
  split; [exact Hlookup|]. split.
  - intros j. rewrite !listing_elem. split.
    + intros [jobId Hj]. apply Hlookup in Hj as [Hj Hno]. eauto.
    + intros [[jobId Hj] Hno]. exists jobId. apply Hlookup. auto.
  - intros jobId j Hj Hnone. apply Hlookup. split; [exact Hj|].
    intros (t & Ht & _). congruence.
Qed.

(** C6 at the boundary: after a cleanup with 24 hours, the job completed 25
    hours ago is gone, the one completed 23 hours ago and the running one
    remain. *)
Lemma cleanup_removes_exactly_old_completed_witness :
  getProcessingJob (cleanupOldJobs default_maxAgeHours three_jobs) "a" = None
  /\ is_Some (getProcessingJob (cleanupOldJobs default_maxAgeHours three_jobs) "b")
  /\ getProcessingJob (cleanupOldJobs default_maxAgeHours three_jobs) "c"
     = Some (Job.mk "c" "vc" processing 10 (Some 0) None None []).
Proof.
  pose proof (cleanup_removes_exactly_old_completed three_jobs default_maxAgeHours)
    as (Hlookup & _ & Hrunning).
  split; [|split].
  - destruct (getProcessingJob (cleanupOldJobs default_maxAgeHours three_jobs) "a")
      as [j|] eqn:Hj; [|reflexivity].
    apply Hlookup in Hj as [Hj Hno]. exfalso. apply Hno.
    vm_compute in Hj. injection Hj as <-. exists (75 * hour).
    split; [reflexivity | vm_compute; reflexivity].
  - exists (Job.mk "b" "vb" failed 40 (Some 0) (Some (77 * hour)) (Some "boom") []).
    apply Hlookup. split; [reflexivity|].
    intros (t & [= <-] & Hlt). vm_compute in Hlt. discriminate Hlt.
  - apply Hrunning; reflexivity.
Defined.

(** ** The thumbnail *)

(** C7.  Whether the thumbnail extraction ends or fails, and whatever
    happens afterwards, the status, the progress and the completion time of
    the job are the same.  At the thumbnail step a failure makes the call
    return, not throw: the job is completed with progress 100 at the current
    time, and its output paths are the paths recorded so far, to which a
    success would have added the thumbnail path. *)
Theorem thumbnail_failure_is_harmless `{Deps}
    (s : State) (evs : list Event) (e : thrown) :
  outcome (run (step s (ThumbnailError e)) evs)
  = outcome (run (step s ThumbnailEnd) evs)
  /\ (forall j0,
         phase (call s) = MakingThumbnail -> the_job s = Some j0 ->
         outcome (step s (ThumbnailError e))
         = Some (completed, 100, Some (now (service s)))
         /\ phase (call (step s (ThumbnailError e))) = Returned (outputPaths (call s))
         /\ Job.outputPaths <$> the_job (step s (ThumbnailError e))
            = Some (outputPaths (call s))
         /\ Job.outputPaths <$> the_job (step s ThumbnailEnd)
            = Some (outputPaths (call s) ++ [thumbnailPath (outputDir (call s))])).
Proof.
  split.
  - rewrite <- (outcome_forget (run (step s (ThumbnailError e)) evs)),
      <- (outcome_forget (run (step s ThumbnailEnd) evs)).
    f_equal. apply run_forget, thumbnail_outcomes_forget.
  - intros j0 Hph Hj.
    destruct s as [[hp reg fl ds nw] [jr ip od lp ps ph]].
    cbn [call phase] in Hph. subst ph.
    unfold the_job, deref in Hj. cbn [service call heap job] in Hj.
    cbn [step call phase].
    unfold outcome, the_job, deref, finish, push_path, set_phase, update_job.
    cbn [service call heap processingJobs files dirs now job inputPath
         outputDir outputPaths promises phase].
    rewrite !list_lookup_alter_eq, Hj. repeat split; reflexivity.
Qed.

(** C7 at the scenario, the thumbnail failing. *)
Lemma thumbnail_failure_is_harmless_witness :
  outcome (@step scenario before_thumbnail (ThumbnailError (ErrorObject "no frame")))
  = Some (completed, 100, Some 1007)
  /\ phase (call (@step scenario before_thumbnail (ThumbnailError (ErrorObject "no frame"))))
     = Returned ["hls/v1/360p/playlist.m3u8"; "hls/v1/240p/playlist.m3u8";
                 "hls/v1/master.m3u8"]
  /\ Job.outputPaths <$>
       the_job (@step scenario before_thumbnail (ThumbnailError (ErrorObject "no frame")))
     = Some ["hls/v1/360p/playlist.m3u8"; "hls/v1/240p/playlist.m3u8";
             "hls/v1/master.m3u8"]
  /\ Job.outputPaths <$> the_job (@step scenario before_thumbnail ThumbnailEnd)
     = Some (["hls/v1/360p/playlist.m3u8"; "hls/v1/240p/playlist.m3u8";
              "hls/v1/master.m3u8"] ++ ["hls/v1/thumbnail.jpg"]).
Proof.
  apply (proj2 (@thumbnail_failure_is_harmless scenario before_thumbnail []
                  (ErrorObject "no frame"))
           (Job.mk "job-1" "v1" processing 0 (Some 1000) None None []));
    reflexivity.
Defined.

(** ** The progress formula *)

(** C8, as stated, fails.  With the configured ladder of five entries, the
    first encode reporting 7.499999999999999 percent makes the handler store
    2, although [100 * (0 + p) / 5] is below 1.5 and the nearest integer is
    1: the quotient by 100, the quotient by 5 and the product by 100, each
    rounded to a double, give exactly 1.5.  At 17.5 percent the value is
    exactly 3.5, the nearest integer with a tie going up is 4, and the
    handler stores 3. *)
Lemma progress_is_not_the_nearest_integer :
  let s := @run configured demo_start [MkdirDone 0] in
  Job.progress <$>
    the_job (@step configured s (FfmpegProgress 0 (Some below_seven_and_a_half)))
  = Some 2
  /\ nearest_integer 1 (share_done 0 below_seven_and_a_half 5)
  /\ ~ nearest_integer 2 (share_done 0 below_seven_and_a_half 5)
  /\ Job.progress <$> the_job (@step configured s (FfmpegProgress 0 (Some (35 # 2)%Q)))
     = Some 3
  /\ nearest_integer 4 (share_done 0 (35 # 2) 5)
  /\ ~ nearest_integer 3 (share_done 0 (35 # 2) 5).
Proof.
  cbv zeta. split; [vm_compute; reflexivity|].
  split; [split; [vm_compute; discriminate | vm_compute; reflexivity]|].
  split; [intros [Hlo _]; vm_compute in Hlo; apply Hlo; reflexivity|].
  split; [vm_compute; reflexivity|].
  split; [split; [vm_compute; discriminate | vm_compute; reflexivity]|].
  intros [_ Hhi]. vm_compute in Hhi. discriminate Hhi.
Qed.

(** C8, amended.  When the encode of ladder entry [i] is running and
    reports a percentage from 0 to 100, the progress stored in the job is
    [Math.round(((i + percent / 100) / N) * 100)] computed in doubles.  It is
    an integer within one half plus 2^-43 of [100 * (i + p) / N], where
    [p] is the percentage over 100 and [N] the length of the ladder; it is
    the integer nearest to that value whenever the value is farther than
    2^-43 from the middle between two integers. *)
Theorem progress_is_rounded_share_of_doubles `{Deps}
    (w : Service) (input dir video jobId : string) (evs : list Event)
    (i : nat) (pct : Q) :
  let s := run (convertToHLS w input dir video jobId) evs in
  promises (call s) !! i = Some Encoding ->
  (0 <= pct)%Q -> (pct <= 100)%Q ->
  exists j,
    the_job (step s (FfmpegProgress i (Some pct))) = Some j
    /\ Job.progress j = overallProgress i (Some pct) (length ladder)
    /\ nearest_integer_up_to_rounding (Job.progress j)
         (share_done i pct (length ladder))
    /\ (clear_of_tie (share_done i pct (length ladder)) ->
        nearest_integer (Job.progress j) (share_done i pct (length ladder))).
Proof.
  intros s Hi H0 H100.
  destruct (reachable_invariant w input dir video jobId evs)
    as (j & Hj & _ & Hlen & _ & _).
  fold s in Hj, Hlen.
  apply lookup_lt_Some in Hi as HiN. rewrite Hlen in HiN.
  pose proof (overallProgress_share i (length ladder) pct HiN H0 H100) as Hnear.
  exists (Job.set_progress (overallProgress i (Some pct) (length ladder)) j).
  split; [|split; [reflexivity | split]].
  - cbn [step]. rewrite Hi, the_job_update, Hj. reflexivity.
  - exact Hnear.
  - intros Hclear. now apply clear_of_tie_nearest.
Qed.

(** C8, amended, at the second of five entries, half way: the stored
    progress is the integer nearest to 30. *)
Lemma progress_is_rounded_share_of_doubles_witness :
  exists j,
    the_job (@step configured
               (@run configured demo_start [MkdirDone 1])
               (FfmpegProgress 1 (Some (50 # 1)%Q))) = Some j
    /\ Job.progress j = 30
    /\ nearest_integer (Job.progress j) (share_done 1 (50 # 1) 5).
Proof.
  destruct (@progress_is_rounded_share_of_doubles configured (fresh_service 1000)
              "in.mp4" "hls/v1" "v1" "job-1" [MkdirDone 1] 1%nat (50 # 1)%Q)
    as (j & Hj & Hp & _ & Hn); [reflexivity | lra | lra |].
  exists j. split; [exact Hj|]. split.
  - rewrite Hp. vm_compute. reflexivity.
  - apply Hn. left. vm_compute. reflexivity.
Defined.

(** ** Metadata probing *)

Lemma uploadVideo_answer `{Deps}
    (hls : string) (store : gmap string VideoMetadata.t) (f : UploadedFile)
    (id : string) (t1 t2 : Z) (probe : FfprobeOutcome) :
  let record :=
    match getVideoMetadata probe with
    | Fulfilled metadata => Object_assign (initial_metadata f id t1 t2) metadata
    | RejectedWith _ => initial_metadata f id t1 t2
    end in
  uploadVideo hls store (Some f) id t1 t2 probe
  = Created (<[id := with_status st_processing record]> store)
            (with_status st_processing record) (path f, path_join hls id, id).
Proof.
  cbv zeta. unfold uploadVideo, processVideoAsync_start.
  rewrite lookup_insert_eq, insert_insert_eq, lookup_insert_eq. reflexivity.
Qed.




(** ** Output paths *)

(** C10.  At every moment of a call, the job -- through the reference of
    the call or through a lookup of its id -- has no output paths unless its
    status is completed; in particular a failed job has none.  A completed
    job has them all: the playlist paths of all ladder entries, in the order
    the encodes ended, then the master playlist path, then the thumbnail
    path if there is a thumbnail. *)
Theorem output_paths_set_on_completion `{Deps}
    (w : Service) (input dir video jobId : string) (evs : list Event) (j : Job.t) :
  let s := run (convertToHLS w input dir video jobId) evs in
  the_job s = Some j \/ getProcessingJob (service s) jobId = Some j ->
  (Job.status j <> completed -> Job.outputPaths j = [])
  /\ (Job.status j = failed -> Job.outputPaths j = [])
  /\ (Job.status j = completed ->
      exists ps t,
        Job.outputPaths j = ps ++ [masterPlaylistPath dir] ++ t
        /\ ps ≡ₚ map (playlistPath dir) ladder
        /\ (t = [] \/ t = [thumbnailPath dir])).
Proof.
  intros s Hseen.
  destruct (reachable_invariant w input dir video jobId evs)
    as (j' & Hj' & _ & Hlen & Hreg & Hph).
  fold s in Hj', Hlen, Hreg, Hph.
  assert (Hj : the_job s = Some j).
  { destruct Hseen as [Hj | Hj]; [exact Hj|].
    unfold getProcessingJob in Hj.
    destruct (processingJobs (service s) !! jobId) as [r|] eqn:Hr; [|discriminate].
    now rewrite (Hreg r eq_refl) in Hj. }
  rewrite Hj in Hj'. injection Hj' as <-.
  unfold phase_invariant in Hph.
  destruct (phase (call s)) as [| | | paths | e0].
  1-3: destruct Hph as (Hst & Hout & _); rewrite Hst;
       (split; [auto|]); split; [auto | discriminate].
  - destruct Hph as (Hst & _ & Hout & Hall & _ & ps & t & -> & Hps & Ht).
    rewrite Hst. split; [congruence|]. split; [discriminate|]. intros _.
    exists ps, t. split; [exact Hout|]. split; [|exact Ht].
    rewrite Hps. now rewrite (resolved_paths_all dir _ _ Hall Hlen).
  - destruct Hph as (Hst & Hout & _). rewrite Hst.
    split; [auto|]. split; [auto | discriminate].
Qed.

(** C10 at the failing scenario, where the playlist of the first entry had
    been recorded in the local array before the failure, and at the
    completed scenario. *)
Lemma output_paths_set_on_completion_witness :
  (let j := Job.mk "job-1" "v1" failed 75 (Some 1000) (Some 1005)
              (Some "ffmpeg exited with code 1") [] in
   outputPaths (call (@run scenario scenario_start failing_trace))
   = ["hls/v1/240p/playlist.m3u8"]
   /\ (Job.status j <> completed -> Job.outputPaths j = [])
   /\ (Job.status j = failed -> Job.outputPaths j = [])
   /\ (Job.status j = completed ->
       exists ps t,
         Job.outputPaths j = ps ++ ["hls/v1/master.m3u8"] ++ t
         /\ ps ≡ₚ ["hls/v1/240p/playlist.m3u8"; "hls/v1/360p/playlist.m3u8"]
         /\ (t = [] \/ t = ["hls/v1/thumbnail.jpg"])))
  /\ (let j := Job.mk "job-1" "v1" completed 100 (Some 1000) (Some 1007) None
                 ["hls/v1/360p/playlist.m3u8"; "hls/v1/240p/playlist.m3u8";
                  "hls/v1/master.m3u8"; "hls/v1/thumbnail.jpg"] in
      (Job.status j <> completed -> Job.outputPaths j = [])
      /\ (Job.status j = failed -> Job.outputPaths j = [])
      /\ (Job.status j = completed ->
          exists ps t,
            Job.outputPaths j = ps ++ ["hls/v1/master.m3u8"] ++ t
            /\ ps ≡ₚ ["hls/v1/240p/playlist.m3u8"; "hls/v1/360p/playlist.m3u8"]
            /\ (t = [] \/ t = ["hls/v1/thumbnail.jpg"]))).
Proof.
  split.
  - intros j. split; [reflexivity|].
    apply (@output_paths_set_on_completion scenario (fresh_service 1000)
             "in.mp4" "hls/v1" "v1" "job-1" failing_trace j).
    right. reflexivity.
  - intros j.
    apply (@output_paths_set_on_completion scenario (fresh_service 1000)
             "in.mp4" "hls/v1" "v1" "job-1" scenario_trace j).
    left. vm_compute. reflexivity.
Defined.

(** * Further properties of the service and of the controller *)

Ltac job_fields :=
  cbn [Job.id Job.videoId Job.status Job.progress Job.startedAt Job.completedAt
       Job.error Job.outputPaths Job.set_progress Job.fail Job.complete] in *.

Section Lifecycle.
Context `{Deps}.

Lemma start_lifecycle (w : Service) (input dir video jobId : string) :
  lifecycle_invariant w video jobId (convertToHLS w input dir video jobId).
Proof.
  exists (Job.mk jobId video processing 0 (Some (now w)) None None []).
  unfold convertToHLS, on_resolve, the_job, deref. cbn [call phase promises].
  destruct (forallb is_resolved (map (fun _ => MakingDir) ladder));
    cbn [set_phase service call heap job processingJobs Job.id Job.videoId
         Job.startedAt Job.status Job.completedAt Job.error];
    (split; [now apply list_lookup_middle|]);
    repeat (split; [first [reflexivity | congruence]|]);
    try (split; [intros _; split; [reflexivity|]; split; [reflexivity|];
                 apply lookup_insert_eq|]);
    try (split; [congruence|]); try (split; [reflexivity|]);
    (split; [intros r Hr; now apply lookup_app_l|]);
    intros k r Hk; now rewrite lookup_insert_ne.
Qed.

Ltac lifecycle_case j Hj Hframe :=
  unfold lifecycle_invariant; unfold_ops;
  first [ exists j; split; [exact Hj|]
        | eexists; split; [rewrite list_lookup_alter_eq, Hj; reflexivity|] ];
  job_fields;
  repeat match goal with
         | |- _ /\ _ => split
         end;
  first [ assumption | reflexivity | discriminate
        | intros; discriminate
        | intros; eauto; fail
        | intros ? ?; rewrite list_lookup_alter_ne by lia; now apply Hframe
        | idtac ].

Lemma step_lifecycle (w : Service) (video jobId : string) (s : State) (ev : Event) :
  lifecycle_invariant w video jobId s -> lifecycle_invariant w video jobId (step s ev).
Proof.
  open_state s.
  intros (j & Hj & Hid & Hvid & Hstart & Hrun & Hdone & Href & Hframe & Hreg).
  unfold the_job, deref in Hj.
  cbn [service call heap processingJobs files dirs now job] in *.
  destruct ev as [i | i e | i pct | i | i e | | e | | e | ms | h];
    cbn [step call promises phase outputDir service].
  - destruct (ps !! i) as [[| | |]|]; try destruct (ladder !! i);
      lifecycle_case j Hj Hframe.
  - destruct (ps !! i) as [[| | |]|]; destruct ph; lifecycle_case j Hj Hframe.
  - destruct (ps !! i) as [[| | |]|]; lifecycle_case j Hj Hframe.
  - destruct (ps !! i) as [[| | |]|]; try destruct (ladder !! i); destruct ph;
      unfold_ops; try destruct (forallb is_resolved (<[i:=Resolved]> ps));
      lifecycle_case j Hj Hframe.
  - destruct (ps !! i) as [[| | |]|]; destruct ph; lifecycle_case j Hj Hframe.
  - destruct ph; lifecycle_case j Hj Hframe.
  - destruct ph; lifecycle_case j Hj Hframe.
  - destruct ph; lifecycle_case j Hj Hframe.
  - destruct ph; lifecycle_case j Hj Hframe.
  - lifecycle_case j Hj Hframe.
  - exists j. unfold the_job, deref. cbn [service call heap job cleanupOldJobs].
    split; [exact Hj|]. repeat (split; [assumption|]).
    split; [|split; [assumption|]; split; [assumption|]; split; [assumption|]].
    + intros Hst. destruct (Hrun Hst) as (Hnone & Herr & Hk).
      split; [exact Hnone|]. split; [exact Herr|].
      apply cleanup_registry_lookup. split; [exact Hk|].
      unfold ref_is_old, deref, is_old. cbn [heap]. now rewrite Hj, Hnone.
    + intros k r Hk Hr. apply cleanup_registry_lookup in Hr as [Hr _]. eauto.
Qed.

End Lifecycle.

Lemma frac_or_zero_range (percent : option Q) :
  match percent with
  | Some q => (0 <= q)%Q /\ (q <= 100)%Q
  | None => True
  end ->
  (0 <= Js.frac_or_zero percent)%Q /\ (Js.frac_or_zero percent <= 100)%Q.
Proof.
  destruct percent as [q|]; simpl; [|intros _; split; lra].
  intros [Hlo Hhi]. destruct (Qeq_bool q 0); split; lra.
Qed.

Lemma overallProgress_range (i N : nat) (percent : option Q) :
  (i < N)%nat ->
  match percent with
  | Some q => (0 <= q)%Q /\ (q <= 100)%Q
  | None => True
  end ->
  0 <= overallProgress i percent N <= 100.
Proof.
  intros HiN Hpct. apply frac_or_zero_range in Hpct as [Hlo Hhi].
  unfold overallProgress.
  set (p := Js.frac_or_zero percent) in *.
  pose proof (progress_rounding_error i N p HiN Hlo Hhi) as (E1 & _ & E0).
  cbv zeta in E1, E0.
  assert (HN : (0 < inject_Z (Z.of_nat N))%Q).
  { change 0%Q with (inject_Z 0). rewrite <- Zlt_Qlt. lia. }
  assert (Hi : (0 <= inject_Z (Z.of_nat i))%Q).
  { change 0%Q with (inject_Z 0). rewrite <- Zle_Qle. lia. }
  assert (HiN' : (inject_Z (Z.of_nat i) + 1 <= inject_Z (Z.of_nat N))%Q).
  { change 1%Q with (inject_Z 1). rewrite <- inject_Z_plus, <- Zle_Qle. lia. }
  assert (Hx : (100 * (inject_Z (Z.of_nat i) + p / 100) / inject_Z (Z.of_nat N)
                <= 100)%Q).
  { assert (Hq : (p / 100 <= 1)%Q) by (apply Qle_shift_div_r; lra).
    apply Qle_shift_div_r; [exact HN|]. revert Hq. generalize (p / 100)%Q.
    intros q Hq. lra. }
  match goal with
  | |- _ <= Js.Math_round ?d <= _ =>
      pose proof (Math_round_bounds d) as [R1 R2]; set (dd := d) in *
  end.
  unfold rounding_slack in E1.
  set (x := (100 * (inject_Z (Z.of_nat i) + p / 100) / inject_Z (Z.of_nat N))%Q) in *.
  assert (Hhi' : (inject_Z (Js.Math_round dd) < inject_Z 101)%Q).
  { change (inject_Z 101) with 101%Q. lra. }
  assert (Hlo' : (inject_Z (-1) < inject_Z (Js.Math_round dd))%Q).
  { change (inject_Z (-1)) with (-1 # 1)%Q. lra. }
  rewrite <- Zlt_Qlt in Hhi', Hlo'. lia.
Qed.

Section Lifecycle2.
Context `{Deps}.

Lemma run_lifecycle (w : Service) (video jobId : string) (evs : list Event) (s : State) :
  lifecycle_invariant w video jobId s -> lifecycle_invariant w video jobId (run s evs).
Proof.
  revert s. induction evs as [|ev evs IH]; intros s Hs; [exact Hs|].
  apply IH, step_lifecycle, Hs.
Qed.

Lemma reachable_lifecycle (w : Service) (input dir video jobId : string)
    (evs : list Event) :
  lifecycle_invariant w video jobId (run (convertToHLS w input dir video jobId) evs).
Proof. apply run_lifecycle, start_lifecycle. Qed.

(** The job after an event: untouched, or with a new progress, or failed, or
    completed. *)
Lemma step_job_shape (s : State) (ev : Event) (j : Job.t) :
  the_job s = Some j ->
  the_job (step s ev) = Some j
  \/ (exists i percent,
         ev = FfmpegProgress i percent
         /\ promises (call s) !! i = Some Encoding
         /\ the_job (step s ev)
            = Some (Job.set_progress (overallProgress i percent (length ladder)) j))
  \/ (exists m, the_job (step s ev) = Some (Job.fail m (now (service s)) j))
  \/ (exists paths, the_job (step s ev) = Some (Job.complete paths (now (service s)) j)).
Proof.
  open_state s. unfold the_job, deref.
  cbn [service call heap job]. intros Hj.
  destruct ev as [i | i e | i pct | i | i e | | e | | e | ms | h];
    cbn [step call promises phase outputDir service].
  - destruct (ps !! i) as [[| | |]|]; try destruct (ladder !! i);
      unfold_ops; now left.
  - destruct (ps !! i) as [[| | |]|]; destruct ph; unfold_ops;
      rewrite ?list_lookup_alter_eq, ?Hj; eauto.
  - destruct (ps !! i) as [[| | |]|] eqn:Hi; unfold_ops;
      rewrite ?list_lookup_alter_eq, ?Hj; eauto 8.
  - destruct (ps !! i) as [[| | |]|]; try destruct (ladder !! i); destruct ph;
      unfold_ops; try destruct (forallb is_resolved (<[i:=Resolved]> ps));
      unfold_ops; now left.
  - destruct (ps !! i) as [[| | |]|]; destruct ph; unfold_ops;
      rewrite ?list_lookup_alter_eq, ?Hj; eauto.
  - destruct ph; unfold_ops; now left.
  - destruct ph; unfold_ops; rewrite ?list_lookup_alter_eq, ?Hj; eauto.
  - destruct ph; unfold_ops; rewrite ?list_lookup_alter_eq, ?Hj; eauto 6.
  - destruct ph; unfold_ops; rewrite ?list_lookup_alter_eq, ?Hj; eauto 6.
  - now left.
  - now left.
Qed.

Lemma step_now (s : State) (ev : Event) :
  clock_forward ev -> now (service s) <= now (service (step s ev)).
Proof.
  open_state s.
  destruct ev as [i | i e | i pct | i | i e | | e | | e | ms | h];
    cbn [step call promises phase outputDir service clock_forward]; intros Hev;
    repeat first
      [ progress unfold_ops
      | match goal with
        | |- context [match ?x with _ => _ end] => destruct x
        end ];
    cbn [cleanupOldJobs now]; lia.
Qed.

Lemma step_timeline (w : Service) (s : State) (ev : Event) :
  (exists j, the_job s = Some j) ->
  clock_forward ev -> timeline_invariant w s -> timeline_invariant w (step s ev).
Proof.
  intros [j Hj] Hev [Hnow Htimes]. pose proof (step_now s ev Hev) as Hstep.
  split; [lia|]. intros j' t Hj' Ht.
  specialize (Htimes j).
  destruct (step_job_shape s ev j Hj)
    as [Hsame | [(i & pct & _ & _ & Hp) | [(m & Hf) | (paths & Hc)]]];
    rewrite Hj' in *.
  - injection Hsame as ->. specialize (Htimes t Hj Ht). lia.
  - injection Hp as ->. job_fields. specialize (Htimes t Hj Ht). lia.
  - injection Hf as ->. job_fields. injection Ht as <-. lia.
  - injection Hc as ->. job_fields. injection Ht as <-. lia.
Qed.

Lemma step_progress_range (files0 : gmap string string) (dir jobId : string)
    (s : State) (ev : Event) :
  invariant files0 dir jobId s -> percent_in_range ev ->
  progress_invariant s -> progress_invariant (step s ev).
Proof.
  intros (j & Hj & _ & Hlen & _ & _) Hev Hprog j' Hj'.
  specialize (Hprog j Hj).
  destruct (step_job_shape s ev j Hj)
    as [Hsame | [(i & pct & -> & Hi & Hp) | [(m & Hf) | (paths & Hc)]]];
    rewrite Hj' in *.
  - now injection Hsame as ->.
  - injection Hp as ->. job_fields. apply overallProgress_range.
    + apply lookup_lt_Some in Hi. lia.
    + exact Hev.
  - now injection Hf as ->.
  - injection Hc as ->. job_fields. lia.
Qed.

End Lifecycle2.

Section Settled.
Context `{Deps}.

Lemma step_settled (s : State) (ev : Event) :
  settled (phase (call s)) = true ->
  phase (call (step s ev)) = phase (call s)
  /\ (the_job (step s ev) = the_job s
      \/ exists i percent,
           promises (call s) !! i = Some Encoding
           /\ the_job (step s ev)
              = Job.set_progress (overallProgress i percent (length ladder))
                  <$> the_job s).
Proof.
  open_state s. unfold the_job, deref.
  cbn [service call heap job phase promises].
  destruct ph; try discriminate; intros _;
    destruct ev as [i | i e' | i pct | i | i e' | | e' | | e' | ms | h];
    cbn [step call promises phase outputDir service];
    try (split; [reflexivity | now left]);
    destruct (ps !! i) as [[| | |]|] eqn:Hi; try destruct (ladder !! i);
    unfold_ops; try (split; [reflexivity | now left]).
  all: split; [reflexivity|]; right; exists i, pct;
    rewrite list_lookup_alter_eq; auto.
Qed.

Lemma step_all_resolved (s : State) (ev : Event) :
  forallb is_resolved (promises (call s)) = true ->
  promises (call (step s ev)) = promises (call s).
Proof.
  open_state s. cbn [call promises]. intros Hall.
  destruct ev as [i | i e' | i pct | i | i e' | | e' | | e' | ms | h];
    cbn [step call promises phase outputDir service];
    try (destruct (ps !! i) as [p|] eqn:Hi;
         [pose proof (all_resolved_lookup ps i p Hall Hi) as ->|]);
    try reflexivity;
    destruct ph; reflexivity.
Qed.

Lemma run_completed (evs : list Event) (s : State) (paths : list string) :
  phase (call s) = Returned paths ->
  forallb is_resolved (promises (call s)) = true ->
  the_job (run s evs) = the_job s /\ phase (call (run s evs)) = Returned paths.
Proof.
  revert s. induction evs as [|ev evs IH]; intros s Hph Hall; [now split|].
  destruct (step_settled s ev) as [Hph' Hjob]; [now rewrite Hph|].
  pose proof (step_all_resolved s ev Hall) as Hps.
  destruct (IH (step s ev)) as [Hj Hp].
  - now rewrite Hph'.
  - now rewrite Hps.
  - change (run s (ev :: evs)) with (run (step s ev) evs). split; [|exact Hp].
    rewrite Hj. destruct Hjob as [-> | (i & pct & Hi & _)]; [reflexivity|].
    pose proof (all_resolved_lookup _ _ _ Hall Hi). discriminate.
Qed.

Lemma run_failed (evs : list Event) (s : State) (e : thrown) (j : Job.t) :
  phase (call s) = Threw e -> the_job s = Some j ->
  phase (call (run s evs)) = Threw e
  /\ exists p, the_job (run s evs) = Some (Job.set_progress p j).
Proof.
  revert s j. induction evs as [|ev evs IH]; intros s j Hph Hj.
  - change (run s []) with s. split; [exact Hph|].
    exists (Job.progress j). rewrite Hj. now destruct j.
  - destruct (step_settled s ev) as [Hph' Hjob]; [now rewrite Hph|].
    change (run s (ev :: evs)) with (run (step s ev) evs).
    rewrite Hj in Hjob. rewrite Hph in Hph'.
    destruct Hjob as [Hsame | (i & pct & _ & Hp)].
    + now apply IH.
    + destruct (IH (step s ev) _ Hph' Hp) as [Hq [p Hr]].
      split; [exact Hq|]. exists p. rewrite Hr. now destruct j.
Qed.

End Settled.

(** X6.  At every moment of a call the job object exists and still has
    the id and the video id it was created with, and the start time read at
    its creation. *)
Theorem job_identity_is_fixed `{Deps}
    (w : Service) (input dir video jobId : string) (evs : list Event) :
  exists j,
    the_job (run (convertToHLS w input dir video jobId) evs) = Some j
    /\ Job.id j = jobId /\ Job.videoId j = video
    /\ Job.startedAt j = Some (now w).
Proof.
  destruct (reachable_lifecycle w input dir video jobId evs)
    as (j & Hj & Hid & Hvid & Hstart & _).
  exists j. auto.
Qed.

(** X7.  While the status of the job is processing, the job is found
    under its id, whatever cleanups ran in between, and it has neither a
    completion time nor an error. *)
Theorem running_job_stays_registered `{Deps}
    (w : Service) (input dir video jobId : string) (evs : list Event) (j : Job.t) :
  let s := run (convertToHLS w input dir video jobId) evs in
  the_job s = Some j -> Job.status j = processing ->
  getProcessingJob (service s) jobId = Some j
  /\ Job.completedAt j = None /\ Job.error j = None.
Proof.
  intros s Hj Hst.
  destruct (reachable_lifecycle w input dir video jobId evs)
    as (j' & Hj' & _ & _ & _ & Hrun & _).
  fold s in Hj', Hrun. rewrite Hj in Hj'. injection Hj' as <-.
  destruct (Hrun Hst) as (Hnone & Herr & Hreg).
  unfold getProcessingJob. rewrite Hreg. auto.
Qed.

(** X7 at a concrete input. *)
Lemma running_job_stays_registered_witness :
  let s := @run scenario scenario_start
             [MkdirDone 0; CleanupOldJobs 0; Tick 100; CleanupOldJobs (-5)] in
  getProcessingJob (service s) "job-1"
  = Some (Job.mk "job-1" "v1" processing 0 (Some 1000) None None [])
  /\ Job.completedAt (Job.mk "job-1" "v1" processing 0 (Some 1000) None None []) = None
  /\ Job.error (Job.mk "job-1" "v1" processing 0 (Some 1000) None None []) = None.
Proof.
  intros s.
  apply (@running_job_stays_registered scenario (fresh_service 1000)
           "in.mp4" "hls/v1" "v1" "job-1"
           [MkdirDone 0; CleanupOldJobs 0; Tick 100; CleanupOldJobs (-5)]);
    reflexivity.
Defined.

(** X8.  A call changes no other job object, and for every other id a
    lookup that succeeds during the call returns the job it returned before
    the call.  The registry refers to existing objects. *)
Theorem other_jobs_are_untouched `{Deps}
    (w : Service) (input dir video jobId : string) (evs : list Event) :
  let s := run (convertToHLS w input dir video jobId) evs in
  (forall k r, processingJobs w !! k = Some r -> (r < length (heap w))%nat) ->
  (forall r, (r < length (heap w))%nat -> deref (service s) r = deref w r)
  /\ (forall k j, k <> jobId ->
        getProcessingJob (service s) k = Some j -> getProcessingJob w k = Some j).
Proof.
  intros s Hwf.
  destruct (reachable_lifecycle w input dir video jobId evs)
    as (_ & _ & _ & _ & _ & _ & _ & _ & Hframe & Hreg).
  fold s in Hframe, Hreg. split; [exact Hframe|].
  intros k j Hk. unfold getProcessingJob.
  destruct (processingJobs (service s) !! k) as [r|] eqn:Hr; [|discriminate].
  rewrite (Hreg k r Hk Hr). unfold deref. rewrite (Hframe r); [auto|].
  eapply Hwf, Hreg; eauto.
Qed.

(** X8 at a concrete input. *)
Lemma other_jobs_are_untouched_witness :
  let s := @run scenario
             (@convertToHLS scenario three_jobs "in.mp4" "hls/v1" "v1" "job-1")
             (CleanupOldJobs 24 :: failing_trace) in
  (forall r, (r < 3)%nat -> deref (service s) r = deref three_jobs r)
  /\ (forall k j, k <> "job-1" ->
        getProcessingJob (service s) k = Some j ->
        getProcessingJob three_jobs k = Some j).
Proof.
  intros s.
  apply (@other_jobs_are_untouched scenario three_jobs "in.mp4" "hls/v1" "v1"
           "job-1" (CleanupOldJobs 24 :: failing_trace)).
  intros k r Hk.
  destruct (decide (k = "a")) as [-> | Ha];
    [vm_compute in Hk; injection Hk as <-; cbn; lia|].
  destruct (decide (k = "b")) as [-> | Hb];
    [vm_compute in Hk; injection Hk as <-; cbn; lia|].
  destruct (decide (k = "c")) as [-> | Hc];
    [vm_compute in Hk; injection Hk as <-; cbn; lia|].
  unfold three_jobs in Hk. cbn [processingJobs] in Hk.
  rewrite !lookup_insert_ne in Hk by congruence. 
  rewrite lookup_empty in Hk. discriminate.
Defined.

(** X9.  Once the job is completed no later event changes the job
    object, and the call stays returned with the output paths of the job.
    (Every encode has ended by then, and an encode that has ended reports no
    progress.) *)
Theorem completed_job_is_never_modified `{Deps}
    (w : Service) (input dir video jobId : string) (evs more : list Event)
    (j : Job.t) :
  let s := run (convertToHLS w input dir video jobId) evs in
  the_job s = Some j -> Job.status j = completed ->
  the_job (run s more) = Some j
  /\ phase (call (run s more)) = Returned (Job.outputPaths j).
Proof.
  intros s Hj Hdone.
  destruct (reachable_invariant w input dir video jobId evs)
    as (j' & Hj' & _ & _ & _ & Hph).
  fold s in Hj', Hph. rewrite Hj in Hj'. injection Hj' as <-.
  unfold phase_invariant in Hph.
  destruct (phase (call s)) as [| | | paths | e0] eqn:Hphase;
    try (destruct Hph as (Hst & _); rewrite Hst in Hdone; discriminate Hdone).
  destruct Hph as (_ & _ & Hout & Hall & _).
  destruct (run_completed more s paths Hphase Hall) as [Hjob Hret].
  rewrite Hjob, Hret, Hout. auto.
Qed.

(** X9 at a concrete input. *)
Lemma completed_job_is_never_modified_witness :
  let j := Job.mk "job-1" "v1" completed 100 (Some 1000) (Some 1007) None
             ["hls/v1/360p/playlist.m3u8"; "hls/v1/240p/playlist.m3u8";
              "hls/v1/master.m3u8"; "hls/v1/thumbnail.jpg"] in
  the_job (@run scenario (@run scenario scenario_start scenario_trace) late_events)
  = Some j
  /\ phase (call (@run scenario (@run scenario scenario_start scenario_trace)
                    late_events))
     = Returned (Job.outputPaths j).
Proof.
  intros j.
  apply (@completed_job_is_never_modified scenario (fresh_service 1000)
           "in.mp4" "hls/v1" "v1" "job-1" scenario_trace late_events j).
  - vm_compute. reflexivity.
  - reflexivity.
Defined.

(** X10.  Once the job is failed, later events change nothing of the
    job but its progress (encodes that still run keep reporting); the call
    stays thrown with the error whose message the job records, and it still
    has written no file. *)
Theorem failed_job_only_changes_progress `{Deps}
    (w : Service) (input dir video jobId : string) (evs more : list Event)
    (j : Job.t) :
  let s := run (convertToHLS w input dir video jobId) evs in
  the_job s = Some j -> Job.status j = failed ->
  exists p e,
    the_job (run s more) = Some (Job.set_progress p j)
    /\ phase (call (run s more)) = Threw e
    /\ Job.error j = Some (error_message e)
    /\ files (service (run s more)) = files w.
Proof.
  intros s Hj Hfail.
  destruct (reachable_invariant w input dir video jobId evs)
    as (j' & Hj' & _ & _ & _ & Hph).
  fold s in Hj', Hph. rewrite Hj in Hj'. injection Hj' as <-.
  unfold phase_invariant in Hph.
  destruct (phase (call s)) as [| | | paths | e0] eqn:Hphase;
    try (destruct Hph as (Hst & _); rewrite Hst in Hfail; discriminate Hfail).
  destruct Hph as (_ & _ & Herr & _).
  destruct (run_failed more s e0 j Hphase Hj) as [Hthrew [p Hp]].
  exists p, e0. split; [exact Hp|]. split; [exact Hthrew|]. split; [exact Herr|].
  unfold s in Hthrew. unfold run in Hthrew. rewrite <- fold_left_app in Hthrew.
  fold (run (convertToHLS w input dir video jobId) (evs ++ more)) in Hthrew.
  destruct (reachable_invariant w input dir video jobId (evs ++ more))
    as (j2 & _ & _ & _ & _ & Hph2).
  unfold phase_invariant in Hph2. rewrite Hthrew in Hph2.
  destruct Hph2 as (_ & _ & _ & Hfiles & _).
  unfold s, run. rewrite <- fold_left_app. exact Hfiles.
Qed.

(** X10 at a concrete input. *)
Lemma failed_job_only_changes_progress_witness :
  let j := Job.mk "job-1" "v1" failed 10 (Some 1000) (Some 1000)
             (Some "ffmpeg exited with code 1") [] in
  exists p e,
    the_job (@run scenario (@run scenario scenario_start early_failure_trace)
               events_after_failure)
    = Some (Job.set_progress p j)
    /\ phase (call (@run scenario (@run scenario scenario_start early_failure_trace)
                      events_after_failure)) = Threw e
    /\ Job.error j = Some (error_message e)
    /\ files (service (@run scenario (@run scenario scenario_start early_failure_trace)
                         events_after_failure)) = ∅.
Proof.
  intros j.
  apply (@failed_job_only_changes_progress scenario (fresh_service 1000)
           "in.mp4" "hls/v1" "v1" "job-1" early_failure_trace
           events_after_failure j).
  - vm_compute. reflexivity.
  - reflexivity.
Defined.

(** X11.  The status of the job tells where the call stands: processing
    (with no error, no completion time, no output paths) while the call is
    pending, completed with the returned paths and progress 100 once it has
    returned, failed with the message of the thrown error once it has
    thrown.  The status is never queued. *)
Theorem status_tells_how_the_call_stands `{Deps}
    (w : Service) (input dir video jobId : string) (evs : list Event) :
  let s := run (convertToHLS w input dir video jobId) evs in
  exists j,
    the_job s = Some j
    /\ match phase (call s) with
       | Returned paths =>
           Job.status j = completed /\ Job.outputPaths j = paths
           /\ Job.progress j = 100
       | Threw e =>
           Job.status j = failed /\ Job.error j = Some (error_message e)
           /\ Job.outputPaths j = []
       | _ => Job.status j = processing /\ Job.outputPaths j = []
              /\ Job.error j = None /\ Job.completedAt j = None
       end.
Proof.
  intros s.
  destruct (reachable_invariant w input dir video jobId evs)
    as (j & Hj & _ & _ & _ & Hph).
  destruct (reachable_lifecycle w input dir video jobId evs)
    as (j' & Hj' & _ & _ & _ & Hrun & _).
  fold s in Hj, Hph, Hj', Hrun. rewrite Hj in Hj'. injection Hj' as <-.
  exists j. split; [exact Hj|].
  unfold phase_invariant in Hph.
  destruct (phase (call s)) as [| | | paths | e0].
  1-3: destruct Hph as (Hst & Hout & _); destruct (Hrun Hst) as (Hnone & Herr & _);
       auto.
  - destruct Hph as (Hst & Hprog & Hout & _). auto.
  - destruct Hph as (Hst & Hout & Herr & _). auto.
Qed.

(** X12.  The only file a call ever writes is the master playlist of its
    output directory, with the text of the ladder; a job that is failed has
    written no file. *)
Theorem call_writes_only_the_master_playlist `{Deps}
    (w : Service) (input dir video jobId : string) (evs : list Event) :
  let s := run (convertToHLS w input dir video jobId) evs in
  (files (service s) = files w
   \/ files (service s)
      = <[masterPlaylistPath dir := master_playlist_text ladder]> (files w))
  /\ (forall p, p <> masterPlaylistPath dir ->
                files (service s) !! p = files w !! p)
  /\ (forall j, the_job s = Some j -> Job.status j = failed ->
                files (service s) = files w).
Proof.
  intros s.
  destruct (reachable_invariant w input dir video jobId evs)
    as (j & Hj & _ & _ & _ & Hph).
  fold s in Hj, Hph. unfold phase_invariant in Hph.
  assert (Hfiles : files (service s) = files w
                   \/ files (service s)
                      = <[masterPlaylistPath dir := master_playlist_text ladder]>
                          (files w)).
  { destruct (phase (call s)); [left | left | right | right | left]; tauto. }
  split; [exact Hfiles|]. split.
  - intros p Hp. destruct Hfiles as [-> | ->]; [reflexivity|].
    now rewrite lookup_insert_ne.
  - intros j' Hj' Hfail. rewrite Hj in Hj'. injection Hj' as <-.
    destruct (phase (call s));
      try (destruct Hph as (Hst & _); rewrite Hst in Hfail; discriminate Hfail).
    tauto.
Qed.

(** X12 at a concrete input. *)
Lemma call_writes_only_the_master_playlist_witness :
  let s := @run scenario scenario_start scenario_trace in
  (files (service s) = ∅
   \/ files (service s)
      = <["hls/v1/master.m3u8" := scenario_master_bytes]> ∅)
  /\ (forall p, p <> "hls/v1/master.m3u8" -> files (service s) !! p = None)
  /\ (forall j, the_job s = Some j -> Job.status j = failed ->
                files (service s) = ∅).
Proof.
  intros s.
  apply (@call_writes_only_the_master_playlist scenario (fresh_service 1000)
           "in.mp4" "hls/v1" "v1" "job-1" scenario_trace).
Defined.

Section Ranges.
Context `{Deps}.

Lemma run_progress_range (files0 : gmap string string) (dir jobId : string)
    (evs : list Event) (s : State) :
  invariant files0 dir jobId s -> progress_invariant s ->
  Forall percent_in_range evs -> progress_invariant (run s evs).
Proof.
  revert s. induction evs as [|ev evs IH]; intros s Hinv Hprog Hevs; [exact Hprog|].
  apply Forall_cons in Hevs as [Hev Hevs].
  change (run s (ev :: evs)) with (run (step s ev) evs).
  apply IH; [now apply step_invariant | | exact Hevs].
  eapply step_progress_range; eauto.
Qed.

Lemma run_timeline (w : Service) (video jobId : string) (evs : list Event) (s : State) :
  lifecycle_invariant w video jobId s -> timeline_invariant w s ->
  Forall clock_forward evs -> timeline_invariant w (run s evs).
Proof.
  revert s. induction evs as [|ev evs IH]; intros s Hlife Htime Hevs; [exact Htime|].
  apply Forall_cons in Hevs as [Hev Hevs].
  change (run s (ev :: evs)) with (run (step s ev) evs).
  apply IH; [now apply step_lifecycle | | exact Hevs].
  apply step_timeline; [|exact Hev | exact Htime].
  destruct Hlife as (j & Hj & _). eauto.
Qed.

Lemma start_job (w : Service) (input dir video jobId : string) :
  the_job (convertToHLS w input dir video jobId)
  = Some (Job.mk jobId video processing 0 (Some (now w)) None None [])
  /\ now (service (convertToHLS w input dir video jobId)) = now w.
Proof.
  unfold convertToHLS, on_resolve, the_job, deref. cbn [call phase promises].
  destruct (forallb is_resolved (map (fun _ => MakingDir) ladder));
    cbn [set_phase service call heap job now];
    (split; [now apply list_lookup_middle | reflexivity]).
Qed.

End Ranges.

(** X13.  When every percentage the encoders report is between 0 and 100,
    the progress of the job is between 0 and 100 at every moment. *)
Theorem progress_stays_a_percentage `{Deps}
    (w : Service) (input dir video jobId : string) (evs : list Event) (j : Job.t) :
  let s := run (convertToHLS w input dir video jobId) evs in
  Forall percent_in_range evs -> the_job s = Some j ->
  0 <= Job.progress j <= 100.
Proof.
  intros s Hevs Hj.
  apply (run_progress_range (files w) dir jobId evs
           (convertToHLS w input dir video jobId)); auto.
  - apply start_invariant.
  - intros j0 Hj0. destruct (start_job w input dir video jobId) as [Hstart _].
    rewrite Hstart in Hj0. injection Hj0 as <-. cbn. lia.
Qed.

(** X13 at a concrete input. *)
Lemma progress_stays_a_percentage_witness :
  0 <= Job.progress (Job.mk "job-1" "v1" failed 75 (Some 1000) (Some 1005)
                       (Some "ffmpeg exited with code 1") []) <= 100.
Proof.
  apply (@progress_stays_a_percentage scenario (fresh_service 1000)
           "in.mp4" "hls/v1" "v1" "job-1" failing_trace).
  - unfold failing_trace. repeat constructor; cbn; try lra; discriminate.
  - vm_compute. reflexivity.
Defined.

(** X14.  When the clock does not go back, the completion time of the job
    is not before its start time and not after the current time. *)
Theorem completion_follows_start `{Deps}
    (w : Service) (input dir video jobId : string) (evs : list Event)
    (j : Job.t) (t : Z) :
  let s := run (convertToHLS w input dir video jobId) evs in
  Forall clock_forward evs -> the_job s = Some j -> Job.completedAt j = Some t ->
  Job.startedAt j = Some (now w) /\ now w <= t <= now (service s).
Proof.
  intros s Hevs Hj Ht.
  destruct (reachable_lifecycle w input dir video jobId evs)
    as (j' & Hj' & _ & _ & Hstart & _).
  fold s in Hj'. rewrite Hj in Hj'. injection Hj' as <-.
  split; [exact Hstart|].
  assert (Htime : timeline_invariant w s).
  { apply (run_timeline w video jobId); [apply start_lifecycle | | exact Hevs].
    destruct (start_job w input dir video jobId) as [Hstart0 Hnow].
    split; [lia|]. intros j0 t0 Hj0 Ht0. rewrite Hstart0 in Hj0.
    injection Hj0 as <-. discriminate Ht0. }
  destruct Htime as [_ Htimes]. exact (Htimes j t Hj Ht).
Qed.

(** X14 at a concrete input. *)
Lemma completion_follows_start_witness :
  Job.startedAt (Job.mk "job-1" "v1" failed 75 (Some 1000) (Some 1005)
                   (Some "ffmpeg exited with code 1") []) = Some 1000
  /\ 1000 <= 1005
     <= now (service (@run scenario scenario_start failing_trace)).
Proof.
  apply (@completion_follows_start scenario (fresh_service 1000)
           "in.mp4" "hls/v1" "v1" "job-1" failing_trace).
  - unfold failing_trace. repeat constructor; cbn; lia.
  - vm_compute. reflexivity.
  - reflexivity.
Defined.

(** X15.  With an empty ladder the call goes straight to writing the
    master playlist, whose text is the two header lines; the completed job
    lists the master playlist and the thumbnail only. *)
Theorem empty_ladder_gives_header_only `{Deps}
    (w : Service) (input dir video jobId : string) :
  ladder = [] ->
  let s0 := convertToHLS w input dir video jobId in
  let s := run s0 [WriteFileDone; ThumbnailEnd] in
  phase (call s0) = WritingMaster
  /\ files (service s) !! masterPlaylistPath dir = Some master_header
  /\ the_job s
     = Some (Job.mk jobId video completed 100 (Some (now w)) (Some (now w)) None
               [masterPlaylistPath dir; thumbnailPath dir]).
Proof.
  intros Hladder s0 s.
  assert (Hs0 : s0 = mkState
                  (mkService
                     (heap w ++ [Job.mk jobId video processing 0 (Some (now w))
                                   None None []])
                     (<[jobId := length (heap w)]> (processingJobs w))
                     (files w) (dirs w) (now w))
                  (mkCall (length (heap w)) input dir [] [] WritingMaster)).
  { unfold s0, convertToHLS. now rewrite Hladder. }
  split; [now rewrite Hs0|]. unfold s. rewrite Hs0.
  cbn [run fold_left step call phase outputDir].
  unfold finish, push_path, set_phase, write_file, update_job, the_job, deref.
  cbn [service call heap processingJobs files dirs now job inputPath outputDir
       outputPaths promises phase].
  rewrite lookup_insert_eq, list_lookup_alter_eq.
  rewrite list_lookup_middle by reflexivity.
  rewrite Hladder. split; reflexivity.
Qed.

(** X15 at a concrete input. *)
Lemma empty_ladder_gives_header_only_witness :
  let s0 := @convertToHLS no_ladder (fresh_service 1000) "in.mp4" "hls/v1" "v1" "job-1" in
  let s := @run no_ladder s0 [WriteFileDone; ThumbnailEnd] in
  phase (call s0) = WritingMaster
  /\ files (service s) !! "hls/v1/master.m3u8" = Some master_header
  /\ the_job s
     = Some (Job.mk "job-1" "v1" completed 100 (Some 1000) (Some 1000) None
               ["hls/v1/master.m3u8"; "hls/v1/thumbnail.jpg"]).
Proof.
  apply (@empty_ladder_gives_header_only no_ladder (fresh_service 1000)
           "in.mp4" "hls/v1" "v1" "job-1").
  reflexivity.
Defined.

(** X16.  When writing the master playlist fails, all encodes have
    succeeded, yet the job is failed with the message of that error, at the
    current time, with no output paths and no file written. *)
Theorem master_write_failure_fails_the_job `{Deps}
    (w : Service) (input dir video jobId : string) (evs : list Event) (e : thrown) :
  let s := run (convertToHLS w input dir video jobId) evs in
  phase (call s) = WritingMaster ->
  forallb is_resolved (promises (call s)) = true
  /\ exists j,
       the_job (step s (WriteFileFailed e)) = Some j
       /\ Job.status j = failed
       /\ Job.error j = Some (error_message e)
       /\ Job.completedAt j = Some (now (service s))
       /\ Job.outputPaths j = []
       /\ files (service (step s (WriteFileFailed e))) = files w
       /\ phase (call (step s (WriteFileFailed e))) = Threw e.
Proof.
  intros s Hphase.
  destruct (reachable_invariant w input dir video jobId evs)
    as (j & Hj & _ & _ & _ & Hph).
  fold s in Hj, Hph. unfold phase_invariant in Hph. rewrite Hphase in Hph.
  destruct Hph as (_ & Hout & Hall & Hfiles & _).
  split; [exact Hall|]. clearbody s.
  destruct s as [[hp reg fl ds nw] [jr ip od lp ps ph]].
  cbn [call phase service files] in *. subst ph fl.
  unfold the_job, deref in Hj. cbn [service call heap job] in Hj.
  exists (Job.fail (error_message e) nw j).
  cbn [step call phase].
  unfold catch_block, set_phase, update_job, the_job, deref.
  cbn [service call heap processingJobs files dirs now job inputPath outputDir
       outputPaths promises phase].
  rewrite list_lookup_alter_eq, Hj.
  cbn [Job.fail Job.status Job.error Job.completedAt Job.outputPaths].
  repeat (split; [first [reflexivity | assumption]|]). reflexivity.
Qed.

(** X16 at a concrete input. *)
Lemma master_write_failure_fails_the_job_witness :
  let s := @run scenario scenario_start
             [MkdirDone 0; MkdirDone 1; FfmpegEnd 1; Tick 4; FfmpegEnd 0] in
  forallb is_resolved (promises (call s)) = true
  /\ exists j,
       the_job (@step scenario s (WriteFileFailed (ErrorObject "ENOSPC"))) = Some j
       /\ Job.status j = failed
       /\ Job.error j = Some "ENOSPC"
       /\ Job.completedAt j = Some 1004
       /\ Job.outputPaths j = []
       /\ files (service (@step scenario s (WriteFileFailed (ErrorObject "ENOSPC")))) = ∅
       /\ phase (call (@step scenario s (WriteFileFailed (ErrorObject "ENOSPC"))))
          = Threw (ErrorObject "ENOSPC").
Proof.
  intros s.
  apply (@master_write_failure_fails_the_job scenario (fresh_service 1000)
           "in.mp4" "hls/v1" "v1" "job-1"
           [MkdirDone 0; MkdirDone 1; FfmpegEnd 1; Tick 4; FfmpegEnd 0]
           (ErrorObject "ENOSPC")).
  reflexivity.
Defined.

(** *** Registry: cleanups compose *)

Lemma is_old_min (w : Service) (h1 h2 : Z) (j : Job.t) :
  is_old (cutoff w (Z.min h1 h2)) j
  = is_old (cutoff w h1) j || is_old (cutoff w h2) j.
Proof.
  unfold is_old, cutoff. destruct (Job.completedAt j) as [t|]; [|reflexivity].
  destruct (Z.ltb_spec t (now w - Z.min h1 h2 * 60 * 60 * 1000)),
    (Z.ltb_spec t (now w - h1 * 60 * 60 * 1000)),
    (Z.ltb_spec t (now w - h2 * 60 * 60 * 1000)); simpl; try reflexivity; lia.
Qed.

(** X17.  Two cleanups in a row are one cleanup with the smaller age; in
    particular a cleanup run twice is the cleanup run once. *)
Theorem cleanups_compose (w : Service) (h1 h2 : Z) :
  cleanupOldJobs h1 (cleanupOldJobs h2 w) = cleanupOldJobs (Z.min h1 h2) w
  /\ cleanupOldJobs h1 (cleanupOldJobs h1 w) = cleanupOldJobs h1 w.
Proof.
  assert (Hgen : forall a b,
             cleanupOldJobs a (cleanupOldJobs b w) = cleanupOldJobs (Z.min a b) w).
  { intros a b.
    assert (Hreg : processingJobs (cleanupOldJobs a (cleanupOldJobs b w))
                   = processingJobs (cleanupOldJobs (Z.min a b) w)).
    { apply map_eq. intros k. apply option_eq. intros r.
      rewrite !cleanup_registry_lookup.
      unfold ref_is_old, deref. cbn [heap cleanupOldJobs].
      change (cutoff (cleanupOldJobs b w) a) with (cutoff w a).
      destruct (heap w !! r) as [j|]; [|tauto].
      rewrite is_old_min.
      destruct (is_old (cutoff w a) j), (is_old (cutoff w b) j); simpl; tauto. }
    transitivity (mkService (heap w)
                    (processingJobs (cleanupOldJobs a (cleanupOldJobs b w)))
                    (files w) (dirs w) (now w)); [reflexivity|].
    now rewrite Hreg. }
  split; [apply Hgen|]. rewrite Hgen. now rewrite Z.min_id.
Qed.

(** *** Numerals under [split] and [parseInt] *)

Lemma decimal_digit_is_not (c sep : ascii) :
  is_decimal_digit c = true -> is_decimal_digit sep = false ->
  Ascii.eqb c sep = false.
Proof.
  intros Hc Hsep. destruct (Ascii.eqb_spec c sep) as [-> | Hne]; [|reflexivity].
  congruence.
Qed.

Lemma split_numeral (sep : ascii) (ds : string) :
  is_decimal_digit sep = false -> all_decimal ds = true ->
  Js.split sep ds = [ds].
Proof.
  intros Hsep. induction ds as [|c ds IH]; intros Hds; [reflexivity|].
  simpl in Hds. apply andb_prop in Hds as [Hc Hds].
  cbn [Js.split]. rewrite (decimal_digit_is_not c sep Hc Hsep), (IH Hds).
  reflexivity.
Qed.

Lemma split_numeral_sep (sep : ascii) (ds rest : string) :
  is_decimal_digit sep = false -> all_decimal ds = true ->
  Js.split sep (ds +:+ String sep rest) = ds :: Js.split sep rest.
Proof.
  intros Hsep. induction ds as [|c ds IH]; intros Hds.
  - change (EmptyString +:+ String sep rest) with (String sep rest).
    cbn [Js.split]. now rewrite Ascii.eqb_refl.
  - simpl in Hds. apply andb_prop in Hds as [Hc Hds].
    change (String c ds +:+ String sep rest)
      with (String c (ds +:+ String sep rest)).
    cbn [Js.split]. rewrite (decimal_digit_is_not c sep Hc Hsep), (IH Hds).
    reflexivity.
Qed.

Lemma append_empty (s : string) : s +:+ EmptyString = s.
Proof.
  induction s as [|c s IH]; [reflexivity|].
  change (String c s +:+ EmptyString) with (String c (s +:+ EmptyString)).
  now rewrite IH.
Qed.

Lemma parse_digits_stops (c : ascii) (rest : string) (acc : option Z) :
  is_decimal_digit c = false -> Js.parse_digits 10 (String c rest) acc = acc.
Proof.
  intros Hc. cbn [Js.parse_digits]. unfold Js.digit_value, is_decimal_digit in *.
  rewrite Hc.
  destruct ((97 <=? Z.of_nat (nat_of_ascii c)) && (Z.of_nat (nat_of_ascii c) <=? 122))
    eqn:Hlow.
  - apply andb_prop in Hlow as [Hl _]. apply Z.leb_le in Hl.
    replace (Z.of_nat (nat_of_ascii c) - 87 <? 10) with false; [reflexivity|].
    symmetry. apply Z.ltb_ge. lia.
  - destruct ((65 <=? Z.of_nat (nat_of_ascii c)) && (Z.of_nat (nat_of_ascii c) <=? 90))
      eqn:Hup; [|reflexivity].
    apply andb_prop in Hup as [Hl _]. apply Z.leb_le in Hl.
    replace (Z.of_nat (nat_of_ascii c) - 55 <? 10) with false; [reflexivity|].
    symmetry. apply Z.ltb_ge. lia.
Qed.

Lemma parseInt_first_digit (c : ascii) (s : string) :
  is_decimal_digit c = true ->
  match s with
  | String c2 _ => c2 <> "x"%char /\ c2 <> "X"%char
  | EmptyString => True
  end ->
  Js.parseInt (String c s)
  = match Js.parse_digits 10 (String c s) None with
    | None => Js.NaN
    | Some v => Js.number_of v
    end.
Proof.
  intros Hc Hs. apply decimal_digit_view in Hc. simpl in Hc.
  destruct Hc as [<- | Hc].
  - destruct s as [|c2 s2]; [reflexivity|]. destruct Hs as [Hx HX].
    destruct c2 as [[] [] [] [] [] [] [] []]; try reflexivity; congruence.
  - repeat (destruct Hc as [<- | Hc]; [reflexivity |]). contradiction.
Qed.

Lemma parseInt_leading_numeral (ds rest : string) :
  is_numeral ds = true -> ends_numeral rest ->
  Js.parseInt (ds +:+ rest) = Js.number_of (numeral_value ds).
Proof.
  destruct ds as [|c ds]; [discriminate|]. intros Hds Hrest.
  assert (Hparse : Js.parse_digits 10 (String c ds +:+ rest) None
                   = Some (numeral_value (String c ds))).
  { rewrite (parse_decimal_prefix _ _ _ Hds).
    destruct rest as [|c' rest']; [reflexivity|].
    destruct Hrest as [Hc' _]. now rewrite parse_digits_stops. }
  change (String c ds +:+ rest) with (String c (ds +:+ rest)) in *.
  simpl in Hds. apply andb_prop in Hds as [Hc Hds].
  rewrite parseInt_first_digit, Hparse; [reflexivity | exact Hc |].
  destruct ds as [|c2 ds2].
  - destruct rest as [|c' rest']; [exact I|].
    destruct Hrest as (_ & Hx & HX). split; assumption.
  - simpl in Hds. apply andb_prop in Hds as [Hc2 _]. cbn.
    apply decimal_digit_view in Hc2. simpl in Hc2.
    repeat (destruct Hc2 as [<- | Hc2]; [split; discriminate |]). contradiction.
Qed.

Lemma parseInt_numeral (ds : string) :
  is_numeral ds = true -> Js.parseInt ds = Js.number_of (numeral_value ds).
Proof.
  intros Hds. rewrite <- (parseInt_leading_numeral ds EmptyString Hds I).
  now rewrite append_empty.
Qed.

Lemma Math_round_unique (x : Q) (m : Z) :
  (inject_Z m - (1 # 2) <= x)%Q -> (x < inject_Z m + (1 # 2))%Q -> Js.Math_round x = m.
Proof.
  intros Hlo Hhi. unfold Js.Math_round.
  pose proof (Qfloor_le (x + (1 # 2))) as Flo.
  pose proof (Qlt_floor (x + (1 # 2))) as Fhi.
  rewrite inject_Z_plus in Fhi. change (inject_Z 1) with 1%Q in Fhi.
  set (k := Qfloor (x + (1 # 2))) in *.
  assert (H1 : (inject_Z k < inject_Z (m + 1))%Q).
  { rewrite inject_Z_plus. change (inject_Z 1) with 1%Q. lra. }
  assert (H2 : (inject_Z m < inject_Z (k + 1))%Q).
  { rewrite inject_Z_plus. change (inject_Z 1) with 1%Q. lra. }
  rewrite <- Zlt_Qlt in H1, H2. lia.
Qed.

(** Rounding the double quotient of two integers gives the integer nearest
    to the exact quotient, when the numerator is below 2^52. *)
Lemma Math_round_quotient (n d : Z) :
  0 <= n < 2 ^ 52 -> 0 < d < 2 ^ 53 ->
  nearest_integer (Js.Math_round (Double.div (inject_Z n) (inject_Z d)))
                  (inject_Z n / inject_Z d).
Proof.
  intros Hn Hd. unfold Double.div.
  set (q := (inject_Z n / inject_Z d)%Q).
  assert (HD : (1 <= inject_Z d)%Q /\ (inject_Z d + 1 <= 9007199254740992 # 1)%Q).
  { split.
    - change 1%Q with (inject_Z 1). rewrite <- Zle_Qle. lia.
    - change (9007199254740992 # 1)%Q with (inject_Z (2 ^ 53)).
      change 1%Q with (inject_Z 1). rewrite <- inject_Z_plus, <- Zle_Qle. lia. }
  assert (HN : (0 <= inject_Z n)%Q /\ (inject_Z n + 1 <= 4503599627370496 # 1)%Q).
  { split.
    - change 0%Q with (inject_Z 0). rewrite <- Zle_Qle. lia.
    - change (4503599627370496 # 1)%Q with (inject_Z (2 ^ 52)).
      change 1%Q with (inject_Z 1). rewrite <- inject_Z_plus, <- Zle_Qle. lia. }
  assert (Hqd : (q * inject_Z d == inject_Z n)%Q) by (unfold q; field; lra).
  set (m := Js.Math_round q).
  assert (Hm : nearest_integer m q).
  { unfold m, nearest_integer, Js.Math_round.
    pose proof (Qfloor_le (q + (1 # 2))) as Flo.
    pose proof (Qlt_floor (q + (1 # 2))) as Fhi.
    rewrite inject_Z_plus in Fhi. change (inject_Z 1) with 1%Q in Fhi.
    split; lra. }
  replace (Js.Math_round (Double.RN q)) with m; [exact Hm|]. symmetry.
  destruct Hm as [Hlo Hhi].
  set (h := (1 / (2 * inject_Z d))%Q).
  assert (Hh : (h * (2 * inject_Z d) == 1)%Q) by (unfold h; field; lra).
  (* what the integers say about the distance to the two ties *)
  assert (Zup : 2 * n + 1 <= (2 * m + 1) * d).
  { assert (H : (inject_Z (2 * n) < inject_Z ((2 * m + 1) * d))%Q).
    { rewrite !inject_Z_mult, inject_Z_plus, inject_Z_mult.
      change (inject_Z 2) with 2%Q. change (inject_Z 1) with 1%Q.
      set (M := inject_Z m) in *. set (D := inject_Z d) in *.
      set (N := inject_Z n) in *. nra. }
    rewrite <- Zlt_Qlt in H. lia. }
  assert (Zlo : (2 * m - 1) * d <= 2 * n).
  { assert (H : (inject_Z ((2 * m + -1) * d) <= inject_Z (2 * n))%Q).
    { rewrite !inject_Z_mult, inject_Z_plus, inject_Z_mult.
      change (inject_Z 2) with 2%Q. change (inject_Z (-1)) with (-1 # 1)%Q.
      set (M := inject_Z m) in *. set (D := inject_Z d) in *.
      set (N := inject_Z n) in *. nra. }
    rewrite <- Zle_Qle in H. lia. }
  assert (Qup : (q + h <= inject_Z m + (1 # 2))%Q).
  { assert (H : (inject_Z (2 * n + 1) <= inject_Z ((2 * m + 1) * d))%Q)
      by (rewrite <- Zle_Qle; exact Zup).
    rewrite inject_Z_mult, !inject_Z_plus, !inject_Z_mult in H.
    change (inject_Z 2) with 2%Q in H. change (inject_Z 1) with 1%Q in H.
    set (M := inject_Z m) in *. set (D := inject_Z d) in *.
    set (N := inject_Z n) in *. nra. }
  destruct (Z.eq_dec n 0) as [Hn0 | Hn0].
  - assert (Hq0 : (q == 0)%Q) by (unfold q; rewrite Hn0; field; lra).
    pose proof (DoubleFacts.RN_zero q Hq0) as Hr.
    apply Math_round_unique; lra.
  - assert (HN1 : (1 <= inject_Z n)%Q).
    { change 1%Q with (inject_Z 1). rewrite <- Zle_Qle. lia. }
    assert (Hnormal : (2 ^ (-1022) <= q)%Q).
    { assert (Hsmall : (2 ^ (-1022) <= 1 # 9007199254740992)%Q)
        by (vm_compute; discriminate).
      assert (Hq1 : (1 # 9007199254740992 <= q)%Q).
      { set (D := inject_Z d) in *. set (N := inject_Z n) in *. nra. }
      lra. }
    pose proof (DoubleFacts.RN_relative q Hnormal) as [E1 E2].
    unfold Double.epsilon in E1, E2.
    assert (Herr : (q * (1 # 9007199254740992) < h)%Q).
    { set (D := inject_Z d) in *. set (N := inject_Z n) in *. nra. }
    apply Math_round_unique; [|lra].
    destruct (Z.eq_dec (2 * n) ((2 * m - 1) * d)) as [Htie | Hnot].
    + (* the quotient is half an odd integer, which is a double *)
      assert (Hq : (q == inject_Z (2 * m - 1) * 2 ^ (-1))%Q).
      { assert (H : (inject_Z (2 * n) == inject_Z ((2 * m + -1) * d))%Q).
        { replace ((2 * m + -1) * d) with ((2 * m - 1) * d) by lia.
          now rewrite Htie. }
        rewrite !inject_Z_mult, inject_Z_plus, inject_Z_mult in H.
        replace (2 * m - 1) with (2 * m + -1) by lia.
        rewrite inject_Z_plus, inject_Z_mult.
        change (inject_Z 2) with 2%Q in *. change (inject_Z (-1)) with (-1 # 1)%Q in *.
        change (2 ^ (-1))%Q with (1 # 2)%Q.
        set (M := inject_Z m) in *. set (D := inject_Z d) in *.
        set (N := inject_Z n) in *.
        apply Qle_antisym; nra. }
      assert (Hrep : Double.representable q).
      { exists (2 * m - 1), (-1). split; [|split; [lia | exact Hq]].
        assert (Hmn : (inject_Z m < inject_Z (n + 1))%Q).
        { rewrite inject_Z_plus. change (inject_Z 1) with 1%Q.
          set (M := inject_Z m) in *. set (D := inject_Z d) in *.
          set (N := inject_Z n) in *. nra. }
        assert (Hm0 : (inject_Z (-1) < inject_Z m)%Q).
        { change (inject_Z (-1)) with (-1 # 1)%Q.
          set (M := inject_Z m) in *. set (D := inject_Z d) in *.
          set (N := inject_Z n) in *. nra. }
        rewrite <- Zlt_Qlt in Hmn, Hm0.
        change (2 ^ 52) with 4503599627370496 in Hn.
        change (2 ^ 53) with 9007199254740992. lia. }
      rewrite (DoubleFacts.RN_exact q Hrep). exact Hlo.
    + assert (Qlo : (inject_Z m - (1 # 2) + h <= q)%Q).
      { assert (H : (inject_Z ((2 * m + -1) * d + 1) <= inject_Z (2 * n))%Q)
          by (rewrite <- Zle_Qle; lia).
        rewrite inject_Z_plus, !inject_Z_mult, inject_Z_plus, inject_Z_mult in H.
        change (inject_Z 2) with 2%Q in H. change (inject_Z 1) with 1%Q in H.
        change (inject_Z (-1)) with (-1 # 1)%Q in H.
        set (M := inject_Z m) in *. set (D := inject_Z d) in *.
        set (N := inject_Z n) in *. nra. }
      lra.
Qed.

Lemma Math_round_integer (n : Z) :
  Z.abs n <= 2 ^ 53 -> Js.Math_round (Double.div (inject_Z n) (inject_Z 1)) = n.
Proof.
  intros Hn. unfold Double.div.
  assert (Hq : (inject_Z n / inject_Z 1 == inject_Z n)%Q)
    by (change (inject_Z 1) with 1%Q; field).
  assert (Hrep : Double.representable (inject_Z n / inject_Z 1)).
  { destruct (DoubleFacts.representable_integer n Hn) as (M & F & HM & HF & HMF).
    exists M, F. split; [exact HM|]. split; [exact HF|]. now rewrite Hq. }
  pose proof (DoubleFacts.RN_exact _ Hrep) as Hr.
  apply Math_round_unique; lra.
Qed.

(** The number of a positive integer is positive. *)
Lemma number_of_positive (v : Z) :
  0 < v -> Js.number_of v = Js.PosInf \/ exists r, Js.number_of v = Js.Int r /\ 0 < r.
Proof.
  intros Hv. destruct (Z_le_gt_dec v (2 ^ 53)) as [Hsmall | Hbig].
  - right. exists v. split; [apply number_of_exact; lia | exact Hv].
  - unfold Js.number_of. replace (0 <? v) with true by (symmetry; apply Z.ltb_lt; lia).
    destruct (Qle_bool _ _); [now left | right].
    eexists. split; [reflexivity|].
    assert (Hq : (9007199254740992 # 1 <= inject_Z v)%Q).
    { change (9007199254740992 # 1)%Q with (inject_Z (2 ^ 53)). rewrite <- Zle_Qle. lia. }
    assert (Hnormal : (2 ^ (-1022) <= inject_Z v)%Q).
    { assert (Hs : (2 ^ (-1022) <= 1)%Q) by (vm_compute; discriminate). lra. }
    pose proof (DoubleFacts.RN_relative _ Hnormal) as [_ E].
    unfold Double.epsilon in E.
    assert (H1 : (inject_Z 1 <= Double.RN (inject_Z v))%Q).
    { change (inject_Z 1) with 1%Q. lra. }
    apply Qfloor_resp_le in H1. rewrite Qfloor_Z in H1. lia.
Qed.

Lemma numeral_nonempty_or (ds d : string) :
  is_numeral ds = true -> Js.str_or (Some ds) d = ds.
Proof. destruct ds; [discriminate | reflexivity]. Qed.

Lemma numeral_all_decimal (ds : string) : is_numeral ds = true -> all_decimal ds = true.
Proof. destruct ds; [discriminate | auto]. Qed.

Lemma parseFrameRate_fraction (n d : string) :
  is_numeral n = true -> is_numeral d = true ->
  parseFrameRate (Some (n +:+ "/" +:+ d))
  = Js.round_div (Js.number_of (numeral_value n)) (Js.number_of (numeral_value d)).
Proof.
  intros Hn Hd.
  pose proof (numeral_all_decimal n Hn) as Hn'.
  pose proof (numeral_all_decimal d Hd) as Hd'.
  assert (Hsplit : Js.split "/" (n +:+ "/" +:+ d) = [n; d]).
  { change ("/" +:+ d) with (String "/" d).
    now rewrite split_numeral_sep, split_numeral. }
  unfold parseFrameRate.
  destruct (n +:+ "/" +:+ d) as [|c rest] eqn:Hs.
  - destruct n; discriminate.
  - rewrite Hsplit. cbn [lookup list_lookup default].
    change ([n; d] !! 0%nat) with (Some n).
    change ([n; d] !! 1%nat) with (Some d).
    cbn [default]. unfold id.
    now rewrite !numeral_nonempty_or, !parseInt_numeral.
Qed.

(** X1.  For a frame rate written as two decimal numerals around a slash,
    the numerator below 2^52, the denominator below 2^53 and not zero,
    [parseFrameRate] yields the integer nearest to the quotient, a tie going
    up: within these bounds the rounding of the quotient to a double does
    not change the nearest integer. *)
Theorem frame_rate_is_rounded_quotient (n d : string) :
  is_numeral n = true -> is_numeral d = true ->
  numeral_value n < 2 ^ 52 -> numeral_value d < 2 ^ 53 -> numeral_value d <> 0 ->
  exists r,
    parseFrameRate (Some (n +:+ "/" +:+ d)) = Js.Int r
    /\ nearest_integer r (inject_Z (numeral_value n) / inject_Z (numeral_value d)).
Proof.
  intros Hn Hd Bn Bd Hnz. rewrite (parseFrameRate_fraction n d Hn Hd).
  pose proof (numeral_value_nonneg n (numeral_all_decimal n Hn)) as Pn.
  pose proof (numeral_value_nonneg d (numeral_all_decimal d Hd)) as Pd.
  rewrite !number_of_exact by lia.
  unfold Js.round_div. rewrite (proj2 (Z.eqb_neq _ _) Hnz).
  eexists. split; [reflexivity|]. apply Math_round_quotient; lia.
Qed.

(** X1 at a concrete input. *)
Lemma frame_rate_is_rounded_quotient_witness :
  exists r,
    parseFrameRate (Some ("30000" +:+ "/" +:+ "1001")) = Js.Int r
    /\ nearest_integer r (inject_Z (numeral_value "30000")
                          / inject_Z (numeral_value "1001")).
Proof.
  apply (frame_rate_is_rounded_quotient "30000" "1001");
    [reflexivity | reflexivity | reflexivity | reflexivity | vm_compute; discriminate].
Defined.

(** X2.  [parseFrameRate] does not guard the division: with a zero
    denominator it yields NaN when the numerator is zero and Infinity
    otherwise. *)
Theorem frame_rate_with_zero_denominator (n d : string) :
  is_numeral n = true -> is_numeral d = true -> numeral_value d = 0 ->
  parseFrameRate (Some (n +:+ "/" +:+ d))
  = if numeral_value n =? 0 then Js.NaN else Js.PosInf.
Proof.
  intros Hn Hd Hz. rewrite (parseFrameRate_fraction n d Hn Hd).
  rewrite Hz. rewrite (number_of_exact 0) by (vm_compute; discriminate).
  pose proof (numeral_value_nonneg n (numeral_all_decimal n Hn)) as Hpos.
  destruct (numeral_value n =? 0) eqn:Hn0.
  - apply Z.eqb_eq in Hn0. rewrite Hn0.
    rewrite (number_of_exact 0) by (vm_compute; discriminate). reflexivity.
  - apply Z.eqb_neq in Hn0.
    destruct (number_of_positive (numeral_value n)) as [-> | (r & -> & Hr)];
      [lia | reflexivity |].
    unfold Js.round_div. cbn [Z.eqb].
    replace (r =? 0) with false by (symmetry; apply Z.eqb_neq; lia).
    replace (0 <? r) with true by (symmetry; apply Z.ltb_lt; lia).
    reflexivity.
Qed.

(** X2 at a concrete input. *)
Lemma frame_rate_with_zero_denominator_witness :
  parseFrameRate (Some ("30" +:+ "/" +:+ "0")) = Js.PosInf
  /\ parseFrameRate (Some ("0" +:+ "/" +:+ "0")) = Js.NaN.
Proof.
  split.
  - apply (frame_rate_with_zero_denominator "30" "0"); reflexivity.
  - apply (frame_rate_with_zero_denominator "0" "0"); reflexivity.
Defined.

(** X3.  A frame rate that is one decimal numeral of at most 2^53, with or
    without a slash after it, is read as that number; an empty or absent
    frame rate is 0. *)
Theorem frame_rate_of_plain_numeral (n : string) :
  is_numeral n = true -> numeral_value n <= 2 ^ 53 ->
  parseFrameRate (Some n) = Js.Int (numeral_value n)
  /\ parseFrameRate (Some (n +:+ "/")) = Js.Int (numeral_value n)
  /\ parseFrameRate (Some EmptyString) = Js.Int 0
  /\ parseFrameRate None = Js.Int 0.
Proof.
  intros Hn Bn. pose proof (numeral_all_decimal n Hn) as Hn'.
  pose proof (numeral_value_nonneg n Hn') as Pn.
  assert (Hone : Js.round_div (Js.number_of (numeral_value n)) (Js.parseInt "1")
                 = Js.Int (numeral_value n)).
  { rewrite number_of_exact by lia.
    replace (Js.parseInt "1") with (Js.Int 1) by (vm_compute; reflexivity).
    unfold Js.round_div. cbn [Z.eqb]. rewrite Math_round_integer by lia.
    reflexivity. }
  split; [|split; [|split; reflexivity]].
  - unfold parseFrameRate. destruct n as [|c n'] eqn:Hs; [discriminate|].
    rewrite <- Hs in *. rewrite (split_numeral "/" n eq_refl Hn').
    change ([n] !! 0%nat) with (Some n). change ([n] !! 1%nat) with (@None string).
    cbn [default]. rewrite numeral_nonempty_or by exact Hn.
    rewrite (parseInt_numeral n Hn). exact Hone.
  - unfold parseFrameRate. destruct (n +:+ "/") as [|c r] eqn:Hs.
    + destruct n; discriminate.
    + rewrite <- Hs. change (n +:+ "/") with (n +:+ String "/" EmptyString).
      rewrite (split_numeral_sep "/" n EmptyString eq_refl Hn').
      cbn [Js.split].
      change ([n; EmptyString] !! 0%nat) with (Some n).
      change ([n; EmptyString] !! 1%nat) with (Some EmptyString).
      cbn [default]. unfold id. rewrite numeral_nonempty_or by exact Hn.
      rewrite (parseInt_numeral n Hn). exact Hone.
Qed.

(** X3 at a concrete input. *)
Lemma frame_rate_of_plain_numeral_witness :
  parseFrameRate (Some "25") = Js.Int 25
  /\ parseFrameRate (Some ("25" +:+ "/")) = Js.Int 25
  /\ parseFrameRate (Some EmptyString) = Js.Int 0
  /\ parseFrameRate None = Js.Int 0.
Proof.
  apply (frame_rate_of_plain_numeral "25"); [reflexivity | vm_compute; discriminate].
Defined.

(** *** Lines of the master playlist *)

Lemma masterContent_blocks (l : list Variant) :
  masterContent l
  = ["#EXTM3U"; "#EXT-X-VERSION:3"; EmptyString]
    ++ flat_map (fun v => [stream_inf_line v; playlist_line v; EmptyString]) l.
Proof.
  unfold masterContent.
  now rewrite (fold_push_blocks
                 (fun v => [stream_inf_line v; playlist_line v; EmptyString])).
Qed.

Lemma blocks_lookup (l : list Variant) (k : nat) (v : Variant) :
  l !! k = Some v ->
  let blocks := flat_map (fun v => [stream_inf_line v; playlist_line v; EmptyString]) l in
  blocks !! (3 * k)%nat = Some (stream_inf_line v)
  /\ blocks !! (3 * k + 1)%nat = Some (playlist_line v)
  /\ blocks !! (3 * k + 2)%nat = Some EmptyString.
Proof.
  revert k. induction l as [|v0 l IH]; intros k Hk; [discriminate|].
  destruct k as [|k].
  - injection Hk as ->. repeat split; reflexivity.
  - cbn [lookup list_lookup] in Hk. specialize (IH k Hk). cbn zeta in *.
    destruct IH as (H1 & H2 & H3).
    replace (3 * S k)%nat with (S (S (S (3 * k)))) by lia.
    repeat split; assumption.
Qed.

(** X4.  The array of lines of the master playlist has three header
    elements and three elements per ladder entry; the stream line, the
    playlist line and the empty line of entry [k] are at indices [3 + 3k],
    [4 + 3k] and [5 + 3k]. *)
Theorem master_lines_follow_the_ladder (l : list Variant) :
  length (masterContent l) = (3 + 3 * length l)%nat
  /\ forall k v,
       l !! k = Some v ->
       masterContent l !! (3 + 3 * k)%nat = Some (stream_inf_line v)
       /\ masterContent l !! (4 + 3 * k)%nat = Some (playlist_line v)
       /\ masterContent l !! (5 + 3 * k)%nat = Some EmptyString.
Proof.
  rewrite masterContent_blocks. split.
  - cbn [app length]. do 3 f_equal.
    induction l as [|v l IH]; [reflexivity|]. cbn [flat_map app length].
    rewrite IH. lia.
  - intros k v Hk. destruct (blocks_lookup l k v Hk) as (H1 & H2 & H3).
    replace (4 + 3 * k)%nat with (3 + (3 * k + 1))%nat by lia.
    replace (5 + 3 * k)%nat with (3 + (3 * k + 2))%nat by lia.
    repeat split; assumption.
Qed.

(** X4 at a concrete input. *)
Lemma master_lines_follow_the_ladder_witness :
  masterContent BITRATE_LADDER !! (3 + 3 * 4)%nat
  = Some (stream_inf_line (mkVariant "1920x1080" "5000k" "192k" "1080p"))
  /\ masterContent BITRATE_LADDER !! (4 + 3 * 4)%nat
     = Some (playlist_line (mkVariant "1920x1080" "5000k" "192k" "1080p"))
  /\ masterContent BITRATE_LADDER !! (5 + 3 * 4)%nat = Some EmptyString.
Proof.
  apply (proj2 (master_lines_follow_the_ladder BITRATE_LADDER) 4%nat). reflexivity.
Defined.

(** *** Units other than [k] *)

Lemma replace_absent (s : string) :
  contains_char "k" s = false -> Js.replace "k" "000" s = s.
Proof.
  induction s as [|c s IH]; intros Hs; [reflexivity|].
  cbn [contains_char] in Hs. apply orb_false_elim in Hs as [Hc Hs].
  cbn [Js.replace Js.strip_prefix]. rewrite Ascii.eqb_sym, Hc. now rewrite (IH Hs).
Qed.

Lemma contains_char_app (c : ascii) (a b : string) :
  contains_char c (a +:+ b) = contains_char c a || contains_char c b.
Proof.
  induction a as [|x a IH]; [reflexivity|].
  change (String x a +:+ b) with (String x (a +:+ b)). cbn [contains_char].
  now rewrite IH, orb_assoc.
Qed.

Lemma numeral_has_no_k (ds : string) :
  all_decimal ds = true -> contains_char "k" ds = false.
Proof.
  induction ds as [|c ds IH]; intros Hds; [reflexivity|].
  simpl in Hds. apply andb_prop in Hds as [Hc Hds]. cbn [contains_char].
  rewrite (IH Hds), orb_false_r.
  apply decimal_digit_view in Hc. simpl in Hc.
  repeat (destruct Hc as [<- | Hc]; [reflexivity |]). contradiction.
Qed.

Lemma bitrate_without_k (ds unit : string) :
  is_numeral ds = true -> contains_char "k" unit = false -> ends_numeral unit ->
  Js.parseInt (Js.replace "k" "000" (ds +:+ unit)) = Js.number_of (numeral_value ds).
Proof.
  intros Hds Hk Hend. rewrite replace_absent.
  - now apply parseInt_leading_numeral.
  - rewrite contains_char_app, Hk, orb_false_r.
    now apply numeral_has_no_k, numeral_all_decimal.
Qed.

(** X5.  Only a lower-case [k] is a unit for the bandwidth.  A bitrate
    that is a numeral followed by anything without a [k] (no unit, [M],
    [K], ...) counts as the bare numeral.  The bound keeps the sum among
    the integers a JavaScript number holds exactly. *)
Theorem only_lowercase_k_scales (v : Variant) (video vunit audio aunit : string) :
  is_numeral video = true -> is_numeral audio = true ->
  videoBitrate v = video +:+ vunit -> audioBitrate v = audio +:+ aunit ->
  contains_char "k" vunit = false -> ends_numeral vunit ->
  contains_char "k" aunit = false -> ends_numeral aunit ->
  numeral_value video + numeral_value audio <= 2 ^ 53 ->
  bandwidth v = Js.Int (numeral_value video + numeral_value audio).
Proof.
  intros Hv Ha Ev Ea Hkv Hev Hka Hea Hsum. unfold bandwidth. rewrite Ev, Ea.
  pose proof (numeral_value_nonneg video (numeral_all_decimal video Hv)) as Pv.
  pose proof (numeral_value_nonneg audio (numeral_all_decimal audio Ha)) as Pa.
  rewrite !bitrate_without_k by assumption.
  rewrite !number_of_exact by lia. cbn [Js.add].
  now rewrite number_of_exact by lia.
Qed.

(** X5 at a concrete input. *)
Lemma only_lowercase_k_scales_witness :
  bandwidth (mkVariant "1920x1080" "5M" "192K" "1080p") = Js.Int (5 + 192).
Proof.
  apply (only_lowercase_k_scales (mkVariant "1920x1080" "5M" "192K" "1080p")
           "5" "M" "192" "K");
    try reflexivity; try (vm_compute; discriminate); cbn; repeat split; discriminate.
Defined.

(** *** Pages of the listing *)

Lemma slice_forward {A : Type} (a m : Z) (l : list A) :
  0 <= a -> 0 <= m ->
  Array_slice a (a + m) l = take (Z.to_nat m) (drop (Z.to_nat a) l).
Proof.
  intros Ha Hm. unfold Array_slice.
  replace (a <? 0) with false by (symmetry; apply Z.ltb_ge; lia).
  replace (a + m <? 0) with false by (symmetry; apply Z.ltb_ge; lia).
  set (len := Z.of_nat (length l)).
  destruct (Z_le_gt_dec len a) as [Hout | Hin].
  - rewrite (drop_ge l (Z.to_nat a)) by lia.
    rewrite (drop_ge l (Z.to_nat (Z.min a len))) by lia.
    now rewrite !take_nil.
  - replace (Z.min a len) with a by lia.
    destruct (Z_le_gt_dec (a + m) len) as [Hfit | Hover].
    + f_equal. lia.
    + rewrite !take_ge; [reflexivity | |]; rewrite length_drop; lia.
Qed.

Lemma pages_concat {A : Type} (m n : nat) (l : list A) :
  concat (map (fun i => take m (drop (i * m) l)) (seq 0 n)) = take (n * m) l.
Proof.
  induction n as [|n IH]; [reflexivity|].
  rewrite seq_S, map_app, concat_app, IH. cbn [map concat plus].
  rewrite app_nil_r. 
  replace (S n * m)%nat with (n * m + m)%nat by lia.
  now rewrite take_take_drop.
Qed.

Lemma ceiling_covers (total limit : Z) :
  0 <= total -> 0 < limit ->
  0 <= Qceiling (inject_Z total / inject_Z limit)
  /\ total <= Qceiling (inject_Z total / inject_Z limit) * limit.
Proof.
  intros Ht Hl.
  assert (HlQ : (0 < inject_Z limit)%Q).
  { change 0%Q with (inject_Z 0). now rewrite <- Zlt_Qlt. }
  assert (HtQ : (0 <= inject_Z total)%Q).
  { change 0%Q with (inject_Z 0). now rewrite <- Zle_Qle. }
  pose proof (Qle_ceiling (inject_Z total / inject_Z limit)) as Hc.
  set (c := Qceiling (inject_Z total / inject_Z limit)) in *.
  assert (Hq : (0 <= inject_Z total / inject_Z limit)%Q).
  { apply Qle_shift_div_l; [exact HlQ|]. now rewrite Qmult_0_l. }
  split.
  - rewrite Zle_Qle. change (inject_Z 0) with 0%Q.
    eapply Qle_trans; [exact Hq | exact Hc].
  - rewrite Zle_Qle, inject_Z_mult.
    assert (Heq : (inject_Z total
                   == inject_Z total / inject_Z limit * inject_Z limit)%Q).
    { field. intros Hz. rewrite Hz in HlQ. now apply Qlt_irrefl in HlQ. }
    rewrite Heq at 1. apply Qmult_le_compat_r; [exact Hc | now apply Qlt_le_weak].
Qed.

(** X23.  For a page number of at least 1 and a limit of at least 0, the
    page of [getVideos] is the [limit] records after the first
    [(page - 1) * limit]: at most [limit] records, none beyond the end; the
    total is the number of all records. *)
Theorem page_is_its_slice (videos : list VideoMetadata.t) (page limit : Z) :
  1 <= page -> 0 <= limit ->
  let '(data, meta) := getVideos videos (Some page) (Some limit) in
  data = take (Z.to_nat limit) (drop (Z.to_nat ((page - 1) * limit)) videos)
  /\ Z.of_nat (length data) <= limit
  /\ (Z.of_nat (length videos) <= (page - 1) * limit -> data = [])
  /\ pg_total meta = Z.of_nat (length videos).
Proof.
  intros Hp Hl. cbn [getVideos default]. unfold id.
  rewrite slice_forward by nia.
  split; [reflexivity|]. split; [|split; [|reflexivity]].
  - rewrite length_take. lia.
  - intros Hout. rewrite drop_ge by lia. apply take_nil.
Qed.

(** X23 at a concrete input. *)
Lemma page_is_its_slice_witness :
  let '(data, meta) := getVideos (numbered_videos 7) (Some 3) (Some 3) in
  data = take (Z.to_nat 3) (drop (Z.to_nat ((3 - 1) * 3)) (numbered_videos 7))
  /\ Z.of_nat (length data) <= 3
  /\ (Z.of_nat (length (numbered_videos 7)) <= (3 - 1) * 3 -> data = [])
  /\ pg_total meta = Z.of_nat (length (numbered_videos 7)).
Proof. apply (page_is_its_slice (numbered_videos 7) 3 3); lia. Defined.

(** X24.  For a limit of at least 1, the pages 1 to [totalPages], one
    after the other, are the whole listing. *)
Theorem pages_cover_the_listing (videos : list VideoMetadata.t) (limit : Z) :
  1 <= limit ->
  exists n : nat,
    pg_totalPages (getVideos videos (Some 1) (Some limit)).2 = Js.Int (Z.of_nat n)
    /\ concat (map (fun p => (getVideos videos (Some (Z.of_nat p)) (Some limit)).1)
                   (seq 1 n))
       = videos.
Proof.
  intros Hl.
  destruct (ceiling_covers (Z.of_nat (length videos)) limit) as [Hc0 Hcov]; [lia..|].
  set (c := Qceiling (inject_Z (Z.of_nat (length videos)) / inject_Z limit)) in *.
  exists (Z.to_nat c). split.
  - cbn [getVideos snd pg_totalPages default]. unfold id, ceil_div.
    replace (limit =? 0) with false by (symmetry; apply Z.eqb_neq; lia).
    fold c. now rewrite Z2Nat.id.
  - rewrite <- seq_shift, map_map.
    rewrite (map_ext _ (fun i => take (Z.to_nat limit) (drop (i * Z.to_nat limit) videos))).
    + rewrite pages_concat. apply take_ge. nia.
    + intros i. cbn [getVideos fst default]. unfold id.
      rewrite slice_forward by nia. do 2 f_equal. nia.
Qed.

(** X24 at a concrete input. *)
Lemma pages_cover_the_listing_witness :
  exists n : nat,
    pg_totalPages (getVideos (numbered_videos 7) (Some 1) (Some 3)).2
    = Js.Int (Z.of_nat n)
    /\ concat (map (fun p => (getVideos (numbered_videos 7) (Some (Z.of_nat p))
                                (Some 3)).1)
                   (seq 1 n))
       = numbered_videos 7.
Proof. apply (pages_cover_the_listing (numbered_videos 7) 3). lia. Defined.

(** X25.  [getVideos] does not reject a page number below 1: page 0 is
    empty, and a negative page is cut from the end of the listing. *)
Theorem nonpositive_page_counts_from_the_end
    (videos : list VideoMetadata.t) (page limit : Z) :
  1 <= limit -> page <= 0 ->
  (page = 0 -> (getVideos videos (Some page) (Some limit)).1 = [])
  /\ (page < 0 -> (1 - page) * limit <= Z.of_nat (length videos) ->
      (getVideos videos (Some page) (Some limit)).1
      = take (Z.to_nat limit)
          (drop (Z.to_nat (Z.of_nat (length videos) - (1 - page) * limit)) videos)).
Proof.
  intros Hl Hp. cbn [getVideos fst default]. unfold id, Array_slice.
  set (len := Z.of_nat (length videos)).
  replace ((page - 1) * limit <? 0) with true by (symmetry; apply Z.ltb_lt; nia).
  split.
  - intros ->. replace ((0 - 1) * limit + limit <? 0) with false
      by (symmetry; apply Z.ltb_ge; lia).
    replace (Z.to_nat _) with 0%nat by lia. reflexivity.
  - intros Hneg Hlen.
    replace ((page - 1) * limit + limit <? 0) with true
      by (symmetry; apply Z.ltb_lt; nia).
    f_equal; [|f_equal]; nia.
Qed.

(** X25 at a concrete input. *)
Lemma nonpositive_page_counts_from_the_end_witness :
  (getVideos (numbered_videos 7) (Some 0) (Some 2)).1 = []
  /\ (getVideos (numbered_videos 7) (Some (-1)) (Some 2)).1
     = take (Z.to_nat 2)
         (drop (Z.to_nat (Z.of_nat (length (numbered_videos 7)) - (1 - -1) * 2))
               (numbered_videos 7)).
Proof.
  split.
  - apply (proj1 (nonpositive_page_counts_from_the_end (numbered_videos 7) 0 2
                    ltac:(lia) ltac:(lia))). reflexivity.
  - apply (proj2 (nonpositive_page_counts_from_the_end (numbered_videos 7) (-1) 2
                    ltac:(lia) ltac:(lia))).
    + lia.
    + vm_compute. discriminate.
Defined.

(** *** The range header *)

Lemma parseInt10_numeral (ds : string) :
  is_numeral ds = true -> parseInt10 ds = Js.number_of (numeral_value ds).
Proof.
  destruct ds as [|c ds]; [discriminate|]. intros Hds.
  assert (Hparse : Js.parse_digits 10 (String c ds) None
                   = Some (numeral_value (String c ds))).
  { rewrite <- (append_empty (String c ds)) at 1.
    now rewrite (parse_decimal_prefix _ _ _ Hds). }
  assert (Hshape : parseInt10 (String c ds)
                   = match Js.parse_digits 10 (String c ds) None with
                     | None => Js.NaN
                     | Some v => Js.number_of v
                     end).
  { simpl in Hds. apply andb_prop in Hds as [Hc _].
    apply decimal_digit_view in Hc. simpl in Hc.
    repeat (destruct Hc as [<- | Hc]; [reflexivity |]). contradiction. }
  now rewrite Hshape, Hparse.
Qed.

Lemma parseInt10_exact (ds : string) :
  is_numeral ds = true -> numeral_value ds < 2 ^ 53 ->
  parseInt10 ds = Js.Int (numeral_value ds).
Proof.
  intros Hds Hb. rewrite (parseInt10_numeral ds Hds).
  pose proof (numeral_value_nonneg ds (numeral_all_decimal ds Hds)).
  apply number_of_exact. lia.
Qed.

Lemma range_parts (a rest : string) :
  all_decimal a = true ->
  Js.split "-" (Js.replace "bytes=" EmptyString ("bytes=" +:+ a +:+ "-" +:+ rest))
  = a :: Js.split "-" rest.
Proof.
  intros Ha.
  change (Js.replace "bytes=" EmptyString ("bytes=" +:+ a +:+ "-" +:+ rest))
    with (a +:+ String "-" rest).
  now apply split_numeral_sep.
Qed.

(** The length of a chunk whose bounds are exact: no rounding happens. *)
Lemma chunk_size_exact (start finish : Z) :
  - 2 ^ 53 <= finish - start < 2 ^ 53 ->
  Js.add (number_sub (Js.Int finish) (Js.Int start)) (Js.Int 1)
  = Js.Int (finish - start + 1).
Proof.
  intros Hb. cbn [number_sub]. rewrite number_of_exact by lia.
  cbn [Js.add]. apply number_of_exact. lia.
Qed.




Lemma open_range_head (a : string) (fileSize : Z) :
  is_numeral a = true -> numeral_value a < 2 ^ 53 -> 0 <= fileSize <= 2 ^ 53 ->
  stream_head (Some ("bytes=" +:+ a +:+ "-")) fileSize
  = mkHead 206 (Some (Js.Int (numeral_value a))) (Some (Js.Int (fileSize - 1)))
      (Some ("bytes " +:+ Js.Z_to_string (numeral_value a) +:+ "-"
             +:+ Js.Z_to_string (fileSize - 1) +:+ "/"
             +:+ Js.Z_to_string fileSize))
      (Js.Int (fileSize - 1 - numeral_value a + 1)).
Proof.
  intros Ha Ba Hsize.
  pose proof (numeral_value_nonneg a (numeral_all_decimal a Ha)) as Pa.
  pose proof (range_parts a EmptyString (numeral_all_decimal a Ha)) as Hparts.
  cbn [Js.split] in Hparts.
  unfold stream_head.
  change ("bytes=" +:+ a +:+ "-")
    with (String "b" ("ytes=" +:+ a +:+ "-")) at 1.
  cbv iota beta.
  change (String "b" ("ytes=" +:+ a +:+ "-")) with ("bytes=" +:+ a +:+ "-").
  change ("bytes=" +:+ a +:+ "-") with ("bytes=" +:+ a +:+ "-" +:+ EmptyString).
  rewrite Hparts.
  change ([a; EmptyString] !! 0%nat) with (Some a).
  change ([a; EmptyString] !! 1%nat) with (Some EmptyString).
  rewrite numeral_nonempty_or by exact Ha.
  rewrite (parseInt10_exact a Ha Ba). cbv zeta iota.
  cbn [number_sub]. rewrite (number_of_exact (fileSize - 1)) by lia.
  rewrite chunk_size_exact by lia. reflexivity.
Qed.

(** X27.  For a range header with a start only, a numeral below 2^53, and
    a file of at most 2^53 bytes, the end of the read stream is the last
    byte of the file; if the stream is created the answer is 206 with the
    length from the start to the end of the file, and otherwise the error
    500 VIDEO_STREAM_ERROR. *)
Theorem open_range_ends_at_the_last_byte
    (createReadStream : Js.number -> Js.number -> bool)
    (a : string) (fileSize : Z) :
  is_numeral a = true -> numeral_value a < 2 ^ 53 -> 0 <= fileSize <= 2 ^ 53 ->
  streamVideo createReadStream (Some ("bytes=" +:+ a +:+ "-")) fileSize
  = if createReadStream (Js.Int (numeral_value a)) (Js.Int (fileSize - 1))
    then HeadWritten
           (mkHead 206 (Some (Js.Int (numeral_value a)))
              (Some (Js.Int (fileSize - 1)))
              (Some ("bytes " +:+ Js.Z_to_string (numeral_value a) +:+ "-"
                     +:+ Js.Z_to_string (fileSize - 1) +:+ "/"
                     +:+ Js.Z_to_string fileSize))
              (Js.Int (fileSize - 1 - numeral_value a + 1)))
    else StreamError "Failed to stream video" 500 "VIDEO_STREAM_ERROR".
Proof.
  intros Ha Ba Hsize. unfold streamVideo.
  rewrite (open_range_head a fileSize Ha Ba Hsize).
  cbn [head_start head_end]. reflexivity.
Qed.

(** X27 at a concrete input. *)
Lemma open_range_ends_at_the_last_byte_witness :
  streamVideo ordered_bounds (Some ("bytes=" +:+ "100" +:+ "-")) 5000
  = HeadWritten
      (mkHead 206 (Some (Js.Int 100)) (Some (Js.Int 4999))
         (Some "bytes 100-4999/5000") (Js.Int 4900)).
Proof.
  apply (open_range_ends_at_the_last_byte ordered_bounds "100" 5000);
    [reflexivity | reflexivity | split; vm_compute; discriminate].
Defined.




(** *** Identifiers *)

Lemma string_length_app (a b : string) :
  String.length (a +:+ b) = (String.length a + String.length b)%nat.
Proof.
  induction a as [|c a IH]; [reflexivity|].
  change (String c a +:+ b) with (String c (a +:+ b)). cbn [String.length].
  now rewrite IH.
Qed.

Lemma expect_split (p : ascii -> bool) (s rest : string) :
  expect p s = Some rest -> exists c, s = String c rest /\ p c = true.
Proof.
  destruct s as [|c s']; [discriminate|]. cbn [expect].
  destruct (p c) eqn:Hp; [|discriminate]. intros [= ->]. eauto.
Qed.

Lemma expect_n_split (p : ascii -> bool) (n : nat) (s rest : string) :
  expect_n p n s = Some rest ->
  exists group, s = group +:+ rest /\ String.length group = n.
Proof.
  revert s. induction n as [|n IH]; intros s Hs.
  - injection Hs as ->. now exists EmptyString.
  - cbn [expect_n] in Hs. destruct (expect p s) as [s'|] eqn:Hc; [|discriminate].
    apply expect_split in Hc as (c & -> & _).
    destruct (IH s' Hs) as (g & -> & Hlen).
    exists (String c g). split; [reflexivity | cbn; now rewrite Hlen].
Qed.

(** X29.  A string [isValidUUID] accepts consists of five groups of 8,
    4, 4, 4 and 12 characters separated by dashes, 36 characters in all. *)
Theorem valid_uuid_has_five_groups (str : string) :
  isValidUUID str = true ->
  exists g1 g2 g3 g4 g5,
    str = g1 +:+ "-" +:+ g2 +:+ "-" +:+ g3 +:+ "-" +:+ g4 +:+ "-" +:+ g5
    /\ String.length g1 = 8%nat /\ String.length g2 = 4%nat
    /\ String.length g3 = 4%nat /\ String.length g4 = 4%nat
    /\ String.length g5 = 12%nat
    /\ String.length str = 36%nat.
Proof.
  unfold isValidUUID, match_groups, uuid_groups. cbn [fold_left]. intros Hm.
  destruct (expect_n is_hex 8 str) as [r1|] eqn:E1; [|discriminate].
  destruct (expect is_dash r1) as [r2|] eqn:E2; [|discriminate].
  destruct (expect_n is_hex 4 r2) as [r3|] eqn:E3; [|discriminate].
  destruct (expect is_dash r3) as [r4|] eqn:E4; [|discriminate].
  destruct (expect is_version r4) as [r5|] eqn:E5; [|discriminate].
  destruct (expect_n is_hex 3 r5) as [r6|] eqn:E6; [|discriminate].
  destruct (expect is_dash r6) as [r7|] eqn:E7; [|discriminate].
  destruct (expect is_variant r7) as [r8|] eqn:E8; [|discriminate].
  destruct (expect_n is_hex 3 r8) as [r9|] eqn:E9; [|discriminate].
  destruct (expect is_dash r9) as [r10|] eqn:E10; [|discriminate].
  destruct (expect_n is_hex 12 r10) as [r11|] eqn:E11; [|discriminate].
  destruct r11 as [|]; [|discriminate].
  apply expect_n_split in E1 as (g1 & -> & L1).
  apply expect_split in E2 as (d1 & -> & D1).
  apply expect_n_split in E3 as (g2 & -> & L2).
  apply expect_split in E4 as (d2 & -> & D2).
  apply expect_split in E5 as (v & -> & _).
  apply expect_n_split in E6 as (g3 & -> & L3).
  apply expect_split in E7 as (d3 & -> & D3).
  apply expect_split in E8 as (u & -> & _).
  apply expect_n_split in E9 as (g4 & -> & L4).
  apply expect_split in E10 as (d4 & -> & D4).
  apply expect_n_split in E11 as (g5 & -> & L5).
  unfold is_dash in *.
  apply Ascii.eqb_eq in D1, D2, D3, D4. subst d1 d2 d3 d4.
  exists g1, g2, (String v g3), (String u g4), g5.
  rewrite append_empty in *.
  split; [reflexivity|]. cbn [String.length].
  repeat (split; [lia|]).
  repeat (rewrite string_length_app; cbn [String.length]). lia.
Qed.

(** X29 at a concrete input. *)
Lemma valid_uuid_has_five_groups_witness :
  exists g1 g2 g3 g4 g5,
    "123E4567-e89b-42d3-A456-426614174000"
    = g1 +:+ "-" +:+ g2 +:+ "-" +:+ g3 +:+ "-" +:+ g4 +:+ "-" +:+ g5
    /\ String.length g1 = 8%nat /\ String.length g2 = 4%nat
    /\ String.length g3 = 4%nat /\ String.length g4 = 4%nat
    /\ String.length g5 = 12%nat
    /\ String.length "123E4567-e89b-42d3-A456-426614174000" = 36%nat.
Proof.
  apply (valid_uuid_has_five_groups "123E4567-e89b-42d3-A456-426614174000").
  reflexivity.
Defined.

(** *** Upload, lookup and processing of a video *)

(** X18.  Whatever ffprobe yields, the record [uploadVideo] stores for an
    uploaded file is found by [getVideoById] under the new id, carries that
    id, and the records of the other ids are as before; without a file the
    upload ends with the error 400 MISSING_VIDEO_FILE. *)
Theorem uploaded_video_can_be_fetched `{Deps}
    (hls : string) (store : gmap string VideoMetadata.t) (f : UploadedFile)
    (id : string) (t1 t2 : Z) (probe : FfprobeOutcome) :
  (exists data,
      uploadVideo hls store (Some f) id t1 t2 probe
      = Created (<[id := data]> store) data (path f, path_join hls id, id)
      /\ getVideoById (<[id := data]> store) id = VideoFound data
      /\ (forall k, k <> id ->
            getVideoById (<[id := data]> store) k = getVideoById store k)
      /\ VideoMetadata.id data = id)
  /\ uploadVideo hls store None id t1 t2 probe
     = AppError "No video file provided" 400 "MISSING_VIDEO_FILE".
Proof.
  split; [|reflexivity].
  rewrite uploadVideo_answer. eexists. split; [reflexivity|].
  split; [unfold getVideoById; now rewrite lookup_insert_eq|].
  split; [intros k Hk; unfold getVideoById; now rewrite lookup_insert_ne|].
  destruct (getVideoMetadata probe); reflexivity.
Qed.

(** X19.  When the prober rejects, the stored size is the size of the
    uploaded file and there is no audio codec; when it fulfils, a report
    without size stores size 0 in its place, and a report without audio
    stream stores the audio codec "unknown". *)
Theorem probe_decides_the_stored_size `{Deps}
    (hls : string) (store : gmap string VideoMetadata.t) (f : UploadedFile)
    (id : string) (t1 t2 : Z) (probe : FfprobeOutcome) :
  (forall err,
      getVideoMetadata probe = RejectedWith err ->
      exists store' data started,
        uploadVideo hls store (Some f) id t1 t2 probe = Created store' data started
        /\ VideoMetadata.size data = Js.Int (file_size f)
        /\ VideoMetadata.audioCodec data = None)
  /\ (forall d vs,
         probe = ProbeData d ->
         List.find (has_codec_type "video") (streams d) = Some vs ->
         exists store' data started,
           uploadVideo hls store (Some f) id t1 t2 probe = Created store' data started
           /\ (format_size (format d) = None -> VideoMetadata.size data = Js.Int 0)
           /\ (List.find (has_codec_type "audio") (streams d) = None ->
               VideoMetadata.audioCodec data = Some "unknown")).
Proof.
  split.
  - intros err Herr. rewrite uploadVideo_answer, Herr.
    do 3 eexists. split; [reflexivity|]. split; reflexivity.
  - intros d vs -> Hvs. rewrite uploadVideo_answer. unfold getVideoMetadata.
    rewrite Hvs. do 3 eexists. split; [reflexivity|].
    cbn [with_status Object_assign VideoMetadata.size VideoMetadata.audioCodec
         PartialMetadata.size PartialMetadata.audioCodec].
    split; intros ->; reflexivity.
Qed.

(** X19 at a concrete input. *)
Lemma probe_decides_the_stored_size_witness :
  (exists store' data started,
      @uploadVideo configured "hls" ∅ (Some sample_file) "v1" 10 11
         (ProbeError (ErrorObject "ffprobe exited with code 1"))
      = Created store' data started
      /\ VideoMetadata.size data = Js.Int 2048
      /\ VideoMetadata.audioCodec data = None)
  /\ (exists store' data started,
         @uploadVideo configured "hls" ∅ (Some sample_file) "v1" 10 11
            (ProbeData sparse_report)
         = Created store' data started
         /\ (format_size (format sparse_report) = None ->
             VideoMetadata.size data = Js.Int 0)
         /\ (List.find (has_codec_type "audio") (streams sparse_report) = None ->
             VideoMetadata.audioCodec data = Some "unknown")).
Proof.
  split.
  - apply (proj1 (@probe_decides_the_stored_size configured "hls" ∅ sample_file
                    "v1" 10 11
                    (ProbeError (ErrorObject "ffprobe exited with code 1")))
             (ErrorObject "ffprobe exited with code 1")).
    reflexivity.
  - apply (proj2 (@probe_decides_the_stored_size configured "hls" ∅ sample_file
                    "v1" 10 11 (ProbeData sparse_report))
             sparse_report (mkStream (Some "video") None (Some 640) None None));
      reflexivity.
Defined.

(** X22.  [processVideoAsync] changes no record but the one of its video
    id, adds none, and does nothing when there is no record for the id. *)
Theorem processing_touches_only_its_video
    (store : gmap string VideoMetadata.t) (videoId : string)
    (conversion : Settled (list string)) (unlink : option thrown) (t : Z) :
  (forall k, k <> videoId ->
     processVideoAsync store videoId conversion unlink t !! k = store !! k)
  /\ (store !! videoId = None ->
      processVideoAsync store videoId conversion unlink t = store)
  /\ (is_Some (processVideoAsync store videoId conversion unlink t !! videoId)
      <-> is_Some (store !! videoId)).
Proof.
  unfold processVideoAsync, mark_failed.
  destruct (store !! videoId) as [v|] eqn:Hv.
  - destruct conversion as [paths | e]; [destruct unlink as [e|]|];
      rewrite ?lookup_insert_eq; split; try split;
      try (intros k Hk; rewrite ?lookup_insert_ne by congruence; reflexivity);
      try discriminate;
      rewrite ?lookup_insert_eq; split; eauto.
  - split; [reflexivity|]. split; [reflexivity|]. now rewrite Hv.
Qed.

(** X22 at a concrete input. *)
Lemma processing_touches_only_its_video_witness :
  (forall k, k <> "v2" ->
     processVideoAsync one_video "v2" (Fulfilled []) None 20 !! k = one_video !! k)
  /\ processVideoAsync one_video "v2" (Fulfilled []) None 20 = one_video
  /\ (is_Some (processVideoAsync one_video "v2" (Fulfilled []) None 20 !! "v2")
      <-> is_Some (one_video !! "v2")).
Proof.
  destruct (processing_touches_only_its_video one_video "v2" (Fulfilled []) None 20)
    as (Hother & Hnone & Hdom).
  split; [exact Hother|]. split; [|exact Hdom].
  apply Hnone. reflexivity.
Defined.

(** X20.  After [processVideoAsync], when the uploaded file was removed
    without error, the record of the video follows the job of the call: if
    the job is completed the record is completed, processed, with the path
    of the master playlist and the update time; if the job is failed the
    record is failed and the rest is as it was. *)
Theorem processing_status_follows_the_job `{Deps}
    (w : Service) (input dir video jobId : string) (evs : list Event)
    (store : gmap string VideoMetadata.t) (videoId : string) (v : VideoMetadata.t)
    (c : Settled (list string)) (t : Z) :
  let s := run (convertToHLS w input dir video jobId) evs in
  store !! videoId = Some v ->
  settlement (phase (call s)) = Some c ->
  exists j v',
    the_job s = Some j
    /\ processVideoAsync store videoId c None t !! videoId = Some v'
    /\ ((Job.status j = completed
         /\ VideoMetadata.processingStatus v' = st_completed
         /\ VideoMetadata.isProcessed v' = true
         /\ VideoMetadata.hlsPath v' = Some ("/video/" +:+ videoId +:+ "/master.m3u8")
         /\ VideoMetadata.updatedAt v' = t)
        \/ (Job.status j = failed
            /\ VideoMetadata.processingStatus v' = st_failed
            /\ VideoMetadata.isProcessed v' = VideoMetadata.isProcessed v
            /\ VideoMetadata.hlsPath v' = VideoMetadata.hlsPath v
            /\ VideoMetadata.updatedAt v' = VideoMetadata.updatedAt v)).
Proof.
  intros s Hv Hc.
  destruct (reachable_invariant w input dir video jobId evs)
    as (j & Hj & _ & _ & _ & Hph).
  fold s in Hj, Hph. unfold phase_invariant in Hph.
  unfold processVideoAsync, mark_failed. rewrite Hv.
  destruct (phase (call s)) as [| | | paths | e]; try discriminate;
    injection Hc as <-.
  - destruct Hph as (Hst & _). rewrite lookup_insert_eq.
    do 2 eexists. split; [exact Hj|]. split; [reflexivity|]. left.
    repeat split. exact Hst.
  - destruct Hph as (Hst & _). rewrite !lookup_insert_eq.
    do 2 eexists. split; [exact Hj|]. split; [reflexivity|]. right.
    repeat split. exact Hst.
Qed.

(** X20 at a concrete input. *)
Lemma processing_status_follows_the_job_witness :
  exists j v',
    the_job (@run scenario scenario_start failing_trace) = Some j
    /\ processVideoAsync one_video "v1"
         (RejectedWith (ErrorObject "ffmpeg exited with code 1")) None 20 !! "v1"
       = Some v'
    /\ ((Job.status j = completed
         /\ VideoMetadata.processingStatus v' = st_completed
         /\ VideoMetadata.isProcessed v' = true
         /\ VideoMetadata.hlsPath v' = Some ("/video/" +:+ "v1" +:+ "/master.m3u8")
         /\ VideoMetadata.updatedAt v' = 20)
        \/ (Job.status j = failed
            /\ VideoMetadata.processingStatus v' = st_failed
            /\ VideoMetadata.isProcessed v'
               = VideoMetadata.isProcessed
                   (@initial_metadata configured sample_file "v1" 10 11)
            /\ VideoMetadata.hlsPath v'
               = VideoMetadata.hlsPath
                   (@initial_metadata configured sample_file "v1" 10 11)
            /\ VideoMetadata.updatedAt v'
               = VideoMetadata.updatedAt
                   (@initial_metadata configured sample_file "v1" 10 11))).
Proof.
  apply (@processing_status_follows_the_job scenario (fresh_service 1000)
           "in.mp4" "hls/v1" "v1" "job-1" failing_trace one_video "v1"
           (@initial_metadata configured sample_file "v1" 10 11)
           (RejectedWith (ErrorObject "ffmpeg exited with code 1")) 20);
    reflexivity.
Defined.

(** X21.  When the conversion succeeds but the removal of the uploaded
    file fails, the record ends failed although it is processed and has the
    path of the master playlist. *)
Theorem failed_removal_marks_the_video_failed
    (store : gmap string VideoMetadata.t) (videoId : string) (v : VideoMetadata.t)
    (paths : list string) (e : thrown) (t : Z) :
  store !! videoId = Some v ->
  exists v',
    processVideoAsync store videoId (Fulfilled paths) (Some e) t !! videoId = Some v'
    /\ VideoMetadata.processingStatus v' = st_failed
    /\ VideoMetadata.isProcessed v' = true
    /\ VideoMetadata.hlsPath v' = Some ("/video/" +:+ videoId +:+ "/master.m3u8")
    /\ VideoMetadata.updatedAt v' = t.
Proof.
  intros Hv. unfold processVideoAsync, mark_failed. rewrite Hv.
  rewrite !lookup_insert_eq. eexists. split; [reflexivity|]. repeat split.
Qed.

(** X21 at a concrete input. *)
Lemma failed_removal_marks_the_video_failed_witness :
  exists v',
    processVideoAsync one_video "v1" (Fulfilled ["hls/v1/master.m3u8"])
      (Some (ErrorObject "EPERM")) 20 !! "v1" = Some v'
    /\ VideoMetadata.processingStatus v' = st_failed
    /\ VideoMetadata.isProcessed v' = true
    /\ VideoMetadata.hlsPath v' = Some ("/video/" +:+ "v1" +:+ "/master.m3u8")
    /\ VideoMetadata.updatedAt v' = 20.
Proof.
  apply (failed_removal_marks_the_video_failed one_video "v1"
           (@initial_metadata configured sample_file "v1" 10 11)).
  reflexivity.
Defined.
